(** * Peripheral state and recovery engine of the Topographic-Robot HAL

    A shallow embedding of
      - components/sensors/mpu6050_hal/mpu6050_hal.c
      - components/controllers/pca9685_hal/pca9685_hal.c
      - components/sensors/dht22_hal/include/dht22_hal.h
    and the properties of the device state machine, the recovery
    controller, the device registry and the unit converter.

    Layout: the platform interface and the data model first, then the
    drivers, then lemmas and theorems. *)

From Stdlib Require Import ZArith List Bool Lia.
From Stdlib Require Import Floats.SpecFloat.
Import ListNotations.
Open Scope Z_scope.

(* ================================================================== *)
(** * Platform: error codes, pins, single-precision floats *)
(* ================================================================== *)

(** esp_err.h of ESP-IDF. *)
Definition esp_err_t := Z.
Definition ESP_OK              : esp_err_t := 0.
Definition ESP_FAIL            : esp_err_t := -1.
Definition ESP_ERR_NO_MEM      : esp_err_t := 0x101.
Definition ESP_ERR_INVALID_ARG : esp_err_t := 0x102.
Definition ESP_ERR_NOT_FOUND   : esp_err_t := 0x105.

(** driver/gpio.h and driver/i2c.h of ESP-IDF. *)
Definition GPIO_NUM_21 : Z := 21.
Definition GPIO_NUM_22 : Z := 22.
Definition I2C_NUM_0   : Z := 0.

(** Storage in the unsigned and signed integer types the sources use. *)
Definition to_uint8  (z : Z) : Z := z mod 256.
Definition to_uint32 (z : Z) : Z := z mod 4294967296.
Definition to_int16  (z : Z) : Z :=
  let u := z mod 65536 in if u <? 32768 then u else u - 65536.

(** C [float] is IEEE-754 binary32: 24 bits of precision, emax 128. *)
Module F32.
Definition prec : Z := 24.
Definition emax : Z := 128.
Definition float := spec_float.

Definition zero : float := S754_zero false.
(** Conversion of an integer to [float], rounded to nearest even. *)
Definition of_Z (z : Z) : float := binary_normalize prec emax z 0 false.
Definition div (x y : float) : float := SFdiv prec emax x y.
Definition mul (x y : float) : float := SFmul prec emax x y.
(** The decimal literal [n / d] (65.5 is [lit 655 10]), rounded once. *)
Definition lit (n d : Z) : float := div (of_Z n) (of_Z d).
(** The dyadic number [m * 2^e]. *)
Definition dyadic (m e : Z) : float := binary_normalize prec emax m e false.
Definition ltb (x y : float) : bool := SFltb x y.
Definition leb (x y : float) : bool := SFleb x y.

(** Integer part (rounding toward zero), [None] for infinities and NaN. *)
Definition trunc (x : float) : option Z :=
  match x with
  | S754_zero _ => Some 0
  | S754_finite s m e =>
      let a := if 0 <=? e then Z.shiftl (Z.pos m) e
               else Z.shiftr (Z.pos m) (- e) in
      Some (if s then - a else a)
  | _ => None
  end.

(** The cast [(uint16_t) x].  C defines it when the integer part of [x]
    fits the type; outside that range (and for infinities and NaN) the
    standard leaves it undefined, and this model answers 0 there. *)
Definition to_uint16 (x : float) : Z :=
  match trunc x with
  | Some z => if (0 <=? z) && (z <=? 65535) then z else 0
  | None => 0
  end.
End F32.

(* ================================================================== *)
(** * The bus transaction port (common/i2c.h) and the allocator *)
(* ================================================================== *)

(** The calls the drivers make to their environment.  Logging and task
    delays carry no data and are left out. *)
Inductive call : Type :=
| I2cInit (scl_io sda_io freq_hz bus : Z)
| I2cWriteByte (data bus : Z)
| I2cWriteRegByte (reg data bus addr : Z)
| I2cReadRegBytes (reg : Z) (len : nat) (bus addr : Z)
| Malloc
| Free.

(** What the environment answers: a status, and for a read the bytes that
    the call left in the caller's buffer. *)
Record reply : Type := mkReply { status : esp_err_t; bytes : list Z }.

Definition event : Type := (call * reply)%type.

(** The environment is any deterministic function of the history. *)
Definition environment : Type := list event -> call -> reply.

(** State monad over the history of platform calls. *)
Definition M (A : Type) : Type := list event -> A * list event.

Definition ret {A : Type} (a : A) : M A := fun tr => (a, tr).

Definition bind {A B : Type} (m : M A) (k : A -> M B) : M B :=
  fun tr => let (a, tr') := m tr in k a tr'.

Notation "x <- m ;; k" := (bind m (fun x => k))
  (at level 61, m at next level, right associativity).

Definition invoke (env : environment) (c : call) : M reply :=
  fun tr => let r := env tr c in (r, tr ++ [(c, r)]).

Definition ok (e : esp_err_t) : bool := e =? ESP_OK.

Section Port.
Variable env : environment.

Definition priv_i2c_init (scl_io sda_io freq_hz bus : Z) : M esp_err_t :=
  r <- invoke env (I2cInit scl_io sda_io freq_hz bus) ;; ret (status r).

Definition priv_i2c_write_byte (data bus : Z) : M esp_err_t :=
  r <- invoke env (I2cWriteByte data bus) ;; ret (status r).

Definition priv_i2c_write_reg_byte (reg data bus addr : Z) : M esp_err_t :=
  r <- invoke env (I2cWriteRegByte reg data bus addr) ;; ret (status r).

(** Returns the status and the buffer contents after the call; a
    position that the environment left unanswered reads as 0. *)
Definition priv_i2c_read_reg_bytes (reg : Z) (len : nat) (bus addr : Z)
  : M (esp_err_t * list Z) :=
  r <- invoke env (I2cReadRegBytes reg len bus addr) ;;
  ret (status r, map to_uint8 (bytes r)).

(** [malloc]: [true] when the pointer returned is not NULL. *)
Definition malloc : M bool :=
  r <- invoke env Malloc ;; ret (ok (status r)).

Definition free : M unit :=
  _ <- invoke env Free ;; ret tt.
End Port.

(* ================================================================== *)
(** * mpu6050_hal: the six-axis inertial sensor *)
(* ================================================================== *)

(** The state tags that mpu6050_hal.c assigns and tests. *)
Inductive mpu6050_states_t : Type :=
| k_mpu6050_ready
| k_mpu6050_data_updated
| k_mpu6050_uninitialized
| k_mpu6050_error
| k_mpu6050_power_on_error
| k_mpu6050_reset_error.

(** mpu6050_hal.h is not part of the sources at hand: the register
    addresses, command bytes and the numeric codes of the state tags that
    it declares are parameters of the model. *)
Record mpu6050_hal_h : Type := mkMpu6050Header {
  k_mpu6050_pwr_mgmt_1_cmd    : Z;
  k_mpu6050_power_on_cmd      : Z;
  k_mpu6050_reset_cmd         : Z;
  k_mpu6050_smplrt_div_cmd    : Z;
  k_mpu6050_config_cmd        : Z;
  k_mpu6050_gyro_config_cmd   : Z;
  k_mpu6050_accel_config_cmd  : Z;
  k_mpu6050_who_am_i_cmd      : Z;
  k_mpu6050_who_am_i_response : Z;
  k_mpu6050_accel_xout_h_cmd  : Z;
  k_mpu6050_gyro_xout_h_cmd   : Z;
  k_mpu6050_config_dlpf_44hz  : Z;
  k_mpu6050_accel_fs_2g       : Z;
  k_mpu6050_accel_fs_4g       : Z;
  k_mpu6050_accel_fs_8g       : Z;
  k_mpu6050_accel_fs_16g      : Z;
  k_mpu6050_gyro_fs_250dps    : Z;
  k_mpu6050_gyro_fs_500dps    : Z;
  k_mpu6050_gyro_fs_1000dps   : Z;
  k_mpu6050_gyro_fs_2000dps   : Z;
  mpu6050_state_code          : mpu6050_states_t -> Z
}.

(** The fields of [mpu6050_data_t] that mpu6050_hal.c reads and writes. *)
Record mpu6050_data_t : Type := mkMpu6050Data {
  i2c_address : Z;
  i2c_bus     : Z;
  accel_x     : F32.float;
  accel_y     : F32.float;
  accel_z     : F32.float;
  gyro_x      : F32.float;
  gyro_y      : F32.float;
  gyro_z      : F32.float;
  state       : mpu6050_states_t
}.

Definition set_state (d : mpu6050_data_t) (s : mpu6050_states_t)
  : mpu6050_data_t :=
  mkMpu6050Data (i2c_address d) (i2c_bus d)
    (accel_x d) (accel_y d) (accel_z d) (gyro_x d) (gyro_y d) (gyro_z d) s.

(** The physical reading: acceleration along x, y, z, then angular rate
    about x, y, z. *)
Definition reading (d : mpu6050_data_t) : list F32.float :=
  [accel_x d; accel_y d; accel_z d; gyro_x d; gyro_y d; gyro_z d].

(** Constants of mpu6050_hal.c. *)
Definition mpu6050_i2c_address     : Z := 0x68.
Definition mpu6050_i2c_bus         : Z := I2C_NUM_0.
Definition mpu6050_scl_io          : Z := GPIO_NUM_22.
Definition mpu6050_sda_io          : Z := GPIO_NUM_21.
Definition mpu6050_i2c_freq_hz     : Z := 100000.
Definition mpu6050_sample_rate_div : Z := 9.

Definition mpu6050_gyro_config_idx  : nat := 3.
Definition mpu6050_accel_config_idx : nat := 3.

Section Mpu6050.
Variable hdr : mpu6050_hal_h.
Variable env : environment.

Definition mpu6050_config_dlpf : Z := k_mpu6050_config_dlpf_44hz hdr.

(** Configuration byte and sensitivity (LSB per g). *)
Definition mpu6050_accel_configs : list (Z * F32.float) :=
  [ (k_mpu6050_accel_fs_2g hdr,  F32.of_Z 16384);
    (k_mpu6050_accel_fs_4g hdr,  F32.of_Z 8192);
    (k_mpu6050_accel_fs_8g hdr,  F32.of_Z 4096);
    (k_mpu6050_accel_fs_16g hdr, F32.of_Z 2048) ].

(** Configuration byte and sensitivity (LSB per degree per second). *)
Definition mpu6050_gyro_configs : list (Z * F32.float) :=
  [ (k_mpu6050_gyro_fs_250dps hdr,  F32.of_Z 131);
    (k_mpu6050_gyro_fs_500dps hdr,  F32.lit 655 10);
    (k_mpu6050_gyro_fs_1000dps hdr, F32.lit 328 10);
    (k_mpu6050_gyro_fs_2000dps hdr, F32.lit 164 10) ].

Definition accel_config_entry : Z * F32.float :=
  nth mpu6050_accel_config_idx mpu6050_accel_configs (0, F32.zero).
Definition gyro_config_entry : Z * F32.float :=
  nth mpu6050_gyro_config_idx mpu6050_gyro_configs (0, F32.zero).

(** The assignments at the head of [mpu6050_init], before the first call
    to the bus. *)
Definition mpu6050_init_defaults (d : mpu6050_data_t) : mpu6050_data_t :=
  mkMpu6050Data mpu6050_i2c_address mpu6050_i2c_bus
    F32.zero F32.zero F32.zero F32.zero F32.zero F32.zero
    k_mpu6050_uninitialized.

Definition mpu6050_write (reg data : Z) : M esp_err_t :=
  priv_i2c_write_reg_byte env reg data mpu6050_i2c_bus mpu6050_i2c_address.

(** [mpu6050_init]: the status returned and the structure as the call
    leaves it. *)
Definition mpu6050_init (d0 : mpu6050_data_t)
  : M (esp_err_t * mpu6050_data_t) :=
  let d := mpu6050_init_defaults d0 in
  r <- priv_i2c_init env mpu6050_scl_io mpu6050_sda_io mpu6050_i2c_freq_hz
         mpu6050_i2c_bus ;;
  if negb (ok r) then ret (r, d) else
  (* wake up the sensor *)
  r <- mpu6050_write (k_mpu6050_pwr_mgmt_1_cmd hdr)
         (k_mpu6050_power_on_cmd hdr) ;;
  if negb (ok r) then ret (r, set_state d k_mpu6050_power_on_error) else
  (* reset the sensor *)
  r <- mpu6050_write (k_mpu6050_pwr_mgmt_1_cmd hdr)
         (k_mpu6050_reset_cmd hdr) ;;
  if negb (ok r) then ret (r, set_state d k_mpu6050_reset_error) else
  (* wake up again after the reset *)
  r <- mpu6050_write (k_mpu6050_pwr_mgmt_1_cmd hdr)
         (k_mpu6050_power_on_cmd hdr) ;;
  if negb (ok r) then ret (r, set_state d k_mpu6050_power_on_error) else
  (* sample rate divider *)
  r <- mpu6050_write (k_mpu6050_smplrt_div_cmd hdr)
         mpu6050_sample_rate_div ;;
  if negb (ok r) then ret (r, d) else
  (* digital low pass filter *)
  r <- mpu6050_write (k_mpu6050_config_cmd hdr) mpu6050_config_dlpf ;;
  if negb (ok r) then ret (r, d) else
  (* gyroscope full-scale range *)
  r <- mpu6050_write (k_mpu6050_gyro_config_cmd hdr)
         (fst gyro_config_entry) ;;
  if negb (ok r) then ret (r, d) else
  (* accelerometer full-scale range *)
  r <- mpu6050_write (k_mpu6050_accel_config_cmd hdr)
         (fst accel_config_entry) ;;
  if negb (ok r) then ret (r, d) else
  (* WHO_AM_I; the local starts at 0 *)
  rb <- priv_i2c_read_reg_bytes env (k_mpu6050_who_am_i_cmd hdr) 1
          mpu6050_i2c_bus mpu6050_i2c_address ;;
  let r := fst rb in
  let who_am_i := nth 0 (snd rb) 0 in
  if negb (ok r) || negb (who_am_i =? k_mpu6050_who_am_i_response hdr)
  then ret (r, d)
  else ret (ESP_OK, set_state d k_mpu6050_ready).

(** [(int16_t)((buf[i] << 8) | buf[i + 1])]. *)
Definition raw16 (buf : list Z) (i : nat) : Z :=
  to_int16 (Z.lor (Z.shiftl (nth i buf 0) 8) (nth (S i) buf 0)).

(** [mpu6050_read]; [None] stands for a NULL pointer.  The two buffers
    are uninitialized locals of the C function: where a read reports
    success without having delivered its six bytes, the bytes that the
    model takes as 0 are indeterminate in the program, and the statements
    about the values read assume full buffers. *)
Definition mpu6050_read (p : option mpu6050_data_t)
  : M (option mpu6050_data_t) :=
  match p with
  | None => ret None
  | Some d =>
      ra <- priv_i2c_read_reg_bytes env (k_mpu6050_accel_xout_h_cmd hdr) 6
              (i2c_bus d) (i2c_address d) ;;
      if negb (ok (fst ra)) then ret (Some (set_state d k_mpu6050_error))
      else
      rg <- priv_i2c_read_reg_bytes env (k_mpu6050_gyro_xout_h_cmd hdr) 6
              (i2c_bus d) (i2c_address d) ;;
      if negb (ok (fst rg)) then ret (Some (set_state d k_mpu6050_error))
      else
      let accel_data := snd ra in
      let gyro_data := snd rg in
      let accel_sensitivity := snd accel_config_entry in
      let gyro_sensitivity := snd gyro_config_entry in
      ret (Some (mkMpu6050Data (i2c_address d) (i2c_bus d)
        (F32.div (F32.of_Z (raw16 accel_data 0)) accel_sensitivity)
        (F32.div (F32.of_Z (raw16 accel_data 2)) accel_sensitivity)
        (F32.div (F32.of_Z (raw16 accel_data 4)) accel_sensitivity)
        (F32.div (F32.of_Z (raw16 gyro_data 0)) gyro_sensitivity)
        (F32.div (F32.of_Z (raw16 gyro_data 2)) gyro_sensitivity)
        (F32.div (F32.of_Z (raw16 gyro_data 4)) gyro_sensitivity)
        k_mpu6050_data_updated))
  end.

(** [state & k_mpu6050_error]. *)
Definition mpu6050_error_bits (s : mpu6050_states_t) : Z :=
  Z.land (mpu6050_state_code hdr s) (mpu6050_state_code hdr k_mpu6050_error).

Definition mpu6050_reset_on_error (d : mpu6050_data_t) : M mpu6050_data_t :=
  if negb (mpu6050_error_bits (state d) =? 0) then
    rd <- mpu6050_init d ;;
    if ok (fst rd) then ret (set_state (snd rd) k_mpu6050_ready)
    else ret (set_state (snd rd) k_mpu6050_reset_error)
  else ret d.

(** One turn of the loop of [mpu6050_tasks]. *)
Definition mpu6050_tasks_turn (d : mpu6050_data_t) : M mpu6050_data_t :=
  o <- mpu6050_read (Some d) ;;
  match o with
  | Some d' => mpu6050_reset_on_error d'
  | None => ret d
  end.
End Mpu6050.

(* ================================================================== *)
(** * pca9685_hal: the 16-channel PWM driver *)
(* ================================================================== *)

(** pca9685_hal.h is not part of the sources at hand: the command bytes,
    the code of the ready state and the integer type of the [i2c_bus]
    field (given here by the conversion into it) are parameters of the
    model.  [board_id] and [num_boards] hold [uint8_t] arguments. *)
Record pca9685_hal_h : Type := mkPca9685Header {
  k_pca9685_mode1_cmd         : Z;
  k_pca9685_sleep_cmd         : Z;
  k_pca9685_restart_cmd       : Z;
  k_pca9685_prescale_cmd      : Z;
  k_pca9685_channel0_on_l_cmd : Z;
  k_pca9685_ready             : Z;
  to_i2c_bus_t                : Z -> Z
}.

(** The fields of [pca9685_board_t] that pca9685_hal.c reads and writes,
    without the [next] pointer. *)
Record pca9685_board_t : Type := mkBoard {
  board_i2c_bus : Z;
  board_state   : Z;
  board_id      : Z;
  num_boards    : Z
}.

(** The linked list behind [controller_data], head first; [[]] is NULL. *)
Definition registry : Type := list pca9685_board_t.

Definition board_ids (reg : registry) : list Z := map board_id reg.

(** Constants of pca9685_hal.c. *)
Definition pca9685_scl_io           : Z := GPIO_NUM_22.
Definition pca9685_sda_io           : Z := GPIO_NUM_21.
Definition pca9685_i2c_freq_hz      : Z := 100000.
Definition pca9685_i2c_address      : Z := 0x40.
Definition pca9685_osc_freq         : Z := 25000000.
Definition pca9685_pwm_resolution   : Z := 4096.
Definition pca9685_default_pwm_freq : Z := 50.
Definition pca9685_max_pwm_value    : Z := 4095.
Definition pca9685_pwm_period_us    : Z := 20000.

(** [(uint8_t)((osc_freq / (resolution * pwm_freq)) - 1)], the division
    and the subtraction in [uint32_t]. *)
Definition priv_calculate_prescaler (pwm_freq : Z) : Z :=
  to_uint8 (to_uint32
    (pca9685_osc_freq / to_uint32 (pca9685_pwm_resolution * pwm_freq) - 1)).

(** The scan [while (current != NULL)] for a board id: the first entry
    that carries it. *)
Fixpoint find_board (reg : registry) (id : Z) : option pca9685_board_t :=
  match reg with
  | [] => None
  | b :: rest => if board_id b =? id then Some b else find_board rest id
  end.

(** [(uint16_t)((angle / 180.0f) * pca9685_max_pwm_value)]. *)
Definition pulse_length (angle : F32.float) : Z :=
  F32.to_uint16
    (F32.mul (F32.div angle (F32.of_Z 180)) (F32.of_Z pca9685_max_pwm_value)).

Section Pca9685.
Variable hdr : pca9685_hal_h.
Variable env : environment.

(** The body of the loop of [pca9685_init] for a board [i] that the scan
    did not find: [inl] is the early [return] of an error, [inr] the
    registry with the new board at its head. *)
Definition pca9685_init_board (reg : registry) (num : Z) (i : Z)
  : M (esp_err_t + registry) :=
  got <- malloc env ;;
  if negb got then ret (inl ESP_ERR_NO_MEM) else
  let bus := to_i2c_bus_t hdr (pca9685_i2c_address + i) in
  r <- priv_i2c_init env pca9685_scl_io pca9685_sda_io pca9685_i2c_freq_hz
         bus ;;
  if negb (ok r) then _ <- free env ;; ret (inl r) else
  (* sleep mode before setting the frequency *)
  r <- priv_i2c_write_byte env
         (Z.lor (k_pca9685_mode1_cmd hdr) (k_pca9685_sleep_cmd hdr)) bus ;;
  if negb (ok r) then _ <- free env ;; ret (inl r) else
  let prescaler := priv_calculate_prescaler pca9685_default_pwm_freq in
  r <- priv_i2c_write_byte env (k_pca9685_prescale_cmd hdr) bus ;;
  if negb (ok r) then _ <- free env ;; ret (inl r) else
  r <- priv_i2c_write_byte env prescaler bus ;;
  if negb (ok r) then _ <- free env ;; ret (inl r) else
  (* wake up (restart mode) *)
  r <- priv_i2c_write_byte env
         (Z.lor (k_pca9685_mode1_cmd hdr) (k_pca9685_restart_cmd hdr)) bus ;;
  if negb (ok r) then _ <- free env ;; ret (inl r) else
  ret (inr (mkBoard bus (k_pca9685_ready hdr) i num :: reg)).

(** [for (uint8_t i = ...; i < num_boards; i++)], [todo] turns left. *)
Fixpoint pca9685_init_loop (todo : nat) (num i : Z) (reg : registry)
  : M (esp_err_t * registry) :=
  match todo with
  | O => ret (ESP_OK, reg)
  | S todo' =>
      match find_board reg i with
      | Some _ => pca9685_init_loop todo' num (i + 1) reg
      | None =>
          res <- pca9685_init_board reg num i ;;
          match res with
          | inl e => ret (e, reg)
          | inr reg' => pca9685_init_loop todo' num (i + 1) reg'
          end
      end
  end.

(** [pca9685_init]: the status returned and the list as the call leaves
    it; [num] is a [uint8_t]. *)
Definition pca9685_init (reg : registry) (num : Z)
  : M (esp_err_t * registry) :=
  pca9685_init_loop (Z.to_nat num) num 0 reg.

(** The three writes of one channel in [pca9685_set_angle]. *)
Definition pca9685_write_channel (bus pulse channel : Z) : M esp_err_t :=
  let on_l_cmd := to_uint8 (k_pca9685_channel0_on_l_cmd hdr + 4 * channel) in
  r <- priv_i2c_write_byte env on_l_cmd bus ;;
  if negb (ok r) then ret r else
  r <- priv_i2c_write_byte env (Z.land pulse 0xFF) bus ;;
  if negb (ok r) then ret r else
  r <- priv_i2c_write_byte env (Z.land (Z.shiftr pulse 8) 0xFF) bus ;;
  if negb (ok r) then ret r else
  ret ESP_OK.

(** [for (uint8_t channel = ...; channel < 16; ++channel)]. *)
Fixpoint pca9685_channel_loop (todo : nat) (channel : Z)
    (motor_mask bus pulse : Z) : M esp_err_t :=
  match todo with
  | O => ret ESP_OK
  | S todo' =>
      if negb (Z.land motor_mask (Z.shiftl 1 channel) =? 0) then
        r <- pca9685_write_channel bus pulse channel ;;
        if negb (ok r) then ret r
        else pca9685_channel_loop todo' (channel + 1) motor_mask bus pulse
      else pca9685_channel_loop todo' (channel + 1) motor_mask bus pulse
  end.

(** The scan for [board_id] in [pca9685_set_angle]. *)
Fixpoint pca9685_set_angle_scan (cur : registry) (motor_mask id : Z)
    (angle : F32.float) : M esp_err_t :=
  match cur with
  | [] => ret ESP_ERR_NOT_FOUND
  | b :: rest =>
      if board_id b =? id then
        if negb (board_state b =? k_pca9685_ready hdr) then ret ESP_FAIL
        else pca9685_channel_loop 16 0 motor_mask (board_i2c_bus b)
               (pulse_length angle)
      else pca9685_set_angle_scan rest motor_mask id angle
  end.

Definition pca9685_set_angle (controller_data : registry)
    (motor_mask id : Z) (angle : F32.float) : M esp_err_t :=
  match controller_data with
  | [] => ret ESP_ERR_INVALID_ARG
  | head :: _ =>
      if num_boards head <=? id then ret ESP_ERR_INVALID_ARG
      else pca9685_set_angle_scan controller_data motor_mask id angle
  end.
End Pca9685.

(* ================================================================== *)
(** * dht22_hal: the temperature and humidity sensor *)
(* ================================================================== *)

(** [dht22_states_t] of dht22_hal.h. *)
Definition k_dht22_ready         : Z := 0x00.
Definition k_dht22_data_updated  : Z := 0x01.
Definition k_dht22_uninitialized : Z := 0x10.
Definition k_dht22_error         : Z := 0xF0.

(** [dht22_data_t] of dht22_hal.h; ticks are [uint32_t]. *)
Record dht22_data_t : Type := mkDht22Data {
  temperature_f      : F32.float;
  temperature_c      : F32.float;
  humidity           : F32.float;
  dht22_state        : Z;
  retry_count        : Z;
  retry_interval     : Z;
  last_attempt_ticks : Z
}.

(** The [extern] constants of dht22_hal.h that the recovery uses; their
    values are defined outside the sources at hand. *)
Record dht22_config : Type := mkDht22Config {
  dht22_max_retries            : Z;
  dht22_initial_retry_interval : Z;
  dht22_max_backoff_interval   : Z
}.

Definition dht22_set_recovery (d : dht22_data_t) (st count interval last : Z)
  : dht22_data_t :=
  mkDht22Data (temperature_f d) (temperature_c d) (humidity d)
    st count interval last.

Section Dht22.
Variable cfg : dht22_config.
(** [dht22_init] is declared in dht22_hal.h and defined elsewhere. *)
Variable dht22_init : dht22_data_t -> M (esp_err_t * dht22_data_t).

(** Ticks elapsed since the last attempt, in [uint32_t]. *)
Definition dht22_elapsed (d : dht22_data_t) (now : Z) : Z :=
  to_uint32 (now - last_attempt_ticks d).

(** Modelled from the spec: the body of [dht22_reset_on_error], of which
    the sources hold the declaration only.  Section 4.2 and the comment
    of the declaration: nothing happens unless the state contains
    [k_dht22_error] and [retry_interval] ticks have elapsed since
    [last_attempt_ticks]; then the sensor is initialized again.  Success
    makes the state ready and resets the count and the interval; failure
    increments the count and, when it reaches [dht22_max_retries],
    doubles the interval up to [dht22_max_backoff_interval] and resets
    the count.  [last_attempt_ticks] is updated either way. *)
Definition dht22_reset_on_error (d : dht22_data_t) (now : Z)
  : M dht22_data_t :=
  if negb (Z.land (dht22_state d) k_dht22_error =? 0) then
    if dht22_elapsed d now <? retry_interval d then ret d
    else
      rd <- dht22_init d ;;
      let d' := snd rd in
      if ok (fst rd) then
        ret (dht22_set_recovery d' k_dht22_ready 0
               (dht22_initial_retry_interval cfg) now)
      else
        let count := to_uint8 (retry_count d' + 1) in
        if dht22_max_retries cfg <=? count then
          ret (dht22_set_recovery d' (dht22_state d') 0
                 (Z.min (to_uint32 (2 * retry_interval d'))
                        (dht22_max_backoff_interval cfg)) now)
        else
          ret (dht22_set_recovery d' (dht22_state d') count
                 (retry_interval d') now)
  else ret d.
End Dht22.

(* ================================================================== *)
(** * Instances of the missing headers, for the closed examples *)
(* ================================================================== *)

(** The register map of the MPU-6050 data sheet, and state codes laid out
    like those of [dht22_states_t]. *)
Definition mpu6050_example_codes (s : mpu6050_states_t) : Z :=
  match s with
  | k_mpu6050_ready          => 0x00
  | k_mpu6050_data_updated   => 0x01
  | k_mpu6050_uninitialized  => 0x10
  | k_mpu6050_error          => 0xF0
  | k_mpu6050_power_on_error => 0xA1
  | k_mpu6050_reset_error    => 0xA2
  end.

Definition mpu6050_example_h : mpu6050_hal_h :=
  mkMpu6050Header 0x6B 0x00 0x80 0x19 0x1A 0x1B 0x1C 0x75 0x68 0x3B 0x43
    0x03 0x00 0x08 0x10 0x18 0x00 0x08 0x10 0x18 mpu6050_example_codes.

(** The register map of the PCA9685 data sheet; [i2c_bus] as [uint8_t]. *)
Definition pca9685_example_h : pca9685_hal_h :=
  mkPca9685Header 0x00 0x10 0x80 0xFE 0x06 0x00 to_uint8.

(** Environments for the examples. *)
Definition env_all_ok : environment := fun _ _ => mkReply ESP_OK [].
Definition env_all_fail : environment := fun _ _ => mkReply ESP_FAIL [].

(** Every call succeeds and every read fills its buffer with [b]. *)
Definition env_reads (b : Z) : environment :=
  fun _ c =>
    match c with
    | I2cReadRegBytes _ len _ _ => mkReply ESP_OK (repeat b len)
    | _ => mkReply ESP_OK []
    end.

(** The first [n] calls succeed (reads return [b]), the later ones fail. *)
Definition env_fail_after (n : nat) (b : Z) : environment :=
  fun tr c => if (length tr <? n)%nat then env_reads b tr c
              else mkReply ESP_FAIL [].

(** Every call succeeds and a read fills its buffer from [bs]. *)
Definition env_reads_bytes (bs : list Z) : environment :=
  fun _ c =>
    match c with
    | I2cReadRegBytes _ len _ _ => mkReply ESP_OK (firstn len bs)
    | _ => mkReply ESP_OK []
    end.

Definition mpu6050_blank : mpu6050_data_t :=
  mkMpu6050Data 0 0 F32.zero F32.zero F32.zero F32.zero F32.zero F32.zero
    k_mpu6050_uninitialized.

(* ================================================================== *)
(** * Vocabulary for statements about runs *)
(* ================================================================== *)

(** The events that the calls [cs], made one after another from the
    history [tr], add to it. *)
Fixpoint answered (env : environment) (tr : list event) (cs : list call)
  : list event :=
  match cs with
  | [] => []
  | c :: cs' =>
      let e := (c, env tr c) in e :: answered env (tr ++ [e]) cs'
  end.

Definition succeeded (e : event) : Prop := status (snd e) = ESP_OK.

(** The first byte that a read left in its buffer, as [uint8_t]; a buffer
    that the call did not touch keeps its initial 0. *)
Definition first_byte (e : event) : Z := nth 0 (map to_uint8 (bytes (snd e))) 0.

(** The bus calls of [mpu6050_init] in program order: driver install,
    power on, reset, wake, sample rate, filter, gyroscope range,
    accelerometer range, identity. *)
Definition mpu6050_init_calls (hdr : mpu6050_hal_h) : list call :=
  [ I2cInit mpu6050_scl_io mpu6050_sda_io mpu6050_i2c_freq_hz mpu6050_i2c_bus;
    I2cWriteRegByte (k_mpu6050_pwr_mgmt_1_cmd hdr) (k_mpu6050_power_on_cmd hdr)
      mpu6050_i2c_bus mpu6050_i2c_address;
    I2cWriteRegByte (k_mpu6050_pwr_mgmt_1_cmd hdr) (k_mpu6050_reset_cmd hdr)
      mpu6050_i2c_bus mpu6050_i2c_address;
    I2cWriteRegByte (k_mpu6050_pwr_mgmt_1_cmd hdr) (k_mpu6050_power_on_cmd hdr)
      mpu6050_i2c_bus mpu6050_i2c_address;
    I2cWriteRegByte (k_mpu6050_smplrt_div_cmd hdr) mpu6050_sample_rate_div
      mpu6050_i2c_bus mpu6050_i2c_address;
    I2cWriteRegByte (k_mpu6050_config_cmd hdr) (mpu6050_config_dlpf hdr)
      mpu6050_i2c_bus mpu6050_i2c_address;
    I2cWriteRegByte (k_mpu6050_gyro_config_cmd hdr)
      (fst (gyro_config_entry hdr)) mpu6050_i2c_bus mpu6050_i2c_address;
    I2cWriteRegByte (k_mpu6050_accel_config_cmd hdr)
      (fst (accel_config_entry hdr)) mpu6050_i2c_bus mpu6050_i2c_address;
    I2cReadRegBytes (k_mpu6050_who_am_i_cmd hdr) 1
      mpu6050_i2c_bus mpu6050_i2c_address ].

(** The state in which [mpu6050_init] leaves the structure when call
    number [k] of the sequence is the one that fails. *)
Definition mpu6050_init_failure_state (k : nat) : mpu6050_states_t :=
  match k with
  | 1%nat | 3%nat => k_mpu6050_power_on_error
  | 2%nat => k_mpu6050_reset_error
  | _ => k_mpu6050_uninitialized
  end.

(** The tags that name an error. *)
Definition is_error_variant (s : mpu6050_states_t) : bool :=
  match s with
  | k_mpu6050_error | k_mpu6050_power_on_error | k_mpu6050_reset_error => true
  | _ => false
  end.

Definition zero_reading : list F32.float := repeat F32.zero 6.

(** The two block reads of [mpu6050_read]. *)
Definition mpu6050_read_calls (hdr : mpu6050_hal_h) (d : mpu6050_data_t)
  : list call :=
  [ I2cReadRegBytes (k_mpu6050_accel_xout_h_cmd hdr) 6
      (i2c_bus d) (i2c_address d);
    I2cReadRegBytes (k_mpu6050_gyro_xout_h_cmd hdr) 6
      (i2c_bus d) (i2c_address d) ].

(** The buffer that a read event filled. *)
Definition buffer (e : event) : list Z := map to_uint8 (bytes (snd e)).

(** One axis: the big-endian 16-bit two's complement value at offset [i]
    of the buffer, divided by the sensitivity. *)
Definition axis (buf : list Z) (i : nat) (sensitivity : F32.float)
  : F32.float :=
  F32.div (F32.of_Z (raw16 buf i)) sensitivity.

(** The 16-bit two's complement number with high byte [hi] and low byte
    [lo]. *)
Definition int16_of_bytes (hi lo : Z) : Z :=
  if hi <? 128 then 256 * hi + lo else 256 * hi + lo - 65536.

(** A default for [nth] and [last] on lists of events. *)
Definition no_event : event := (Free, mkReply ESP_OK []).

(** Devices for the closed examples: one whose last read failed, one that
    is ready; both hold a reading. *)
Definition mpu6050_failed_read : mpu6050_data_t :=
  mkMpu6050Data mpu6050_i2c_address mpu6050_i2c_bus
    (F32.of_Z 1) (F32.of_Z 2) (F32.of_Z 3) (F32.of_Z 4) (F32.of_Z 5)
    (F32.of_Z 6) k_mpu6050_error.

Definition mpu6050_ready_device : mpu6050_data_t :=
  mkMpu6050Data mpu6050_i2c_address mpu6050_i2c_bus
    (F32.of_Z 1) (F32.of_Z 2) (F32.of_Z 3) (F32.of_Z 4) (F32.of_Z 5)
    (F32.of_Z 6) k_mpu6050_ready.

(** The registries that calls of [pca9685_init] build from the empty
    list, whatever the environment answers; [num_boards] is a [uint8_t]. *)
Inductive reachable (hdr : pca9685_hal_h) : registry -> Prop :=
| reachable_empty : reachable hdr []
| reachable_init (env : environment) (reg : registry) (num : Z)
    (tr : list event) :
    reachable hdr reg ->
    0 <= num < 256 ->
    reachable hdr (snd (fst (pca9685_init hdr env reg num tr))).

(** [n - 1; ...; 1; 0]: the ids of a registry of [n] boards, head first. *)
Fixpoint countdown (n : nat) : list Z :=
  match n with
  | O => []
  | S n' => Z.of_nat n' :: countdown n'
  end.

(** What every reachable registry satisfies. *)
Definition registry_invariant (hdr : pca9685_hal_h) (reg : registry) : Prop :=
  board_ids reg = countdown (length reg) /\
  Forall (fun b =>
            board_state b = k_pca9685_ready hdr /\
            board_i2c_bus b
              = to_i2c_bus_t hdr (pca9685_i2c_address + board_id b) /\
            board_id b < num_boards b) reg.

(** The calls of [pca9685_write_channel] in program order. *)
Definition pca9685_channel_calls (hdr : pca9685_hal_h) (bus pulse channel : Z)
  : list call :=
  [ I2cWriteByte (to_uint8 (k_pca9685_channel0_on_l_cmd hdr + 4 * channel)) bus;
    I2cWriteByte (Z.land pulse 0xFF) bus;
    I2cWriteByte (Z.land (Z.shiftr pulse 8) 0xFF) bus ].

(** Three boards registered without a failure. *)
Definition three_boards : registry :=
  snd (fst (pca9685_init pca9685_example_h env_all_ok [] 3 [])).

(** The channels that a motor mask selects, as the loop of
    [pca9685_set_angle] meets them. *)
Fixpoint selected_channels (todo : nat) (channel motor_mask : Z) : list Z :=
  match todo with
  | O => []
  | S todo' =>
      if negb (Z.land motor_mask (Z.shiftl 1 channel) =? 0)
      then channel :: selected_channels todo' (channel + 1) motor_mask
      else selected_channels todo' (channel + 1) motor_mask
  end.

(** Is the call a write of the byte [v]? *)
Definition writes_byte (v : Z) (c : call) : bool :=
  match c with
  | I2cWriteByte data _ => data =? v
  | _ => false
  end.

(* ================================================================== *)
(** * Vocabulary for the further properties *)
(* ================================================================== *)

(** The value of a finite [float] times 2^149, an integer for every
    binary32 number (the least exponent is -149): the mantissa shifted
    left by [e + 149] bits, with the sign; 0 for infinities and NaN. *)
Definition F32_scaled (x : F32.float) : Z :=
  match x with
  | S754_finite s m e =>
      let a := Z.shiftl (Z.pos m) (e + 149) in if s then - a else a
  | _ => 0
  end.

Definition F32_is_finite (x : F32.float) : bool :=
  match x with
  | S754_zero _ | S754_finite _ _ _ => true
  | _ => false
  end.

(** The calls [cs] made one after another from the history [tr] until
    one fails: the status of the failing call, or [ESP_OK], and the
    history after. *)
Fixpoint run_calls (env : environment) (tr : list event) (cs : list call)
  : esp_err_t * list event :=
  match cs with
  | [] => (ESP_OK, tr)
  | c :: cs' =>
      let r := env tr c in
      if ok (status r) then run_calls env (tr ++ [(c, r)]) cs'
      else (status r, tr ++ [(c, r)])
  end.

(** The calls of [pca9685_init] for one new board [i], in program order. *)
Definition pca9685_board_calls (hdr : pca9685_hal_h) (i : Z) : list call :=
  let bus := to_i2c_bus_t hdr (pca9685_i2c_address + i) in
  [ Malloc;
    I2cInit pca9685_scl_io pca9685_sda_io pca9685_i2c_freq_hz bus;
    I2cWriteByte (Z.lor (k_pca9685_mode1_cmd hdr) (k_pca9685_sleep_cmd hdr)) bus;
    I2cWriteByte (k_pca9685_prescale_cmd hdr) bus;
    I2cWriteByte (priv_calculate_prescaler pca9685_default_pwm_freq) bus;
    I2cWriteByte (Z.lor (k_pca9685_mode1_cmd hdr) (k_pca9685_restart_cmd hdr))
      bus ].

(** Allocations that returned a board, and releases, in a history. *)
Definition is_allocation (e : event) : bool :=
  match fst e with
  | Malloc => ok (status (snd e))
  | _ => false
  end.

Definition is_release (e : event) : bool :=
  match fst e with
  | Free => true
  | _ => false
  end.

Definition count (p : event -> bool) (tr : list event) : nat :=
  length (filter p tr).

(** [n] turns of the loop of [mpu6050_tasks]. *)
Fixpoint mpu6050_tasks_turns (hdr : mpu6050_hal_h) (env : environment)
    (n : nat) (d : mpu6050_data_t) : M mpu6050_data_t :=
  match n with
  | O => ret d
  | S n' =>
      d' <- mpu6050_tasks_turn hdr env d ;;
      mpu6050_tasks_turns hdr env n' d'
  end.

(** The integers [lo, lo + 1, ..., lo + n - 1]. *)
Fixpoint Z_range (lo : Z) (n : nat) : list Z :=
  match n with
  | O => []
  | S n' => lo :: Z_range (lo + 1) n'
  end.

(** The channels 0 to 15 whose bit is set in a motor mask, ascending. *)
Definition masked_channels (motor_mask : Z) : list Z :=
  filter (Z.testbit motor_mask) (Z_range 0 16).

(** A pass over the integers [lo, ..., lo + n - 1]: [P z (g z)] holds at
    each, and the scaled values of [g] increase strictly from each to the
    next; [prev] is the scaled value before [lo], if any. *)
Fixpoint table_ok (P : Z -> F32.float -> bool) (g : Z -> F32.float)
    (lo : Z) (n : nat) (prev : option Z) : bool :=
  match n with
  | O => true
  | S n' =>
      let x := g lo in
      let s := F32_scaled x in
      P lo x
      && match prev with None => true | Some p => p <? s end
      && table_ok P g (lo + 1) n' (Some s)
  end.

(** The conversions of [mpu6050_read], as functions of the raw value. *)
Definition accel_of_raw (raw : Z) : F32.float :=
  F32.div (F32.of_Z raw) (F32.of_Z 2048).
Definition gyro_of_raw (raw : Z) : F32.float :=
  F32.div (F32.of_Z raw) (F32.lit 164 10).

(* ================================================================== *)
(** * Vocabulary for the rounding of the duty value *)
(* ================================================================== *)

(** What a shift record says about a number [Y / D] (twice the value in
    units of the current exponent): its integer part is [2 m + r], and the
    sticky bit tells whether anything is left below. *)
Definition represents (Y D : Z) (r : shr_record) : Prop :=
  Y / D = 2 * shr_m r + Z.b2z (shr_r r) /\
  shr_s r = negb (Y mod D =? 0).

(** The position of [t / d] in the unit interval. *)
Definition location_of (t d : Z) : location :=
  if t =? 0 then loc_Exact else loc_Inexact (2 * t ?= d).

(** The scaled values of binary32: [m * 2^(e + 149)] with a mantissa of at
    most 24 bits and an exponent of at least -149. *)
Definition representable (G : Z) : Prop :=
  exists m e, 0 <= m < 2 ^ 24 /\ -149 <= e /\ G = m * 2 ^ (e + 149).

(** Floats that are a zero, or positive and well formed. *)
Definition nonneg_valid (f : F32.float) : Prop :=
  (exists s, f = S754_zero s) \/
  exists m e, f = S754_finite false m e /\ bounded 24 128 m e = true.

(** [F] is a binary32 value nearest to [num / den] (all scaled by 2^149). *)
Definition nearest_to (num den F : Z) : Prop :=
  representable F /\
  forall G, representable G ->
    Z.abs (num - den * F) <= Z.abs (num - den * G).

(** The binary32 number whose encoding, sign bit clear, is [i]: eight
    bits of biased exponent above 23 bits of fraction. *)
Definition float_of_bits (i : Z) : F32.float :=
  let E := i / 8388608 in
  let frac := i mod 8388608 in
  if E =? 0 then
    match frac with
    | Z.pos p => S754_finite false p (-149)
    | _ => S754_zero false
    end
  else
    match 8388608 + frac with
    | Z.pos p => S754_finite false p (E - 150)
    | _ => S754_zero false
    end.

Definition bits_of_float (f : F32.float) : Z :=
  match f with
  | S754_finite false m e => (e + 149) * 8388608 + Z.pos m
  | _ => 0
  end.

(** The encoding of the first angle whose duty value reaches [k]: the
    quotient [180 k / 4095] in binary32, or the number after it. *)
Definition duty_threshold (k : Z) : Z :=
  let c := bits_of_float (F32.div (F32.of_Z (180 * k)) (F32.of_Z 4095)) in
  if k <=? pulse_length (float_of_bits c) then c else c + 1.

Definition nonneg_validb (f : F32.float) : bool :=
  match f with
  | S754_zero _ => true
  | S754_finite false m e => bounded 24 128 m e
  | _ => false
  end.

(** A well-formed angle of [[0, 180]]. *)
Definition angle_in_range (f : F32.float) : bool :=
  nonneg_validb f && (F32_scaled f <=? Z.shiftl 180 149).

(** The check behind the strict steps, for the duty value [j]: the number
    just below the threshold of [j] still has a duty value below [j], and
    0.044 degrees above it the threshold of [j + 1] is reached (for 4095:
    the end of the range is passed). *)
Definition duty_step_ok (j : Z) : bool :=
  let below := float_of_bits (duty_threshold j - 1) in
  let lower := if j =? 0 then 0 else F32_scaled below + 1 in
  let reach := 1000 * lower + Z.shiftl 44 149 in
  (if j =? 0 then true
   else angle_in_range below && (pulse_length below <? j))
  && (if j =? 4095 then 1000 * Z.shiftl 180 149 <? reach
      else
        let above := float_of_bits (duty_threshold (j + 1)) in
        angle_in_range above && (j <? pulse_length above)
        && (1000 * F32_scaled above <=? reach)).

(* ================================================================== *)
(** * Properties: statuses, runs and proof steps *)
(* ================================================================== *)

Lemma ok_true (r : esp_err_t) : ok r = true <-> r = ESP_OK.
Proof. unfold ok. apply Z.eqb_eq. Qed.

Lemma ok_false (r : esp_err_t) : ok r = false <-> r <> ESP_OK.
Proof. unfold ok. apply Z.eqb_neq. Qed.

Lemma succeeded_ok (e : event) : succeeded e <-> ok (status (snd e)) = true.
Proof. unfold succeeded. symmetry. apply ok_true. Qed.

Lemma not_succeeded_ok (e : event) :
  ~ succeeded e <-> ok (status (snd e)) = false.
Proof. unfold succeeded. symmetry. apply ok_false. Qed.

Lemma answered_app env cs1 cs2 : forall tr,
  answered env tr (cs1 ++ cs2) =
    answered env tr cs1 ++ answered env (tr ++ answered env tr cs1) cs2.
Proof.
  induction cs1 as [|c cs1 IH]; intro tr; cbn [answered app].
  - rewrite app_nil_r. reflexivity.
  - rewrite IH. rewrite <- app_assoc. reflexivity.
Qed.

(** A sequence of calls either succeeds as a whole or has a first call
    that fails. *)
Lemma answered_first_failure env cs : forall tr,
  Forall succeeded (answered env tr cs) \/
  exists k, (k < length cs)%nat /\
    Forall succeeded (firstn k (answered env tr (firstn (S k) cs))) /\
    ~ succeeded (nth k (answered env tr (firstn (S k) cs)) no_event).
Proof.
  induction cs as [|c cs IH]; intro tr.
  - left. constructor.
  - cbn [answered].
    destruct (Z.eq_dec (status (env tr c)) ESP_OK) as [Hok | Hko].
    + destruct (IH (tr ++ [(c, env tr c)]))
        as [Hall | (k & Hk & Hpre & Hfail)].
      * left. constructor; assumption.
      * right. exists (S k). split; [cbn [length]; lia|].
        change (firstn (S (S k)) (c :: cs)) with (c :: firstn (S k) cs).
        cbn [answered firstn nth]. split; [constructor|]; assumption.
    + right. exists 0%nat. split; [cbn [length]; lia|].
      cbn [firstn answered nth]. split; [constructor | exact Hko].
Qed.

Lemma in_Z_range n : forall lo z,
  In z (Z_range lo n) <-> lo <= z < lo + Z.of_nat n.
Proof.
  induction n as [|n IH]; intros lo z; cbn [Z_range In].
  - lia.
  - rewrite IH. lia.
Qed.

(** A check run over a range holds at each of its integers. *)
Lemma forallb_Z_range (f : Z -> bool) lo n :
  forallb f (Z_range lo n) = true ->
  forall z, lo <= z < lo + Z.of_nat n -> f z = true.
Proof.
  intros H z Hz. rewrite forallb_forall in H. apply H. apply in_Z_range. exact Hz.
Qed.

Ltac unfold_port :=
  unfold mpu6050_write, priv_i2c_init, priv_i2c_write_reg_byte,
    priv_i2c_write_byte, priv_i2c_read_reg_bytes, malloc, free,
    bind, ret, invoke.

(** Facts about events become facts about the statuses the code tests. *)
Ltac status_facts :=
  repeat match goal with
  | H : Forall succeeded (_ :: _) |- _ =>
      let H1 := fresh "Hok" in
      apply Forall_cons_iff in H; destruct H as [H1 H];
      apply succeeded_ok in H1; cbn [snd] in H1
  | H : Forall succeeded [] |- _ => clear H
  | H : ~ succeeded _ |- _ => apply not_succeeded_ok in H; cbn [snd] in H
  | H : succeeded _ |- _ => apply succeeded_ok in H; cbn [snd] in H
  end.

Ltac use_status :=
  repeat match goal with
  | H : ok ?x = _ |- context [ok ?x] => rewrite H; cbn [negb orb fst snd]
  end.

(** Name the reply to the next call and split on its status. *)
Ltac branch env :=
  match goal with
  | |- context [env ?t ?c] =>
      lazymatch t with
      | context [env] => fail
      | _ => let r := fresh "r" in set (r := env t c) in *
      end
  end;
  match goal with
  | r := env _ _ |- _ =>
      lazymatch goal with
      | |- context [if negb (ok (status r)) then _ else _] =>
          let E := fresh "E" in
          destruct (ok (status r)) eqn:E; cbn [negb fst snd orb]
      end
  end.

(* ================================================================== *)
(** * mpu6050_hal: initialization *)
(* ================================================================== *)

Ltac run_init :=
  cbn [answered firstn mpu6050_init_calls nth last] in *;
  status_facts;
  unfold mpu6050_init; unfold_port; cbn [fst snd];
  use_status.

(** When call [k] of the sequence is the first to fail, [mpu6050_init]
    stops there. *)
Lemma mpu6050_init_fails_at hdr env d tr (k : nat) :
  (k < 9)%nat ->
  let evs := answered env tr (firstn (S k) (mpu6050_init_calls hdr)) in
  Forall succeeded (firstn k evs) ->
  ~ succeeded (nth k evs no_event) ->
  mpu6050_init hdr env d tr =
    (status (snd (nth k evs no_event)),
     set_state (mpu6050_init_defaults d) (mpu6050_init_failure_state k),
     tr ++ evs).
Proof.
  intros Hk evs Hpre Hfail. subst evs.
  do 9 (destruct k as [|k];
        [ run_init; rewrite <- ?app_assoc; reflexivity | ]).
  lia.
Qed.

(** When the nine calls succeed, the byte read decides between ready and
    the state set at the head of the function. *)
Lemma mpu6050_init_all_succeed hdr env d tr :
  let evs := answered env tr (mpu6050_init_calls hdr) in
  Forall succeeded evs ->
  mpu6050_init hdr env d tr =
    (ESP_OK,
     if first_byte (last evs no_event) =? k_mpu6050_who_am_i_response hdr
     then set_state (mpu6050_init_defaults d) k_mpu6050_ready
     else mpu6050_init_defaults d,
     tr ++ evs).
Proof.
  intros evs Hall. subst evs.
  run_init. unfold first_byte. cbn [snd].
  match goal with
  | H : ok ?x = true |- context [(?x, _)] => apply ok_true in H; rewrite H
  end.
  rewrite <- ?app_assoc. cbn [app].
  destruct (_ =? _); reflexivity.
Qed.

Lemma mpu6050_init_device hdr env d tr :
  exists s,
    snd (fst (mpu6050_init hdr env d tr))
      = set_state (mpu6050_init_defaults d) s.
Proof.
  destruct (answered_first_failure env (mpu6050_init_calls hdr) tr)
    as [Hall | (k & Hk & Hpre & Hfail)].
  - rewrite (mpu6050_init_all_succeed _ _ _ _ Hall). cbn [fst snd].
    destruct (_ =? _); [eexists; reflexivity|].
    exists k_mpu6050_uninitialized. reflexivity.
  - rewrite (mpu6050_init_fails_at _ _ _ _ _ Hk Hpre Hfail).
    eexists; reflexivity.
Qed.

(** Every run of [mpu6050_init] starts with the driver install. *)
Lemma mpu6050_init_first_call hdr env d tr :
  let install :=
    I2cInit mpu6050_scl_io mpu6050_sda_io mpu6050_i2c_freq_hz mpu6050_i2c_bus in
  exists rest,
    snd (mpu6050_init hdr env d tr) = tr ++ (install, env tr install) :: rest.
Proof.
  intro install.
  destruct (answered_first_failure env (mpu6050_init_calls hdr) tr)
    as [Hall | (k & Hk & Hpre & Hfail)].
  - rewrite (mpu6050_init_all_succeed hdr env d tr Hall).
    eexists. reflexivity.
  - rewrite (mpu6050_init_fails_at hdr env d tr k Hk Hpre Hfail).
    eexists. reflexivity.
Qed.

(** C5, as the code has it.  In every run of [mpu6050_init], the first
    bus call that fails ends the run: the calls after it are not made and
    its status, which is not [ESP_OK], is returned.  The state in which
    the run leaves the structure is [power_on_error] for the power-on and
    the wake write, [reset_error] for the reset write, and the
    [uninitialized] set at the head of the function for the driver
    install, the sample rate, the filter, the two range writes and the
    identity read: the state is an error variant exactly for the calls 1
    to 3 of the sequence.  A run in which every call succeeds but the
    identity byte differs makes all nine calls and also leaves
    [uninitialized]. *)
Theorem mpu6050_init_short_circuit hdr env d tr :
  (forall k : nat,
     (k < 9)%nat ->
     let evs := answered env tr (firstn (S k) (mpu6050_init_calls hdr)) in
     Forall succeeded (firstn k evs) ->
     ~ succeeded (nth k evs no_event) ->
     let run := mpu6050_init hdr env d tr in
     fst (fst run) = status (snd (nth k evs no_event)) /\
     fst (fst run) <> ESP_OK /\
     snd run = tr ++ evs /\
     state (snd (fst run)) =
       match k with
       | 1%nat | 3%nat => k_mpu6050_power_on_error
       | 2%nat => k_mpu6050_reset_error
       | _ => k_mpu6050_uninitialized
       end /\
     (is_error_variant (state (snd (fst run))) = true <-> (1 <= k <= 3)%nat)) /\
  (let evs := answered env tr (mpu6050_init_calls hdr) in
   Forall succeeded evs ->
   first_byte (last evs no_event) <> k_mpu6050_who_am_i_response hdr ->
   state (snd (fst (mpu6050_init hdr env d tr))) = k_mpu6050_uninitialized /\
   snd (mpu6050_init hdr env d tr) = tr ++ evs).
Proof.
  split.
  - intros k Hk evs Hpre Hfail run. subst run.
    rewrite (mpu6050_init_fails_at hdr env d tr k Hk Hpre Hfail).
    fold evs. cbn [fst snd].
    split; [reflexivity|]. split; [exact Hfail|]. split; [reflexivity|].
    do 9 (destruct k as [|k];
          [cbn; split; [reflexivity | split; [try discriminate; intros _ | intro]; lia]|]).
    lia.
  - intros evs Hall Hdiff.
    rewrite (mpu6050_init_all_succeed hdr env d tr Hall). cbn [fst snd].
    apply Z.eqb_neq in Hdiff. fold evs. rewrite Hdiff. split; reflexivity.
Qed.

(** Failures of the power-on, the reset, the wake and the sample rate
    write, and a run with a wrong identity byte. *)
Lemma mpu6050_init_short_circuit_witness :
  let run k := mpu6050_init mpu6050_example_h (env_fail_after k 0)
                 mpu6050_blank [] in
  state (snd (fst (run 1%nat))) = k_mpu6050_power_on_error /\
  state (snd (fst (run 2%nat))) = k_mpu6050_reset_error /\
  state (snd (fst (run 3%nat))) = k_mpu6050_power_on_error /\
  state (snd (fst (run 4%nat))) = k_mpu6050_uninitialized /\
  length (snd (run 4%nat)) = 5%nat /\
  state (snd (fst (mpu6050_init mpu6050_example_h (env_reads 0x12)
                     mpu6050_blank [])))
    = k_mpu6050_uninitialized.
Proof.
  cbv zeta.
  pose proof (fun k =>
    proj1 (mpu6050_init_short_circuit mpu6050_example_h
             (env_fail_after k 0) mpu6050_blank []) k) as H.
  cbv zeta in H.
  split; [|split; [|split; [|split; [|split]]]].
  - apply (H 1%nat); [lia | vm_compute; repeat constructor
                     | vm_compute; discriminate].
  - apply (H 2%nat); [lia | vm_compute; repeat constructor
                     | vm_compute; discriminate].
  - apply (H 3%nat); [lia | vm_compute; repeat constructor
                     | vm_compute; discriminate].
  - apply (H 4%nat); [lia | vm_compute; repeat constructor
                     | vm_compute; discriminate].
  - destruct (H 4%nat) as (_ & _ & Htr & _);
      [lia | vm_compute; repeat constructor | vm_compute; discriminate |].
    rewrite Htr. reflexivity.
  - apply (proj2 (mpu6050_init_short_circuit mpu6050_example_h
                    (env_reads 0x12) mpu6050_blank [])).
    + vm_compute. repeat constructor.
    + vm_compute. discriminate.
Defined.

(** C5 as stated fails: the sample rate write is the first call to fail,
    the later calls are skipped, and the state is no error variant but
    [uninitialized]. *)
Lemma mpu6050_init_sample_rate_failure_keeps_uninitialized :
  let run := mpu6050_init mpu6050_example_h (env_fail_after 4 0)
               mpu6050_blank [] in
  map fst (snd run) = firstn 5 (mpu6050_init_calls mpu6050_example_h) /\
  map (fun e => status (snd e)) (snd run)
    = [ESP_OK; ESP_OK; ESP_OK; ESP_OK; ESP_FAIL] /\
  fst (fst run) = ESP_FAIL /\
  state (snd (fst run)) = k_mpu6050_uninitialized /\
  ~ is_error_variant (state (snd (fst run))) = true.
Proof. vm_compute. repeat split; discriminate. Qed.

(** C1, as the code has it.  When the nine calls of [mpu6050_init]
    succeed and the byte read from the identity register differs from the
    expected one, the function does not declare the device ready: the
    state stays at the [uninitialized] set at its head, which is no error
    variant, and no call follows the identity read. *)
Theorem mpu6050_init_identity_mismatch hdr env d tr :
  let evs := answered env tr (mpu6050_init_calls hdr) in
  Forall succeeded evs ->
  first_byte (last evs no_event) <> k_mpu6050_who_am_i_response hdr ->
  let d' := snd (fst (mpu6050_init hdr env d tr)) in
  state d' = k_mpu6050_uninitialized /\
  state d' <> k_mpu6050_ready /\
  is_error_variant (state d') = false /\
  snd (mpu6050_init hdr env d tr) = tr ++ evs.
Proof.
  intros evs Hall Hdiff d'. subst d'.
  rewrite (mpu6050_init_all_succeed hdr env d tr Hall). cbn [fst snd].
  apply Z.eqb_neq in Hdiff. fold evs. rewrite Hdiff. cbn.
  repeat split; [discriminate].
Qed.

Lemma mpu6050_init_identity_mismatch_witness :
  state (snd (fst (mpu6050_init mpu6050_example_h (env_reads 0x12)
                     mpu6050_blank [])))
    = k_mpu6050_uninitialized.
Proof.
  apply (mpu6050_init_identity_mismatch mpu6050_example_h (env_reads 0x12)
           mpu6050_blank []).
  - vm_compute. repeat constructor.
  - vm_compute. discriminate.
Defined.

(** C1 as stated fails: every call succeeds, the identity register reads
    0x12 where 0x68 is expected, and the run neither reports a failure nor
    records an error variant. *)
Lemma mpu6050_init_identity_mismatch_returns_ok :
  let env := env_reads 0x12 in
  let evs := answered env [] (mpu6050_init_calls mpu6050_example_h) in
  let run := mpu6050_init mpu6050_example_h env mpu6050_blank [] in
  Forall succeeded evs /\
  first_byte (last evs no_event) = 0x12 /\
  k_mpu6050_who_am_i_response mpu6050_example_h = 0x68 /\
  snd run = evs /\
  fst (fst run) = ESP_OK /\
  ~ (fst (fst run) <> ESP_OK /\
     is_error_variant (state (snd (fst run))) = true).
Proof.
  cbv zeta. split; [vm_compute; repeat constructor|].
  split; [reflexivity|]. split; [reflexivity|]. split; [reflexivity|].
  split; [reflexivity|].
  vm_compute. intros [H _]. apply H. reflexivity.
Qed.

(* ================================================================== *)
(** * mpu6050_hal: recovery and read *)
(* ================================================================== *)

(** C10.  Every call of [mpu6050_init] zeroes the six reading fields and
    sets [uninitialized] before its first bus call: the outcome does not
    depend on what the structure held, the reading is zero when the call
    returns, and when already the driver install fails the structure holds
    the constants, zeros and [uninitialized] after that single call.  A
    recovery that finds the error bits set goes through the same function,
    so the reading is zero afterwards, whether or not the attempt
    succeeds. *)
Theorem mpu6050_init_erases_reading hdr env d tr :
  let install :=
    I2cInit mpu6050_scl_io mpu6050_sda_io mpu6050_i2c_freq_hz mpu6050_i2c_bus in
  (forall d2, mpu6050_init hdr env d tr = mpu6050_init hdr env d2 tr) /\
  reading (snd (fst (mpu6050_init hdr env d tr))) = zero_reading /\
  (~ succeeded (install, env tr install) ->
   mpu6050_init hdr env d tr =
     (status (env tr install),
      mkMpu6050Data mpu6050_i2c_address mpu6050_i2c_bus
        F32.zero F32.zero F32.zero F32.zero F32.zero F32.zero
        k_mpu6050_uninitialized,
      tr ++ [(install, env tr install)])) /\
  (mpu6050_error_bits hdr (state d) <> 0 ->
   reading (fst (mpu6050_reset_on_error hdr env d tr)) = zero_reading /\
   exists rest,
     snd (mpu6050_reset_on_error hdr env d tr)
       = tr ++ (install, env tr install) :: rest).
Proof.
  intro install. split; [|split; [|split]].
  - intro d2. reflexivity.
  - destruct (mpu6050_init_device hdr env d tr) as [s Hs]. rewrite Hs.
    reflexivity.
  - intro Hfail.
    exact (mpu6050_init_fails_at hdr env d tr 0 ltac:(lia)
             (Forall_nil _) Hfail).
  - intro Hbits. unfold mpu6050_reset_on_error.
    apply Z.eqb_neq in Hbits. rewrite Hbits. cbn [negb].
    unfold bind, ret.
    destruct (mpu6050_init_device hdr env d tr) as [s Hs].
    destruct (mpu6050_init_first_call hdr env d tr) as [rest Hrest].
    destruct (mpu6050_init hdr env d tr) as [[r d'] tr'].
    cbn [fst snd] in *. subst d' tr'.
    split; [|exists rest]; destruct (ok r); reflexivity.
Qed.

(** A device that holds a reading; the driver install fails, in
    [mpu6050_init] and in the recovery that calls it. *)
Lemma mpu6050_init_erases_reading_witness :
  reading mpu6050_failed_read <> zero_reading /\
  mpu6050_init mpu6050_example_h env_all_fail mpu6050_failed_read [] =
    (ESP_FAIL,
     mkMpu6050Data mpu6050_i2c_address mpu6050_i2c_bus
       F32.zero F32.zero F32.zero F32.zero F32.zero F32.zero
       k_mpu6050_uninitialized,
     [(I2cInit mpu6050_scl_io mpu6050_sda_io mpu6050_i2c_freq_hz
         mpu6050_i2c_bus, mkReply ESP_FAIL [])]) /\
  reading (fst (mpu6050_reset_on_error mpu6050_example_h env_all_fail
                  mpu6050_failed_read [])) = zero_reading.
Proof.
  split; [vm_compute; discriminate|]. split.
  - apply (proj1 (proj2 (proj2 (mpu6050_init_erases_reading
             mpu6050_example_h env_all_fail mpu6050_failed_read [])))).
    vm_compute. discriminate.
  - apply (proj2 (proj2 (proj2 (mpu6050_init_erases_reading
             mpu6050_example_h env_all_fail mpu6050_failed_read [])))).
    vm_compute. discriminate.
Defined.

(** C6, as the code has it.  A recovery that finds the error bits set
    and in whose call of [mpu6050_init] a bus call fails sets the state to
    [reset_error], whatever error variant the device was in; the reading
    is zeroed and address and bus are the constants.  The outcome is the
    same for every structure with the error bits set: the recovery
    consults no retry count, interval or timestamp, and the calls it makes
    are those of [mpu6050_init]. *)
Theorem mpu6050_failed_recovery_state hdr env d tr :
  mpu6050_error_bits hdr (state d) <> 0 ->
  ~ Forall succeeded (answered env tr (mpu6050_init_calls hdr)) ->
  let run := mpu6050_reset_on_error hdr env d tr in
  state (fst run) = k_mpu6050_reset_error /\
  reading (fst run) = zero_reading /\
  i2c_address (fst run) = mpu6050_i2c_address /\
  i2c_bus (fst run) = mpu6050_i2c_bus /\
  fst (fst (mpu6050_init hdr env d tr)) <> ESP_OK /\
  snd run = snd (mpu6050_init hdr env d tr) /\
  (forall d2, mpu6050_error_bits hdr (state d2) <> 0 ->
     mpu6050_reset_on_error hdr env d2 tr = run).
Proof.
  intros Hbits Hfail run. subst run.
  assert (Hrun : forall d2, mpu6050_error_bits hdr (state d2) <> 0 ->
            mpu6050_reset_on_error hdr env d2 tr =
              (let rd := mpu6050_init hdr env d tr in
               (set_state (snd (fst rd))
                  (if ok (fst (fst rd)) then k_mpu6050_ready
                   else k_mpu6050_reset_error), snd rd))).
  { intros d2 H2. unfold mpu6050_reset_on_error.
    apply Z.eqb_neq in H2. rewrite H2. cbn [negb]. unfold bind, ret.
    change (mpu6050_init hdr env d2 tr) with (mpu6050_init hdr env d tr).
    destruct (mpu6050_init hdr env d tr) as [[r d'] tr']. cbn [fst snd].
    destruct (ok r); reflexivity. }
  destruct (answered_first_failure env (mpu6050_init_calls hdr) tr)
    as [Hall | (k & Hk & Hpre & Hko)]; [contradiction|].
  pose proof (mpu6050_init_fails_at hdr env d tr k Hk Hpre Hko) as Hinit.
  pose proof (proj1 (not_succeeded_ok _) Hko) as Hok.
  assert (Hd : mpu6050_reset_on_error hdr env d tr =
            (set_state
               (set_state (mpu6050_init_defaults d)
                  (mpu6050_init_failure_state k))
               k_mpu6050_reset_error,
             snd (mpu6050_init hdr env d tr))).
  { rewrite (Hrun d Hbits), Hinit. cbv zeta. cbn [fst snd].
    rewrite Hok. reflexivity. }
  rewrite Hd. cbn [fst snd].
  split; [reflexivity|]. split; [reflexivity|]. split; [reflexivity|].
  split; [reflexivity|]. split; [|split; [reflexivity|]].
  - rewrite Hinit. cbn [fst]. apply ok_false. exact Hok.
  - intros d2 H2. rewrite <- Hd. rewrite (Hrun d2 H2), (Hrun d Hbits).
    reflexivity.
Qed.

(** The driver install fails (device in [error]); and the reset write
    fails after two successes (device in [power_on_error]). *)
Lemma mpu6050_failed_recovery_state_witness :
  state (fst (mpu6050_reset_on_error mpu6050_example_h env_all_fail
                mpu6050_failed_read [])) = k_mpu6050_reset_error /\
  state (fst (mpu6050_reset_on_error mpu6050_example_h (env_fail_after 2 0)
                (set_state mpu6050_failed_read k_mpu6050_power_on_error) []))
    = k_mpu6050_reset_error.
Proof.
  split.
  - apply (mpu6050_failed_recovery_state mpu6050_example_h env_all_fail
             mpu6050_failed_read []).
    + vm_compute. discriminate.
    + vm_compute. intro H. inversion H as [|? ? Hhd _]. discriminate Hhd.
  - apply (mpu6050_failed_recovery_state mpu6050_example_h
             (env_fail_after 2 0)
             (set_state mpu6050_failed_read k_mpu6050_power_on_error) []).
    + vm_compute. discriminate.
    + vm_compute. intro H.
      inversion H as [|? ? _ Ha]. inversion Ha as [|? ? _ Hb].
      inversion Hb as [|? ? Hhd _]. discriminate Hhd.
Defined.

(** C6 as stated fails: a device in the generic [error] of a failed read,
    whose re-initialization fails, ends in [reset_error]. *)
Lemma mpu6050_failed_recovery_changes_error_variant :
  let d := mpu6050_failed_read in
  let run := mpu6050_reset_on_error mpu6050_example_h env_all_fail d [] in
  is_error_variant (state d) = true /\
  mpu6050_error_bits mpu6050_example_h (state d) <> 0 /\
  fst (fst (mpu6050_init mpu6050_example_h env_all_fail d [])) <> ESP_OK /\
  state d = k_mpu6050_error /\
  state (fst run) = k_mpu6050_reset_error /\
  ~ state (fst run) = state d.
Proof. vm_compute. repeat split; discriminate. Qed.

(** C2, as the code has it.  [mpu6050_reset_on_error] consults no clock
    and no retry interval.  Whenever the state has a bit in common with
    the code of [k_mpu6050_error], the invocation attempts the
    re-initialization at once: the driver install of [mpu6050_init] is
    the next bus call, the invocation is never without effect, and the
    state afterwards is [ready] or [reset_error].  When the state has no
    such bit the invocation changes nothing and makes no call. *)
Theorem mpu6050_recovery_has_no_time_gate hdr env d tr :
  let install :=
    I2cInit mpu6050_scl_io mpu6050_sda_io mpu6050_i2c_freq_hz mpu6050_i2c_bus in
  (mpu6050_error_bits hdr (state d) <> 0 ->
   (exists rest,
      snd (mpu6050_reset_on_error hdr env d tr)
        = tr ++ (install, env tr install) :: rest) /\
   mpu6050_reset_on_error hdr env d tr <> (d, tr) /\
   (state (fst (mpu6050_reset_on_error hdr env d tr)) = k_mpu6050_ready \/
    state (fst (mpu6050_reset_on_error hdr env d tr))
      = k_mpu6050_reset_error)) /\
  (mpu6050_error_bits hdr (state d) = 0 ->
   mpu6050_reset_on_error hdr env d tr = (d, tr)).
Proof.
  intro install. split.
  - intro Hbits.
    assert (Htr : exists rest,
      snd (mpu6050_reset_on_error hdr env d tr)
        = tr ++ (install, env tr install) :: rest).
    { unfold mpu6050_reset_on_error.
      apply Z.eqb_neq in Hbits. rewrite Hbits. cbn [negb].
      unfold bind, ret.
      destruct (mpu6050_init_first_call hdr env d tr) as [rest Hrest].
      destruct (mpu6050_init hdr env d tr) as [[r d'] tr'].
      cbn [fst snd] in *. subst tr'.
      exists rest. destruct (ok r); reflexivity. }
    split; [exact Htr|]. split.
    + destruct Htr as [rest Hrest]. intro Heq. rewrite Heq in Hrest.
      cbn [snd] in Hrest.
      apply (f_equal (@length event)) in Hrest.
      rewrite length_app in Hrest. cbn [length] in Hrest. lia.
    + unfold mpu6050_reset_on_error.
      apply Z.eqb_neq in Hbits. rewrite Hbits. cbn [negb].
      unfold bind, ret.
      destruct (mpu6050_init hdr env d tr) as [[r d'] tr']. cbn [fst snd].
      destruct (ok r); [left | right]; reflexivity.
  - intro Hbits. unfold mpu6050_reset_on_error.
    rewrite Hbits. reflexivity.
Qed.

Lemma mpu6050_recovery_has_no_time_gate_witness :
  mpu6050_reset_on_error mpu6050_example_h env_all_fail mpu6050_failed_read []
    <> (mpu6050_failed_read, []) /\
  mpu6050_reset_on_error mpu6050_example_h env_all_fail mpu6050_ready_device []
    = (mpu6050_ready_device, []).
Proof.
  split.
  - apply (proj1 (mpu6050_recovery_has_no_time_gate mpu6050_example_h
                    env_all_fail mpu6050_failed_read [])).
    vm_compute. discriminate.
  - apply (proj2 (mpu6050_recovery_has_no_time_gate mpu6050_example_h
                    env_all_fail mpu6050_ready_device [])).
    reflexivity.
Defined.

(** C2 as stated fails.  A ready device whose block read fails enters
    [error], and the recovery invoked in the same turn of the task loop,
    with no tick elapsed since the failure, already makes the driver
    install call of a new initialization attempt.  A second recovery
    invocation right after the first makes the call again: neither is
    without effect. *)
Lemma mpu6050_recovery_back_to_back_attempts :
  let h := mpu6050_example_h in
  let install :=
    I2cInit mpu6050_scl_io mpu6050_sda_io mpu6050_i2c_freq_hz mpu6050_i2c_bus in
  let turn := mpu6050_tasks_turn h env_all_fail mpu6050_ready_device [] in
  let d := mpu6050_failed_read in
  let first := mpu6050_reset_on_error h env_all_fail d [] in
  let second := mpu6050_reset_on_error h env_all_fail (fst first) (snd first) in
  map fst (snd turn)
    = [I2cReadRegBytes 0x3B 6 mpu6050_i2c_bus mpu6050_i2c_address; install] /\
  state (fst turn) = k_mpu6050_reset_error /\
  is_error_variant (state d) = true /\
  is_error_variant (state (fst first)) = true /\
  map fst (snd first) = [install] /\
  map fst (snd second) = [install; install] /\
  ~ first = (d, []) /\
  ~ second = first.
Proof. vm_compute. repeat split; discriminate. Qed.

Lemma to_int16_range (z : Z) : -32768 <= to_int16 z <= 32767.
Proof.
  unfold to_int16. cbv zeta.
  pose proof (Z.mod_pos_bound z 65536 ltac:(lia)).
  destruct (z mod 65536 <? 32768) eqn:E; lia.
Qed.

Lemma to_uint8_range (z : Z) : 0 <= to_uint8 z < 256.
Proof. unfold to_uint8. apply Z.mod_pos_bound. lia. Qed.

Lemma buffer_byte_range (bs : list Z) (i : nat) :
  0 <= nth i (map to_uint8 bs) 0 < 256.
Proof.
  destruct (Nat.lt_ge_cases i (length bs)) as [Hlt | Hge].
  - rewrite (nth_indep _ 0 (to_uint8 0)) by (rewrite length_map; exact Hlt).
    rewrite map_nth. apply to_uint8_range.
  - rewrite nth_overflow by (rewrite length_map; exact Hge). lia.
Qed.

Lemma raw16_check :
  forallb (fun hi =>
    forallb (fun lo =>
      raw16 [hi; lo] 0
        =? (if hi <? 128 then 256 * hi + lo else 256 * hi + lo - 65536))
      (Z_range 0 (Z.to_nat 256)))
    (Z_range 0 (Z.to_nat 256)) = true.
Proof. vm_cast_no_check (eq_refl true). Qed.

Lemma buffer_bytes (e : event) : Forall (fun z => 0 <= z < 256) (buffer e).
Proof.
  unfold buffer. apply Forall_forall. intros z Hz.
  apply in_map_iff in Hz. destruct Hz as (b & <- & _). apply to_uint8_range.
Qed.

(** The raw value of two bytes, as [mpu6050_read] forms it. *)
Lemma raw16_bytes (hi lo : Z) :
  0 <= hi < 256 -> 0 <= lo < 256 ->
  to_int16 (Z.lor (Z.shiftl hi 8) lo) = int16_of_bytes hi lo.
Proof.
  intros Hhi Hlo.
  pose proof (forallb_Z_range _ 0 (Z.to_nat 256) raw16_check hi ltac:(lia)) as H.
  cbv beta in H.
  pose proof (forallb_Z_range _ 0 (Z.to_nat 256) H lo ltac:(lia)) as H'.
  cbv beta in H'. apply Z.eqb_eq in H'. exact H'.
Qed.

(** C4.  [mpu6050_read] on a structure [d].  When both block reads
    succeed and have filled their six-byte buffers, the state becomes
    [data_updated] and each of the six fields is the 16-bit big-endian
    two's complement value of its two bytes of the buffers just read,
    divided by the sensitivity (2048 LSB/g, 16.4 LSB/(deg/s)).  When a
    block read fails the read stops at it, the state becomes [error] and
    the six fields keep their values, also when the first block had
    already been read.  Address and bus stay as they were. *)
Theorem mpu6050_read_all_or_nothing hdr env d tr :
  let evs := answered env tr (mpu6050_read_calls hdr d) in
  let run := mpu6050_read hdr env (Some d) tr in
  (forall a0 a1 a2 a3 a4 a5 g0 g1 g2 g3 g4 g5 : Z,
     Forall succeeded evs ->
     buffer (nth 0 evs no_event) = [a0; a1; a2; a3; a4; a5] ->
     buffer (nth 1 evs no_event) = [g0; g1; g2; g3; g4; g5] ->
     exists d',
       run = (Some d', tr ++ evs) /\
       state d' = k_mpu6050_data_updated /\
       accel_x d' = F32.div (F32.of_Z (int16_of_bytes a0 a1)) (F32.of_Z 2048) /\
       accel_y d' = F32.div (F32.of_Z (int16_of_bytes a2 a3)) (F32.of_Z 2048) /\
       accel_z d' = F32.div (F32.of_Z (int16_of_bytes a4 a5)) (F32.of_Z 2048) /\
       gyro_x d' = F32.div (F32.of_Z (int16_of_bytes g0 g1)) (F32.lit 164 10) /\
       gyro_y d' = F32.div (F32.of_Z (int16_of_bytes g2 g3)) (F32.lit 164 10) /\
       gyro_z d' = F32.div (F32.of_Z (int16_of_bytes g4 g5)) (F32.lit 164 10) /\
       i2c_address d' = i2c_address d /\ i2c_bus d' = i2c_bus d) /\
  (~ Forall succeeded evs ->
     exists (n : nat) d',
       (1 <= n <= 2)%nat /\
       run = (Some d', tr ++ firstn n evs) /\
       Forall succeeded (firstn (n - 1) evs) /\
       ~ succeeded (nth (n - 1) evs no_event) /\
       state d' = k_mpu6050_error /\
       reading d' = reading d /\
       i2c_address d' = i2c_address d /\ i2c_bus d' = i2c_bus d).
Proof.
  intros evs run. subst evs run.
  cbn [answered mpu6050_read_calls nth firstn].
  unfold mpu6050_read. unfold_port. cbn [fst snd].
  split.
  - intros a0 a1 a2 a3 a4 a5 g0 g1 g2 g3 g4 g5 Hall Ha Hg.
    match type of Ha with buffer ?e = _ =>
      pose proof (buffer_bytes e) as Hra; rewrite Ha in Hra end.
    match type of Hg with buffer ?e = _ =>
      pose proof (buffer_bytes e) as Hrg; rewrite Hg in Hrg end.
    unfold buffer in Ha, Hg. cbn [snd] in Ha, Hg.
    status_facts. use_status. rewrite Ha, Hg.
    repeat match goal with
    | H : Forall _ (_ :: _) |- _ =>
        let H1 := fresh "Hb" in
        apply Forall_cons_iff in H; destruct H as [H1 H]
    end.
    eexists. split; [rewrite <- app_assoc; reflexivity|].
    cbn [state accel_x accel_y accel_z gyro_x gyro_y gyro_z
         i2c_address i2c_bus].
    unfold raw16. cbn [nth].
    rewrite !raw16_bytes by assumption.
    repeat split.
  - intro Hsome.
    match goal with
    | |- context [if negb (ok (status ?ra)) then _ else _] =>
        destruct (ok (status ra)) eqn:Ha; cbn [negb]
    end.
    + match goal with
      | |- context [if negb (ok (status ?rg)) then _ else _] =>
          destruct (ok (status rg)) eqn:Hg; cbn [negb]
      end.
      * elim Hsome. repeat constructor; apply succeeded_ok; assumption.
      * exists 2%nat. eexists. split; [lia|]. cbn [firstn last Nat.sub nth].
        split; [rewrite <- app_assoc; reflexivity|].
        split; [repeat constructor; apply succeeded_ok; exact Ha|].
        split; [apply not_succeeded_ok; exact Hg|].
        repeat split.
    + exists 1%nat. eexists. split; [lia|]. cbn [firstn last Nat.sub nth].
      split; [reflexivity|]. split; [constructor|].
      split; [apply not_succeeded_ok; exact Ha|].
      repeat split.
Qed.

(** A read of the bytes 12 34 FF FE 80 00 in both blocks; and a read
    whose second block fails, after the first has delivered its bytes. *)
Lemma mpu6050_read_all_or_nothing_witness :
  (exists d',
     fst (mpu6050_read mpu6050_example_h
            (env_reads_bytes [0x12; 0x34; 0xFF; 0xFE; 0x80; 0x00])
            (Some mpu6050_ready_device) []) = Some d' /\
     state d' = k_mpu6050_data_updated /\
     accel_x d' = F32.div (F32.of_Z 0x1234) (F32.of_Z 2048) /\
     accel_y d' = F32.div (F32.of_Z (-2)) (F32.of_Z 2048) /\
     accel_z d' = F32.div (F32.of_Z (-32768)) (F32.of_Z 2048)) /\
  (exists d',
     fst (mpu6050_read mpu6050_example_h (env_fail_after 1 0x12)
            (Some mpu6050_ready_device) []) = Some d' /\
     state d' = k_mpu6050_error /\
     reading d' = reading mpu6050_ready_device).
Proof.
  split.
  - destruct (proj1 (mpu6050_read_all_or_nothing mpu6050_example_h
                (env_reads_bytes [0x12; 0x34; 0xFF; 0xFE; 0x80; 0x00])
                mpu6050_ready_device [])
                0x12 0x34 0xFF 0xFE 0x80 0x00 0x12 0x34 0xFF 0xFE 0x80 0x00)
      as (d' & Hrun & Hst & Hx & Hy & Hz & _).
    + vm_compute. repeat constructor.
    + reflexivity.
    + reflexivity.
    + exists d'. rewrite Hrun. repeat split; assumption.
  - destruct (proj2 (mpu6050_read_all_or_nothing mpu6050_example_h
                (env_fail_after 1 0x12) mpu6050_ready_device []))
      as (n & d' & _ & Hrun & _ & _ & Hst & Hrd & _).
    + vm_compute. intro H. inversion H as [|? ? _ Ha].
      inversion Ha as [|? ? Hhd _]. discriminate Hhd.
    + exists d'. rewrite Hrun. repeat split; assumption.
Defined.

(* ================================================================== *)
(** * pca9685_hal: the registry *)
(* ================================================================== *)

Lemma in_countdown (n : nat) (z : Z) :
  In z (countdown n) <-> 0 <= z < Z.of_nat n.
Proof.
  induction n as [|n IH]; cbn [countdown In].
  - lia.
  - rewrite IH. lia.
Qed.

Lemma NoDup_countdown (n : nat) : NoDup (countdown n).
Proof.
  induction n as [|n IH]; cbn [countdown]; constructor; [|exact IH].
  rewrite in_countdown. lia.
Qed.

Lemma find_board_none (reg : registry) (id : Z) :
  find_board reg id = None <-> ~ In id (board_ids reg).
Proof.
  induction reg as [|b reg IH]; cbn [find_board board_ids map In].
  - tauto.
  - destruct (board_id b =? id) eqn:E.
    + apply Z.eqb_eq in E. split; [discriminate | tauto].
    + apply Z.eqb_neq in E. unfold board_ids in IH. rewrite IH. tauto.
Qed.

Lemma find_board_some (reg : registry) (id : Z) (b : pca9685_board_t) :
  find_board reg id = Some b -> In b reg /\ board_id b = id.
Proof.
  induction reg as [|c reg IH]; cbn [find_board In]; [discriminate|].
  destruct (board_id c =? id) eqn:E.
  - intro H. injection H as <-. apply Z.eqb_eq in E. tauto.
  - intro H. destruct (IH H). tauto.
Qed.

Lemma registry_invariant_ids hdr reg (id : Z) :
  registry_invariant hdr reg ->
  (In id (board_ids reg) <-> 0 <= id < Z.of_nat (length reg)).
Proof. intros [Hids _]. rewrite Hids. apply in_countdown. Qed.

(** One board: an error, or the new board at the head of the list. *)
Lemma pca9685_init_board_cases hdr env reg num i tr :
  (exists e, fst (pca9685_init_board hdr env reg num i tr) = inl e) \/
  fst (pca9685_init_board hdr env reg num i tr)
    = inr (mkBoard (to_i2c_bus_t hdr (pca9685_i2c_address + i))
             (k_pca9685_ready hdr) i num :: reg).
Proof.
  unfold pca9685_init_board. unfold_port. cbn [fst snd].
  repeat (branch env; [| left; eexists; reflexivity]).
  right. reflexivity.
Qed.

Lemma registry_invariant_cons hdr reg num (i : Z) :
  registry_invariant hdr reg ->
  i = Z.of_nat (length reg) ->
  i < num ->
  registry_invariant hdr
    (mkBoard (to_i2c_bus_t hdr (pca9685_i2c_address + i))
       (k_pca9685_ready hdr) i num :: reg).
Proof.
  intros [Hids Hall] Hi Hnum. split.
  - cbn [board_ids map length countdown board_id].
    unfold board_ids in Hids. rewrite Hids, Hi. reflexivity.
  - constructor; [cbn; auto | exact Hall].
Qed.

(** The loop from turn [i] on: the registry grows at its head by boards
    with ids not yet registered and below [num], and stays as it is,
    without a call to the environment, when the ids of the remaining
    turns are all registered. *)
Lemma pca9685_init_loop_spec hdr env num : forall todo i reg tr,
  0 <= i <= Z.of_nat (length reg) ->
  i + Z.of_nat todo <= num ->
  registry_invariant hdr reg ->
  exists added,
    snd (fst (pca9685_init_loop hdr env todo num i reg tr)) = added ++ reg /\
    registry_invariant hdr (added ++ reg) /\
    Forall (fun b => Z.of_nat (length reg) <= board_id b < num) added /\
    (i + Z.of_nat todo <= Z.of_nat (length reg) ->
     pca9685_init_loop hdr env todo num i reg tr = (ESP_OK, reg, tr)).
Proof.
  induction todo as [|todo IH]; intros i reg tr Hi Hnum Hinv.
  - exists []. cbn [app pca9685_init_loop ret fst snd].
    split; [reflexivity|]. split; [exact Hinv|].
    split; [constructor | reflexivity].
  - cbn [pca9685_init_loop].
    destruct (find_board reg i) as [b|] eqn:Hfind.
    + (* already initialized: the turn is skipped *)
      assert (Hlt : i < Z.of_nat (length reg)).
      { apply find_board_some in Hfind. destruct Hfind as [Hin Hid].
        assert (In i (board_ids reg))
          by (rewrite <- Hid; apply in_map; exact Hin).
        apply (registry_invariant_ids hdr reg i Hinv). assumption. }
      destruct (IH (i + 1) reg tr ltac:(lia) ltac:(lia) Hinv)
        as (added & Hreg & Hinv' & Hnew & Hsame).
      exists added. split; [exact Hreg|]. split; [exact Hinv'|].
      split; [exact Hnew|].
      intro Hle. apply Hsame. lia.
    + (* a new board *)
      assert (Heq : i = Z.of_nat (length reg)).
      { apply find_board_none in Hfind.
        rewrite (registry_invariant_ids hdr reg i Hinv) in Hfind. lia. }
      unfold bind.
      destruct (pca9685_init_board_cases hdr env reg num i tr)
        as [[e He] | Hnew];
        destruct (pca9685_init_board hdr env reg num i tr) as [res tr'];
        cbn [fst] in *; subst res.
      * exists []. cbn [app fst snd ret].
        split; [reflexivity|]. split; [exact Hinv|].
        split; [constructor | intro; lia].
      * set (b := mkBoard _ _ i num).
        assert (Hinv' : registry_invariant hdr (b :: reg)).
        { apply registry_invariant_cons; auto. lia. }
        destruct (IH (i + 1) (b :: reg) tr'
                    ltac:(cbn [length]; lia) ltac:(lia) Hinv')
          as (added & Hreg & Hinv'' & Hadded & _).
        exists (added ++ [b]). rewrite <- app_assoc. cbn [app].
        split; [exact Hreg|]. split; [exact Hinv''|].
        split; [|intro; lia].
        apply Forall_app. split.
        -- eapply Forall_impl; [|exact Hadded]. cbn [length].
           intros a Ha. lia.
        -- constructor; [cbn; lia | constructor].
Qed.

Lemma reachable_invariant hdr reg :
  reachable hdr reg -> registry_invariant hdr reg.
Proof.
  induction 1 as [|env reg num tr _ IH Hnum].
  - split; [reflexivity | constructor].
  - unfold pca9685_init.
    destruct (pca9685_init_loop_spec hdr env num (Z.to_nat num) 0 reg tr
                ltac:(lia) ltac:(lia) IH) as (added & -> & Hinv & _).
    exact Hinv.
Qed.

Lemma reachable_head_bound hdr head rest b :
  reachable hdr (head :: rest) -> In b (head :: rest) ->
  board_id b < num_boards head.
Proof.
  intros Hreach Hin.
  pose proof (reachable_invariant hdr _ Hreach) as [Hids Hall].
  assert (Hb : In (board_id b) (board_ids (head :: rest)))
    by (apply in_map; exact Hin).
  rewrite Hids in Hb. apply in_countdown in Hb.
  apply Forall_inv in Hall. destruct Hall as (_ & _ & Hhead).
  cbn [board_ids map length countdown] in Hids.
  injection Hids as Hid _. cbn [length] in Hb. lia.
Qed.

Lemma three_boards_reachable : reachable pca9685_example_h three_boards.
Proof.
  unfold three_boards. apply reachable_init; [constructor | lia].
Defined.

(** C3.  On a registry built by earlier registrations, [pca9685_init]
    with a count [num] returns a registry that is the old one with new
    boards in front of it: no entry is removed or altered (bus addresses
    included), no id occurs twice, and every new board has an id of
    [[0, num)] that was not registered.  With [num] at most the number of
    registered boards nothing is added and no call is made. *)
Theorem pca9685_init_idempotent hdr env reg num tr :
  reachable hdr reg ->
  0 <= num < 256 ->
  exists added,
    snd (fst (pca9685_init hdr env reg num tr)) = added ++ reg /\
    NoDup (board_ids (added ++ reg)) /\
    Forall (fun b => 0 <= board_id b < num /\
                     ~ In (board_id b) (board_ids reg)) added /\
    (num <= Z.of_nat (length reg) ->
     pca9685_init hdr env reg num tr = (ESP_OK, reg, tr)).
Proof.
  intros Hreach Hnum.
  pose proof (reachable_invariant hdr reg Hreach) as Hinv.
  unfold pca9685_init.
  destruct (pca9685_init_loop_spec hdr env num (Z.to_nat num) 0 reg tr
              ltac:(lia) ltac:(lia) Hinv)
    as (added & Hreg & Hinv' & Hadded & Hsame).
  exists added. split; [exact Hreg|]. split; [|split].
  - destruct Hinv' as [Hids _]. rewrite Hids. apply NoDup_countdown.
  - eapply Forall_impl; [|exact Hadded]. cbn beta.
    intros b Hb. split; [lia|].
    rewrite (registry_invariant_ids hdr reg _ Hinv). lia.
  - intro Hle. apply Hsame. lia.
Qed.

(** Three boards are registered; registration with count 2 follows. *)
Lemma pca9685_init_idempotent_witness :
  exists added,
    snd (fst (pca9685_init pca9685_example_h env_all_fail three_boards 2 []))
      = added ++ three_boards /\
    NoDup (board_ids (added ++ three_boards)) /\
    Forall (fun b => 0 <= board_id b < 2 /\
                     ~ In (board_id b) (board_ids three_boards)) added /\
    (2 <= Z.of_nat (length three_boards) ->
     pca9685_init pca9685_example_h env_all_fail three_boards 2 []
       = (ESP_OK, three_boards, [])).
Proof.
  apply (pca9685_init_idempotent pca9685_example_h env_all_fail
           three_boards 2 []).
  - exact three_boards_reachable.
  - lia.
Defined.

(* ================================================================== *)
(** * pca9685_hal: the angle command *)
(* ================================================================== *)

Lemma pca9685_set_angle_scan_absent hdr env mask id angle tr :
  forall cur, ~ In id (board_ids cur) ->
  pca9685_set_angle_scan hdr env cur mask id angle tr
    = (ESP_ERR_NOT_FOUND, tr).
Proof.
  induction cur as [|b cur IH]; intro Hout.
  - reflexivity.
  - cbn [pca9685_set_angle_scan]. cbn [board_ids map In] in Hout.
    destruct (board_id b =? id) eqn:E.
    + apply Z.eqb_eq in E. tauto.
    + apply IH. unfold board_ids. tauto.
Qed.

Lemma pca9685_set_angle_scan_found hdr env mask id angle tr b :
  forall cur, find_board cur id = Some b ->
  pca9685_set_angle_scan hdr env cur mask id angle tr =
    if negb (board_state b =? k_pca9685_ready hdr) then (ESP_FAIL, tr)
    else pca9685_channel_loop hdr env 16 0 mask (board_i2c_bus b)
           (pulse_length angle) tr.
Proof.
  induction cur as [|c cur IH]; cbn [find_board pca9685_set_angle_scan];
    [discriminate|].
  destruct (board_id c =? id).
  - intro H. injection H as <-. destruct (negb _); reflexivity.
  - exact IH.
Qed.

(** C9, as the code has it.  A command for a board id that the registry
    does not hold makes no call to the bus and returns an error: the
    invalid-argument error when the registry is empty or the id is not
    below the unit count recorded in the head entry, the not-found error
    otherwise. *)
Theorem pca9685_set_angle_absent_board hdr env reg mask id angle tr :
  ~ In id (board_ids reg) ->
  pca9685_set_angle hdr env reg mask id angle tr =
    (match reg with
     | [] => ESP_ERR_INVALID_ARG
     | head :: _ =>
         if num_boards head <=? id then ESP_ERR_INVALID_ARG
         else ESP_ERR_NOT_FOUND
     end, tr).
Proof.
  intro Hout. unfold pca9685_set_angle.
  destruct reg as [|head rest]; [reflexivity|].
  destruct (num_boards head <=? id); [reflexivity|].
  apply pca9685_set_angle_scan_absent. exact Hout.
Qed.

Lemma pca9685_set_angle_absent_board_witness :
  pca9685_set_angle pca9685_example_h env_all_ok three_boards 9 5
    (F32.of_Z 90) [] = (ESP_ERR_INVALID_ARG, []).
Proof.
  apply (pca9685_set_angle_absent_board pca9685_example_h env_all_ok
           three_boards 9 5 (F32.of_Z 90) []).
  vm_compute. intuition discriminate.
Defined.

(** C9 as stated fails: boards 0, 1 and 2 are registered with count 3 and
    the command names board 5; and the command names board 0 of an empty
    registry.  Neither returns the not-found error. *)
Lemma pca9685_set_angle_absent_board_invalid_arg :
  board_ids three_boards = [2; 1; 0] /\
  ~ In 5 (board_ids three_boards) /\
  ~ pca9685_set_angle pca9685_example_h env_all_ok three_boards 9 5
      (F32.of_Z 90) [] = (ESP_ERR_NOT_FOUND, []) /\
  ~ pca9685_set_angle pca9685_example_h env_all_ok [] 9 0
      (F32.of_Z 90) [] = (ESP_ERR_NOT_FOUND, []).
Proof.
  split; [reflexivity|]. split; [vm_compute; intuition discriminate|].
  split; vm_compute; discriminate.
Qed.

(** C8.  Board 1 of three registered boards, the mask 0b1001, the angle
    90 and every write succeeding: the command returns [ESP_OK] after six
    single-byte writes to the bus of board 1, for channel 0 and then for
    channel 3 the address of the channel's ON_L register followed by the
    low and the high byte of the off-time 2047, the integer part of
    (90 / 180) * 4095.  The source announces "Set ON time to 0" for the
    first write of a channel, but that write carries the register address
    only: no write carries an on-time, none of the six bytes is 0. *)
Lemma pca9685_set_angle_sends_no_on_time :
  let run := pca9685_set_angle pca9685_example_h env_all_ok three_boards 9 1
               (F32.of_Z 90) [] in
  let off := 0xFF + 256 * 0x07 in
  fst run = ESP_OK /\
  map fst (snd run)
    = [ I2cWriteByte 0x06 0x41; I2cWriteByte 0xFF 0x41; I2cWriteByte 0x07 0x41;
        I2cWriteByte 0x12 0x41; I2cWriteByte 0xFF 0x41; I2cWriteByte 0x07 0x41 ] /\
  map fst (snd run)
    = pca9685_channel_calls pca9685_example_h 0x41 off 0
      ++ pca9685_channel_calls pca9685_example_h 0x41 off 3 /\
  off = pulse_length (F32.of_Z 90) /\
  off = 90 * pca9685_max_pwm_value / 180 /\
  existsb (writes_byte 0) (map fst (snd run)) = false.
Proof. vm_compute. repeat split. Qed.

(* ================================================================== *)
(** * pca9685_hal: angle to duty *)
(* ================================================================== *)

Lemma digits2_pos_bounds (p : positive) :
  2 ^ (Z.pos (digits2_pos p) - 1) <= Z.pos p < 2 ^ Z.pos (digits2_pos p).
Proof.
  induction p as [p IH | p IH |]; cbn [digits2_pos].
  - rewrite Pos2Z.inj_succ.
    replace (Z.succ (Z.pos (digits2_pos p)) - 1)
      with (Z.succ (Z.pos (digits2_pos p) - 1)) by lia.
    rewrite !Z.pow_succ_r by lia. lia.
  - rewrite Pos2Z.inj_succ.
    replace (Z.succ (Z.pos (digits2_pos p)) - 1)
      with (Z.succ (Z.pos (digits2_pos p) - 1)) by lia.
    rewrite !Z.pow_succ_r by lia. lia.
  - cbn. lia.
Qed.

Lemma Zdigits2_bounds (m : Z) :
  0 < m -> 2 ^ (Zdigits2 m - 1) <= m < 2 ^ Zdigits2 m.
Proof.
  destruct m as [|p|p]; try lia. intros _. apply digits2_pos_bounds.
Qed.

Lemma Zdigits2_nonneg (m : Z) : 0 <= Zdigits2 m.
Proof. destruct m; cbn; lia. Qed.

(** One shift halves the number that the record stands for. *)
Lemma shr_1_represents (Y D : Z) (r : shr_record) :
  0 < D -> 0 <= shr_m r ->
  represents Y D r -> represents Y (2 * D) (shr_1 r) /\ 0 <= shr_m (shr_1 r).
Proof.
  intros HD Hm [Hq Hs]. destruct r as [m b s]. cbn [shr_m shr_r shr_s] in *.
  assert (Hdm := Z.div_mod Y D ltac:(lia)).
  assert (Hb := Z.mod_pos_bound Y D HD).
  assert (Hq2 : Y / (2 * D) = m).
  { rewrite Z.mul_comm, <- Z.div_div by lia. rewrite Hq.
    destruct b; cbn [Z.b2z].
    - symmetry. apply (Z.div_unique _ 2 m 1); lia.
    - rewrite Z.add_0_r, Z.mul_comm. apply Z.div_mul. lia. }
  assert (Hr2 : Y mod (2 * D) = D * Z.b2z b + Y mod D).
  { symmetry. apply (Z.mod_unique _ _ m).
    - destruct b; cbn [Z.b2z]; lia.
    - rewrite Hdm at 1. rewrite Hq. lia. }
  unfold represents. rewrite Hq2, Hr2.
  assert (Hst : orb b s = negb (D * Z.b2z b + Y mod D =? 0)).
  { rewrite Hs. destruct b; cbn [Z.b2z orb].
    - symmetry. apply negb_true_iff, Z.eqb_neq. lia.
    - rewrite Z.mul_0_r, Z.add_0_l. reflexivity. }
  destruct m as [|p|p]; [| |lia].
  - cbn [shr_1 shr_m shr_r shr_s Z.b2z]. repeat split; try lia. exact Hst.
  - destruct p as [p|p|]; cbn [shr_1 shr_m shr_r shr_s Z.b2z];
      repeat split; try lia; exact Hst.
Qed.

Lemma iter_shr_1_represents (Y : Z) (p : positive) :
  forall (D : Z) (r : shr_record),
  0 < D -> 0 <= shr_m r ->
  represents Y D r ->
  represents Y (2 ^ Z.pos p * D) (iter_pos shr_1 p r) /\
  0 <= shr_m (iter_pos shr_1 p r).
Proof.
  induction p as [p IH | p IH |]; intros D r HD Hm Hr; cbn [iter_pos].
  - destruct (shr_1_represents Y D r HD Hm Hr) as [H1 Hm1].
    destruct (IH (2 * D) _ ltac:(lia) Hm1 H1) as [H2 Hm2].
    assert (0 < 2 ^ Z.pos p) by (apply Z.pow_pos_nonneg; lia).
    destruct (IH (2 ^ Z.pos p * (2 * D)) _ ltac:(nia) Hm2 H2) as [H3 Hm3].
    split; [|exact Hm3].
    replace (2 ^ Z.pos p~1 * D) with (2 ^ Z.pos p * (2 ^ Z.pos p * (2 * D)));
      [exact H3|].
    replace (Z.pos p~1) with (Z.pos p + Z.pos p + 1) by lia.
    rewrite !Z.pow_add_r by lia. change (2 ^ 1) with 2. ring.
  - destruct (IH D _ HD Hm Hr) as [H2 Hm2].
    assert (0 < 2 ^ Z.pos p) by (apply Z.pow_pos_nonneg; lia).
    destruct (IH (2 ^ Z.pos p * D) _ ltac:(nia) Hm2 H2) as [H3 Hm3].
    split; [|exact Hm3].
    replace (2 ^ Z.pos p~0 * D) with (2 ^ Z.pos p * (2 ^ Z.pos p * D));
      [exact H3|].
    replace (Z.pos p~0) with (Z.pos p + Z.pos p) by lia.
    rewrite Z.pow_add_r by lia. ring.
  - change (2 ^ 1 * D) with (2 * D). apply shr_1_represents; assumption.
Qed.

Lemma fexp_eq (e : Z) : fexp 24 128 e = Z.max (e - 24) (-149).
Proof. reflexivity. Qed.

Lemma shr_record_of_loc_represents (mx t d : Z) :
  0 < d -> 0 <= t < d ->
  represents (2 * (mx * d + t)) d (shr_record_of_loc mx (location_of t d)).
Proof.
  intros Hd Ht. unfold location_of, represents.
  destruct (Z.eqb_spec t 0) as [Ht0 | Ht0].
  - subst t. cbn [shr_record_of_loc shr_m shr_r shr_s Z.b2z].
    replace (2 * (mx * d + 0)) with (2 * mx * d) by ring.
    rewrite Z.div_mul, Z.mod_mul by lia. split; [lia | reflexivity].
  - destruct (Z.compare_spec (2 * t) d) as [He | Hl | Hg];
      cbn [shr_record_of_loc shr_m shr_r shr_s Z.b2z].
    + replace (2 * (mx * d + t)) with ((2 * mx + 1) * d) by lia.
      rewrite Z.div_mul, Z.mod_mul by lia. split; [lia | reflexivity].
    + replace (2 * (mx * d + t)) with (2 * t + 2 * mx * d) by ring.
      rewrite Z.div_add, Z.mod_add by lia.
      rewrite Z.div_small, Z.mod_small by lia.
      split; [lia|]. symmetry. apply negb_true_iff, Z.eqb_neq. lia.
    + replace (2 * (mx * d + t)) with (2 * t - d + (2 * mx + 1) * d) by ring.
      rewrite Z.div_add, Z.mod_add by lia.
      rewrite Z.div_small, Z.mod_small by lia.
      split; [lia|]. symmetry. apply negb_true_iff, Z.eqb_neq. lia.
Qed.

(** The first step of rounding: the mantissa cut to the exponent that the
    format gives the number, with what was cut off kept in the record. *)
Lemma shr_fexp_represents (mx ex t d : Z) :
  0 <= mx -> 0 < d -> 0 <= t < d ->
  let n := fexp 24 128 (Zdigits2 mx + ex) - ex in
  0 <= n ->
  exists r,
    shr_fexp 24 128 mx ex (location_of t d) = (r, ex + n) /\
    represents (2 * (mx * d + t)) (2 ^ n * d) r /\
    0 <= shr_m r.
Proof.
  intros Hmx Hd Ht n Hn. unfold shr_fexp. fold n.
  pose proof (shr_record_of_loc_represents mx t d Hd Ht) as Hrep.
  assert (Hm0 : 0 <= shr_m (shr_record_of_loc mx (location_of t d))).
  { destruct (location_of t d) as [|[| |]]; exact Hmx. }
  destruct n as [|p|p]; [| |lia].
  - eexists. split; [cbn [shr]; rewrite Z.add_0_r; reflexivity|].
    change (2 ^ 0) with 1. rewrite Z.mul_1_l. split; assumption.
  - destruct (iter_shr_1_represents _ p _ _ Hd Hm0 Hrep) as [H1 H2].
    eexists. split; [cbn [shr]; reflexivity|]. split; assumption.
Qed.

Lemma Zdigits2_unique (m k : Z) :
  2 ^ (k - 1) <= m < 2 ^ k -> 0 < k -> Zdigits2 m = k.
Proof.
  intros Hm Hk.
  assert (0 < m).
  { apply Z.lt_le_trans with (2 ^ (k - 1)); [|lia].
    apply Z.pow_pos_nonneg; lia. }
  pose proof (Zdigits2_bounds m ltac:(lia)) as Hb.
  pose proof (Zdigits2_nonneg m) as Hd.
  destruct (Z.lt_trichotomy (Zdigits2 m) k) as [Hlt | [Heq | Hgt]];
    [|exact Heq|].
  - exfalso.
    assert (2 ^ Zdigits2 m <= 2 ^ (k - 1))
      by (apply Z.pow_le_mono_r; lia).
    lia.
  - exfalso.
    assert (2 ^ k <= 2 ^ (Zdigits2 m - 1))
      by (apply Z.pow_le_mono_r; lia).
    lia.
Qed.

Lemma Zdigits2_le (m k : Z) : 0 <= m < 2 ^ k -> 0 <= k -> Zdigits2 m <= k.
Proof.
  intros Hm Hk.
  destruct (Z.eq_dec m 0) as [-> | Hnz]; [cbn; lia|].
  pose proof (Zdigits2_bounds m ltac:(lia)) as Hb.
  pose proof (Zdigits2_nonneg m) as Hd.
  destruct (Z_le_gt_dec (Zdigits2 m) k) as [Hle | Hgt]; [exact Hle|].
  exfalso.
  assert (2 ^ k <= 2 ^ (Zdigits2 m - 1)) by (apply Z.pow_le_mono_r; lia).
  lia.
Qed.

Lemma Zdigits2_ge (m k : Z) : 2 ^ (k - 1) <= m -> 0 < k -> k <= Zdigits2 m.
Proof.
  intros Hm Hk.
  assert (0 < m).
  { apply Z.lt_le_trans with (2 ^ (k - 1)); [|lia].
    apply Z.pow_pos_nonneg; lia. }
  pose proof (Zdigits2_bounds m ltac:(lia)) as Hb.
  destruct (Z_le_gt_dec k (Zdigits2 m)) as [Hle | Hgt]; [exact Hle|].
  exfalso.
  assert (2 ^ Zdigits2 m <= 2 ^ (k - 1)) by (apply Z.pow_le_mono_r; lia).
  lia.
Qed.

(** Between two neighbours of the grid of a binade there is no
    binary32 number. *)
Lemma representable_grid (G m e : Z) :
  representable G -> 0 <= m -> -149 <= e ->
  (e = -149 \/ 2 ^ 23 <= m) ->
  G <= m * 2 ^ (e + 149) \/ (m + 1) * 2 ^ (e + 149) <= G.
Proof.
  intros (mg & eg & Hmg & Heg & ->) Hm He Hcan.
  assert (HP : 0 < 2 ^ (e + 149)) by (apply Z.pow_pos_nonneg; lia).
  destruct (Z_le_gt_dec e eg) as [Hle | Hgt].
  - replace (eg + 149) with ((eg - e) + (e + 149)) by lia.
    rewrite Z.pow_add_r by lia.
    assert (0 < 2 ^ (eg - e)) by (apply Z.pow_pos_nonneg; lia).
    set (k := mg * 2 ^ (eg - e)).
    replace (mg * (2 ^ (eg - e) * 2 ^ (e + 149))) with (k * 2 ^ (e + 149))
      by (unfold k; ring).
    destruct (Z_le_gt_dec k m) as [Hk | Hk]; [left | right];
      apply Z.mul_le_mono_nonneg_r; lia.
  - left. destruct Hcan as [-> | Hbig]; [lia|].
    apply Z.le_trans with (2 ^ 23 * 2 ^ (e + 149));
      [|apply Z.mul_le_mono_nonneg_r; lia].
    rewrite <- Z.pow_add_r by lia.
    apply Z.le_trans with (2 ^ 24 * 2 ^ (eg + 149)).
    + apply Z.mul_le_mono_nonneg_r; [apply Z.pow_nonneg|]; lia.
    + rewrite <- Z.pow_add_r by lia. apply Z.pow_le_mono_r; lia.
Qed.

Lemma shr_fexp_exact_small (m e : Z) :
  0 <= m < 2 ^ 24 -> -149 <= e ->
  shr_fexp 24 128 m e loc_Exact = (Build_shr_record m false false, e).
Proof.
  intros Hm He. unfold shr_fexp. rewrite fexp_eq.
  pose proof (Zdigits2_le m 24 Hm ltac:(lia)) as Hd.
  cbn [shr_record_of_loc].
  destruct (Z.max (Zdigits2 m + e - 24) (-149) - e) as [|p|p] eqn:E;
    [reflexivity | lia | reflexivity].
Qed.

Lemma shr_fexp_exact_carry (e : Z) :
  -149 <= e ->
  shr_fexp 24 128 (2 ^ 24) e loc_Exact
    = (Build_shr_record (2 ^ 23) false false, e + 1).
Proof.
  intro He. unfold shr_fexp. rewrite fexp_eq.
  change (Zdigits2 (2 ^ 24)) with 25.
  replace (Z.max (25 + e - 24) (-149) - e) with 1 by lia.
  reflexivity.
Qed.

Lemma bounded_intro (m : positive) (e : Z) :
  Z.pos m < 2 ^ 24 -> -149 <= e <= 104 ->
  (e = -149 \/ 2 ^ 23 <= Z.pos m) ->
  bounded 24 128 m e = true.
Proof.
  intros Hm He Hcan. unfold bounded, canonical_mantissa.
  rewrite fexp_eq. apply andb_true_intro. split; [|apply Z.leb_le; cbn; lia].
  apply Z.eqb_eq.
  change (Z.pos (digits2_pos m)) with (Zdigits2 (Z.pos m)).
  destruct Hcan as [-> | Hbig].
  - pose proof (Zdigits2_le (Z.pos m) 24 ltac:(lia) ltac:(lia)). lia.
  - rewrite (Zdigits2_unique (Z.pos m) 24) by (change (24 - 1) with 23; lia).
    lia.
Qed.

(** The last step of rounding: the rounded mantissa, renormalized when
    it has reached 2^24. *)
Lemma round_finish (m e : Z) (f : F32.float) :
  0 <= m <= 2 ^ 24 -> -149 <= e -> e + 1 <= 104 ->
  (e = -149 \/ 2 ^ 23 <= m) ->
  f = (let '(mrs, e') := shr_fexp 24 128 m e loc_Exact in
       match shr_m mrs with
       | Z0 => S754_zero false
       | Zpos p => if e' <=? 128 - 24 then S754_finite false p e'
                   else S754_infinity false
       | Zneg _ => S754_nan
       end) ->
  nonneg_valid f /\
  F32_scaled f = m * 2 ^ (e + 149) /\
  representable (m * 2 ^ (e + 149)).
Proof.
  intros Hm He Hov Hcan ->.
  destruct (Z.eq_dec m (2 ^ 24)) as [-> | Hne].
  - rewrite shr_fexp_exact_carry by lia. cbn [shr_m].
    change (2 ^ 23) with (Z.pos 8388608).
    replace (e + 1 <=? 128 - 24) with true by (symmetry; apply Z.leb_le; lia).
    assert (Hval : Z.pos 8388608 * 2 ^ (e + 1 + 149) = 2 ^ 24 * 2 ^ (e + 149)).
    { replace (e + 1 + 149) with (1 + (e + 149)) by lia.
      rewrite Z.pow_add_r by lia. set (Q := 2 ^ (e + 149)).
      change (2 ^ 1) with 2. change (2 ^ 24) with 16777216. lia. }
    split; [|split].
    + right. exists 8388608%positive, (e + 1). split; [reflexivity|].
      apply bounded_intro; [reflexivity | lia | right; reflexivity].
    + cbn [F32_scaled]. rewrite Z.shiftl_mul_pow2 by lia. exact Hval.
    + exists (2 ^ 23), (e + 1). split; [cbn; lia|]. split; [lia|].
      symmetry. exact Hval.
  - rewrite shr_fexp_exact_small by lia. cbn [shr_m].
    destruct m as [|p|p]; [| |lia].
    + split; [left; exists false; reflexivity|]. split; [reflexivity|].
      exists 0, e. split; [cbn; lia|]. split; [lia | reflexivity].
    + replace (e <=? 128 - 24) with true by (symmetry; apply Z.leb_le; lia).
      split; [|split].
      * right. exists p, e. split; [reflexivity|].
        apply bounded_intro; [lia | lia | exact Hcan].
      * cbn [F32_scaled]. rewrite Z.shiftl_mul_pow2 by lia. reflexivity.
      * exists (Z.pos p), e. split; [lia|]. split; [lia | reflexivity].
Qed.

(** Of the two neighbours of a number on a grid, the one that rounding to
    nearest picks is at least as close as any value at or beyond them. *)
Lemma nearest_of_neighbours (A W P m1 m2 k G : Z) :
  0 < W -> 0 < P -> 0 <= k < 2 * W ->
  2 * A = (2 * W * m1 + k) * P ->
  (m2 = m1 /\ k <= W) \/ (m2 = m1 + 1 /\ W <= k) ->
  G <= m1 * P \/ (m1 + 1) * P <= G ->
  Z.abs (A - W * (m2 * P)) <= Z.abs (A - W * G).
Proof.
  intros HW HP Hk HA Hm2 HG.
  set (a := W * P). set (s := a * m1). set (kp := k * P). set (wg := W * G).
  assert (Ha : 0 < a) by (apply Z.mul_pos_pos; assumption).
  assert (HA' : 2 * A = 2 * s + kp) by (unfold s, a, kp; rewrite HA; ring).
  assert (Hkp : 0 <= kp < 2 * a).
  { unfold kp, a. split; [apply Z.mul_nonneg_nonneg; lia|].
    replace (2 * (W * P)) with (2 * W * P) by ring.
    apply Z.mul_lt_mono_pos_r; lia. }
  assert (Hlow : k <= W -> kp <= a)
    by (intro; unfold kp, a; apply Z.mul_le_mono_nonneg_r; lia).
  assert (Hhigh : W <= k -> a <= kp)
    by (intro; unfold kp, a; apply Z.mul_le_mono_nonneg_r; lia).
  assert (Hwg : (G <= m1 * P -> wg <= s) /\ ((m1 + 1) * P <= G -> s + a <= wg)).
  { unfold wg, s, a. split; intro H.
    - replace (W * P * m1) with (W * (m1 * P)) by ring.
      apply Z.mul_le_mono_nonneg_l; lia.
    - replace (W * P * m1 + W * P) with (W * ((m1 + 1) * P)) by ring.
      apply Z.mul_le_mono_nonneg_l; lia. }
  destruct Hwg as [Hwg1 Hwg2].
  fold wg.
  assert (Hm2' : (W * (m2 * P) = s /\ kp <= a) \/
                 (W * (m2 * P) = s + a /\ a <= kp)).
  { destruct Hm2 as [[-> Hle] | [-> Hge]]; [left | right];
      (split; [unfold s, a; ring | auto]). }
  clearbody a s kp wg. lia.
Qed.

(** Rounding to nearest: what [binary_round_aux] returns for the number
    [(mx + t / d) * 2^ex] is a binary32 value nearest to it. *)
Lemma binary_round_aux_nearest (mx ex t d : Z) :
  0 <= mx -> 0 < d -> 0 <= t < d ->
  let n := fexp 24 128 (Zdigits2 mx + ex) - ex in
  0 <= n -> ex + n + 1 <= 104 ->
  let f := binary_round_aux 24 128 false mx ex (location_of t d) in
  nonneg_valid f /\
  nearest_to ((mx * d + t) * 2 ^ (ex + n + 149)) (2 ^ n * d) (F32_scaled f).
Proof.
  intros Hmx Hd Ht n Hn Hov f.
  destruct (shr_fexp_represents mx ex t d Hmx Hd Ht Hn)
    as (r & Hshr & [Hq Hs] & Hm).
  fold n in Hshr, Hq, Hs.
  assert (He1 : ex + n = Z.max (Zdigits2 mx + ex - 24) (-149))
    by (unfold n; rewrite fexp_eq; lia).
  set (e1 := ex + n) in *.
  set (W := 2 ^ n * d) in *.
  set (P := 2 ^ (e1 + 149)).
  assert (HP : 0 < P) by (apply Z.pow_pos_nonneg; lia).
  assert (H2n : 0 < 2 ^ n) by (apply Z.pow_pos_nonneg; lia).
  assert (HW : 0 < W) by (unfold W; nia).
  set (m1 := shr_m r) in *.
  set (Y := 2 * (mx * d + t)) in *.
  assert (Hdm := Z.div_mod Y W ltac:(lia)).
  assert (Hrem := Z.mod_pos_bound Y W HW).
  set (rho := Y mod W) in *.
  (* the mantissa is the quotient by the power of two *)
  assert (Hm1 : m1 = mx / 2 ^ n).
  { assert (Y / (2 * W) = m1).
    { rewrite Z.mul_comm, <- Z.div_div by lia. rewrite Hq.
      destruct (shr_r r); cbn [Z.b2z].
      - symmetry. apply (Z.div_unique _ 2 m1 1); lia.
      - rewrite Z.add_0_r, Z.mul_comm. apply Z.div_mul. lia. }
    rewrite <- H. unfold Y, W.
    rewrite Z.div_mul_cancel_l by lia.
    rewrite (Z.mul_comm (2 ^ n) d), <- Z.div_div by lia.
    f_equal. symmetry. apply (Z.div_unique _ d mx t); lia. }
  assert (Hup : m1 < 2 ^ 24).
  { rewrite Hm1. apply Z.div_lt_upper_bound; [lia|].
    destruct (Z.eq_dec mx 0) as [-> | Hnz]; [nia|].
    pose proof (Zdigits2_bounds mx ltac:(lia)) as Hb.
    apply Z.lt_le_trans with (2 ^ Zdigits2 mx); [lia|].
    rewrite <- Z.pow_add_r by lia. apply Z.pow_le_mono_r; lia. }
  assert (Hcan : e1 = -149 \/ 2 ^ 23 <= m1).
  { destruct (Z.eq_dec e1 (-149)) as [Heq | Hne]; [left; exact Heq | right].
    assert (Hn' : n = Zdigits2 mx - 24) by lia.
    assert (Hpos : 0 < mx).
    { destruct (Z.eq_dec mx 0) as [-> | Hnz]; [|lia].
      cbn in Hn'. lia. }
    pose proof (Zdigits2_bounds mx Hpos) as Hb.
    rewrite Hm1. apply Z.div_le_lower_bound; [lia|].
    rewrite <- Z.pow_add_r by lia.
    replace (n + 23) with (Zdigits2 mx - 1) by lia. lia. }
  (* the rounded mantissa *)
  set (m2 := round_nearest_even m1 (loc_of_shr_record r)).
  set (k := W * Z.b2z (shr_r r) + rho).
  assert (Hk : 0 <= k < 2 * W) by (unfold k; destruct (shr_r r); cbn [Z.b2z]; lia).
  assert (Hm2 : (m2 = m1 /\ k <= W) \/ (m2 = m1 + 1 /\ W <= k)).
  { unfold m2, k. destruct r as [m b s]. cbn [shr_m shr_r shr_s] in *.
    subst m1.
    destruct b, s; cbn [loc_of_shr_record round_nearest_even Z.b2z].
    - right. split; [reflexivity | lia].
    - symmetry in Hs. apply negb_false_iff, Z.eqb_eq in Hs. fold rho in Hs.
      destruct (Z.even m); [left | right]; split; try reflexivity; lia.
    - left. split; [reflexivity | lia].
    - left. split; [reflexivity | lia]. }
  assert (Hfin : nonneg_valid f /\
                 F32_scaled f = m2 * P /\ representable (m2 * P)).
  { apply (round_finish m2 e1 f); [lia | lia | lia | |].
    - destruct Hcan as [H | H]; [left; exact H | right; lia].
    - unfold f, binary_round_aux. rewrite Hshr. reflexivity. }
  destruct Hfin as (Hvalid & Hval & Hrepr).
  split; [exact Hvalid|]. split; [rewrite Hval; exact Hrepr|].
  intros G HG. rewrite Hval.
  apply (nearest_of_neighbours _ W P m1 m2 k G HW HP Hk); [|exact Hm2|].
  - fold Y. replace (2 * ((mx * d + t) * P)) with (Y * P) by (unfold Y; ring).
    rewrite Hdm at 1. rewrite Hq. unfold k. ring.
  - exact (representable_grid G m1 e1 HG Hm ltac:(lia) Hcan).
Qed.

Lemma bounded_elim (m : positive) (e : Z) :
  bounded 24 128 m e = true ->
  Z.pos m < 2 ^ 24 /\ -149 <= e <= 104 /\ (e = -149 \/ 2 ^ 23 <= Z.pos m).
Proof.
  unfold bounded, canonical_mantissa. rewrite fexp_eq.
  intro H. apply andb_prop in H. destruct H as [Hc He].
  apply Z.eqb_eq in Hc. apply Z.leb_le in He. cbn in He.
  change (Z.pos (digits2_pos m)) with (Zdigits2 (Z.pos m)) in Hc.
  pose proof (Zdigits2_bounds (Z.pos m) ltac:(lia)) as Hb.
  assert (Hd : Zdigits2 (Z.pos m) <= 24) by lia.
  split; [|split; [lia|]].
  - apply Z.lt_le_trans with (2 ^ Zdigits2 (Z.pos m)); [lia|].
    apply Z.pow_le_mono_r; lia.
  - destruct (Z.eq_dec e (-149)) as [He' | He']; [left; exact He' | right].
    replace (Zdigits2 (Z.pos m)) with 24 in Hb by lia. exact (proj1 Hb).
Qed.

Lemma representable_0 : representable 0.
Proof. exists 0, (-149). split; [cbn; lia|]. split; [lia | reflexivity]. Qed.

Lemma representable_int (z : Z) :
  0 <= z < 2 ^ 24 -> representable (z * 2 ^ 149).
Proof. intro Hz. exists z, 0. split; [exact Hz|]. split; [lia | reflexivity]. Qed.

Lemma nonneg_valid_scaled (f : F32.float) :
  nonneg_valid f ->
  0 <= F32_scaled f /\ (F32_scaled f = 0 -> exists s, f = S754_zero s).
Proof.
  intros [[s ->] | (m & e & -> & Hb)].
  - cbn. split; [lia | intros _; exists s; reflexivity].
  - apply bounded_elim in Hb. destruct Hb as (_ & He & _).
    cbn [F32_scaled]. rewrite Z.shiftl_mul_pow2 by lia.
    assert (0 < 2 ^ (e + 149)) by (apply Z.pow_pos_nonneg; lia).
    split; [nia | intro H0; nia].
Qed.

Lemma nearest_to_scale (c num den F : Z) :
  0 < c -> nearest_to (c * num) (c * den) F -> nearest_to num den F.
Proof.
  intros Hc [Hrep Hnear]. split; [exact Hrep|].
  intros G HG. specialize (Hnear G HG).
  replace (c * num - c * den * F) with (c * (num - den * F)) in Hnear by ring.
  replace (c * num - c * den * G) with (c * (num - den * G)) in Hnear by ring.
  rewrite !Z.abs_mul, (Z.abs_eq c) in Hnear by lia.
  apply Z.mul_le_mono_pos_l in Hnear; assumption.
Qed.

(** Rounding to nearest keeps the order. *)
Lemma nearest_mono (num1 num2 den F1 F2 : Z) :
  0 < den -> num1 < num2 ->
  nearest_to num1 den F1 -> nearest_to num2 den F2 -> F1 <= F2.
Proof.
  intros Hden Hlt [Hr1 Hn1] [Hr2 Hn2].
  destruct (Z_le_gt_dec F1 F2) as [Hle | Hgt]; [exact Hle | exfalso].
  specialize (Hn1 F2 Hr2). specialize (Hn2 F1 Hr1).
  assert (den * F2 < den * F1) by (apply Z.mul_lt_mono_pos_l; lia).
  lia.
Qed.

(** A nearest value does not pass a binary32 value that bounds the number. *)
Lemma nearest_upper (num den F B : Z) :
  0 < den -> representable B -> num <= den * B ->
  nearest_to num den F -> F <= B.
Proof.
  intros Hden HB Hle [_ Hn].
  destruct (Z_le_gt_dec F B) as [H | Hgt]; [exact H | exfalso].
  specialize (Hn B HB).
  assert (den * B < den * F) by (apply Z.mul_lt_mono_pos_l; lia).
  lia.
Qed.

Lemma of_Z_180 : F32.of_Z 180 = S754_finite false 11796480 (-16).
Proof. reflexivity. Qed.

Lemma of_Z_4095 :
  F32.of_Z pca9685_max_pwm_value = S754_finite false 16773120 (-12).
Proof. reflexivity. Qed.

(** The product with 4095.0f is a binary32 value nearest to the exact
    product, for factors up to 1. *)
Lemma mul_4095_nearest (x : F32.float) :
  nonneg_valid x -> F32_scaled x <= 2 ^ 149 ->
  let g := F32.mul x (F32.of_Z pca9685_max_pwm_value) in
  nonneg_valid g /\ nearest_to (4095 * F32_scaled x) 1 (F32_scaled g).
Proof.
  intros Hx Hle g. subst g. rewrite of_Z_4095.
  destruct Hx as [[s ->] | (m & e & -> & Hb)].
  - cbn [F32.mul SFmul F32_scaled].
    split; [left; eexists; reflexivity|].
    split; [apply representable_0|]. intros G _. cbn. lia.
  - apply bounded_elim in Hb. destruct Hb as (Hm & He & Hcan).
    cbn [F32_scaled] in *. rewrite Z.shiftl_mul_pow2 in * by lia.
    assert (HP : 0 < 2 ^ (e + 149)) by (apply Z.pow_pos_nonneg; lia).
    assert (He0 : e <= 0).
    { destruct (Z_le_gt_dec e 0) as [H | H]; [exact H | exfalso].
      assert (2 ^ (0 + 149) < 2 ^ (e + 149))
        by (apply Z.pow_lt_mono_r; lia).
      change (0 + 149) with 149 in *. nia. }
    unfold F32.mul, SFmul. cbn [xorb].
    change (F32.prec) with 24. change (F32.emax) with 128.
    rewrite Pos2Z.inj_mul.
    set (p := Z.pos m * 16773120).
    set (ex := e + -12).
    assert (Hp : 2 ^ 23 <= p < 2 ^ 48).
    { unfold p. change (2 ^ 48) with (2 ^ 24 * 2 ^ 24).
      change (2 ^ 23) with 8388608. change (2 ^ 24) with 16777216 in *. lia. }
    assert (Hd1 : 24 <= Zdigits2 p)
      by (apply Zdigits2_ge; [change (24 - 1) with 23|]; lia).
    assert (Hd2 : Zdigits2 p <= 48) by (apply Zdigits2_le; lia).
    pose proof (binary_round_aux_nearest p ex 0 1) as H.
    change (location_of 0 1) with loc_Exact in H.
    cbv zeta in H. rewrite fexp_eq in H.
    set (n := Z.max (Zdigits2 p + ex - 24) (-149) - ex) in *.
    assert (Hn : 0 <= n) by (unfold n, ex; lia).
    specialize (H ltac:(lia) ltac:(lia) ltac:(lia) Hn
                  ltac:(unfold n, ex in *; lia)).
    destruct H as [Hv Hnear]. split; [exact Hv|].
    apply (nearest_to_scale (2 ^ n)); [apply Z.pow_pos_nonneg; lia|].
    replace (2 ^ n * (4095 * (Z.pos m * 2 ^ (e + 149))))
      with ((p * 1 + 0) * 2 ^ (ex + n + 149)); [exact Hnear|].
    unfold p.
    replace (ex + n + 149) with (n + (e + 149) - 12) by (unfold ex; lia).
    assert (Hsplit : 2 ^ n * 2 ^ (e + 149) = 2 ^ (n + (e + 149) - 12) * 4096).
    { rewrite <- Z.pow_add_r by lia. change 4096 with (2 ^ 12).
      rewrite <- Z.pow_add_r by (unfold n, ex in *; lia). f_equal. lia. }
    replace (2 ^ n * (4095 * (Z.pos m * 2 ^ (e + 149))))
      with (4095 * Z.pos m * (2 ^ n * 2 ^ (e + 149))) by ring.
    rewrite Hsplit. ring.
Qed.

(** The quotient, remainder and exponent that the division by 180.0f
    hands to the rounding. *)
Lemma div_core_180 (m : positive) (e : Z) :
  bounded 24 128 m e = true ->
  let e' := Z.max (Zdigits2 (Z.pos m) + e - 32) (-149) in
  let s := e + 16 - e' in
  SFdiv_core_binary 24 128 (Z.pos m) e 11796480 (-16)
    = ((Z.pos m * 2 ^ s) / 11796480, e',
       location_of ((Z.pos m * 2 ^ s) mod 11796480) 11796480).
Proof.
  intros Hb e' s. apply bounded_elim in Hb. destruct Hb as (Hm & He & Hcan).
  pose proof (Zdigits2_le (Z.pos m) 24 ltac:(lia) ltac:(lia)) as Hd.
  pose proof (Zdigits2_nonneg (Z.pos m)) as Hd0.
  unfold SFdiv_core_binary. cbv zeta.
  change (Zdigits2 11796480) with 24. rewrite fexp_eq.
  match goal with
  | |- context [Z.min ?a ?b] =>
      replace (Z.min a b) with e' by (unfold e'; lia)
  end.
  replace (e - -16 - e') with s by (unfold s; lia).
  assert (Hs : 0 < s) by (unfold s, e'; lia).
  destruct s as [|p|p] eqn:Es; [lia| |lia].
  rewrite Z.shiftl_mul_pow2 by lia.
  unfold Z.div, Z.modulo.
  destruct (Z.div_eucl (Z.pos m * 2 ^ Z.pos p) 11796480) as [q r].
  reflexivity.
Qed.

(** The quotient by 180.0f is a binary32 value nearest to the exact
    quotient. *)
Lemma div_180_nearest (x : F32.float) :
  nonneg_valid x ->
  let f := F32.div x (F32.of_Z 180) in
  nonneg_valid f /\ nearest_to (F32_scaled x) 180 (F32_scaled f).
Proof.
  intros Hx f. subst f. rewrite of_Z_180.
  destruct Hx as [[s ->] | (m & e & -> & Hb)].
  - cbn [F32.div SFdiv F32_scaled].
    split; [left; eexists; reflexivity|].
    split; [apply representable_0|]. intros G _. cbn. lia.
  - unfold F32.div, SFdiv. change F32.prec with 24. change F32.emax with 128.
    rewrite (div_core_180 m e Hb). cbv zeta. cbn [xorb].
    apply bounded_elim in Hb. destruct Hb as (Hm & He & Hcan).
    pose proof (Zdigits2_le (Z.pos m) 24 ltac:(lia) ltac:(lia)) as Hd.
    pose proof (Zdigits2_bounds (Z.pos m) ltac:(lia)) as Hdb.
    assert (Hd1 : 1 <= Zdigits2 (Z.pos m)) by (cbn; lia).
    set (e' := Z.max (Zdigits2 (Z.pos m) + e - 32) (-149)).
    set (s := e + 16 - e').
    assert (Hs : 0 < s) by (unfold s, e'; lia).
    set (m' := Z.pos m * 2 ^ s).
    assert (H2s : 0 < 2 ^ s) by (apply Z.pow_pos_nonneg; lia).
    assert (Hm' : 0 < m') by (unfold m'; nia).
    set (q := m' / 11796480). set (r := m' mod 11796480).
    assert (Hdm := Z.div_mod m' 11796480 ltac:(lia)). fold q r in Hdm.
    assert (Hr := Z.mod_pos_bound m' 11796480 ltac:(lia)). fold r in Hr.
    assert (Hq0 : 0 <= q) by (apply Z.div_pos; lia).
    (* the size of the quotient *)
    assert (Hup : m' < 2 ^ (Zdigits2 (Z.pos m) + s)).
    { unfold m'. rewrite Z.pow_add_r by lia.
      apply Z.mul_lt_mono_pos_r; lia. }
    assert (Hdq : Zdigits2 q <= Z.max (Zdigits2 (Z.pos m) + s - 23) 0).
    { destruct (Z_le_gt_dec 23 (Zdigits2 (Z.pos m) + s)) as [Hbig | Hsmall].
      - apply Z.le_trans with (Zdigits2 (Z.pos m) + s - 23); [|lia].
        apply Zdigits2_le; [|lia]. split; [exact Hq0|].
        apply Z.div_lt_upper_bound; [lia|].
        apply Z.lt_le_trans with (2 ^ (Zdigits2 (Z.pos m) + s)); [exact Hup|].
        replace (Zdigits2 (Z.pos m) + s)
          with (23 + (Zdigits2 (Z.pos m) + s - 23)) at 1 by lia.
        rewrite Z.pow_add_r by lia.
        apply Z.mul_le_mono_nonneg_r; [apply Z.pow_nonneg; lia|].
        change (2 ^ 23) with 8388608. lia.
      - assert (2 ^ (Zdigits2 (Z.pos m) + s) <= 2 ^ 23)
          by (apply Z.pow_le_mono_r; lia).
        change (2 ^ 23) with 8388608 in *.
        assert (q = 0) by (apply Z.div_small; lia).
        replace q with 0 by lia. cbn. lia. }
    assert (Hqlow : e' <> -149 -> 24 <= Zdigits2 q).
    { intro Hne. assert (Hs' : s = 48 - Zdigits2 (Z.pos m))
        by (unfold s, e' in *; lia).
      apply Zdigits2_ge; [|lia]. change (24 - 1) with 23.
      apply Z.div_le_lower_bound; [lia|].
      apply Z.le_trans with (2 ^ 24 * 2 ^ 23);
        [apply Z.mul_le_mono_nonneg_r; cbn; lia|].
      apply Z.le_trans with (2 ^ (Zdigits2 (Z.pos m) - 1) * 2 ^ s).
      - rewrite <- !Z.pow_add_r by lia. apply Z.pow_le_mono_r; lia.
      - unfold m'. apply Z.mul_le_mono_nonneg_r; lia. }
    pose proof (Zdigits2_nonneg q) as Hdq0.
    pose proof (binary_round_aux_nearest q e' r 11796480) as H.
    cbv zeta in H. rewrite fexp_eq in H.
    set (n := Z.max (Zdigits2 q + e' - 24) (-149) - e') in *.
    assert (Hn : 0 <= n).
    { unfold n. destruct (Z.eq_dec e' (-149)) as [Heq | Hne]; [lia|].
      specialize (Hqlow Hne). lia. }
    specialize (H Hq0 ltac:(lia) Hr Hn ltac:(unfold n, s, e' in *; lia)).
    destruct H as [Hv Hnear]. split; [exact Hv|].
    cbn [F32_scaled]. rewrite Z.shiftl_mul_pow2 by lia.
    apply (nearest_to_scale (2 ^ n * 65536));
      [apply Z.mul_pos_pos; [apply Z.pow_pos_nonneg|]; lia|].
    replace (2 ^ n * 65536 * 180) with (2 ^ n * 11796480) by ring.
    replace (2 ^ n * 65536 * (Z.pos m * 2 ^ (e + 149)))
      with ((q * 11796480 + r) * 2 ^ (e' + n + 149)); [exact Hnear|].
    replace (q * 11796480 + r) with m' by lia. unfold m'.
    assert (Hpow : 2 ^ s * 2 ^ (e' + n + 149)
                   = 2 ^ n * 2 ^ 16 * 2 ^ (e + 149)).
    { rewrite <- !Z.pow_add_r by (unfold n, s, e' in *; lia).
      f_equal. unfold s. lia. }
    change 65536 with (2 ^ 16).
    replace (Z.pos m * 2 ^ s * 2 ^ (e' + n + 149))
      with (Z.pos m * (2 ^ s * 2 ^ (e' + n + 149))) by ring.
    rewrite Hpow. ring.
Qed.

(** Well-formed positive floats are ordered by exponent first. *)
Lemma canonical_lt (m1 m2 : positive) (e1 e2 : Z) :
  bounded 24 128 m1 e1 = true -> bounded 24 128 m2 e2 = true ->
  e1 < e2 ->
  Z.pos m1 * 2 ^ (e1 + 149) < Z.pos m2 * 2 ^ (e2 + 149).
Proof.
  intros H1 H2 Hlt.
  apply bounded_elim in H1. destruct H1 as (Hm1 & He1 & _).
  apply bounded_elim in H2. destruct H2 as (_ & He2 & Hcan).
  destruct Hcan as [-> | Hbig]; [lia|].
  assert (0 < 2 ^ (e1 + 149)) by (apply Z.pow_pos_nonneg; lia).
  assert (0 < 2 ^ (e2 + 149)) by (apply Z.pow_pos_nonneg; lia).
  apply Z.lt_le_trans with (2 ^ 24 * 2 ^ (e1 + 149));
    [apply Z.mul_lt_mono_pos_r; lia|].
  apply Z.le_trans with (2 ^ 23 * 2 ^ (e2 + 149));
    [|apply Z.mul_le_mono_nonneg_r; lia].
  rewrite <- !Z.pow_add_r by lia. apply Z.pow_le_mono_r; lia.
Qed.

Lemma SFcompare_scaled (m1 m2 : positive) (e1 e2 : Z) :
  bounded 24 128 m1 e1 = true -> bounded 24 128 m2 e2 = true ->
  SFcompare (S754_finite false m1 e1) (S754_finite false m2 e2)
    = Some (F32_scaled (S754_finite false m1 e1)
              ?= F32_scaled (S754_finite false m2 e2)).
Proof.
  intros H1 H2.
  pose proof (bounded_elim _ _ H1) as (_ & He1 & _).
  pose proof (bounded_elim _ _ H2) as (_ & He2 & _).
  cbn [SFcompare F32_scaled]. rewrite !Z.shiftl_mul_pow2 by lia. f_equal.
  destruct (Z.compare_spec e1 e2) as [Heq | Hlt | Hgt].
  - subst e2. assert (0 < 2 ^ (e1 + 149)) by (apply Z.pow_pos_nonneg; lia).
    change (Pos.compare_cont Eq m1 m2) with (Z.pos m1 ?= Z.pos m2).
    destruct (Z.compare_spec (Z.pos m1) (Z.pos m2)) as [E | L | G];
      symmetry.
    + apply Z.compare_eq_iff. rewrite E. reflexivity.
    + apply Z.compare_lt_iff. apply Z.mul_lt_mono_pos_r; lia.
    + apply Z.compare_gt_iff. apply Z.mul_lt_mono_pos_r; lia.
  - symmetry. apply Z.compare_lt_iff. apply canonical_lt; assumption.
  - symmetry. apply Z.compare_gt_iff. apply canonical_lt; assumption.
Qed.

(** Two well-formed non-negative floats of the same value are the same
    float, or both are zeros. *)
Lemma nonneg_valid_same_scaled (x y : F32.float) :
  nonneg_valid x -> nonneg_valid y -> F32_scaled x = F32_scaled y ->
  x = y \/ ((exists s, x = S754_zero s) /\ (exists s, y = S754_zero s)).
Proof.
  intros Hx Hy Heq.
  pose proof (nonneg_valid_scaled x Hx) as [_ Hx0].
  pose proof (nonneg_valid_scaled y Hy) as [_ Hy0].
  destruct Hx as [Zx | (m1 & e1 & -> & H1)].
  - right. split; [exact Zx|]. apply Hy0. destruct Zx as [s ->].
    symmetry. exact Heq.
  - destruct Hy as [[s ->] | (m2 & e2 & -> & H2)].
    + destruct (Hx0 Heq) as [s' Hs']. discriminate Hs'.
    + left. pose proof (SFcompare_scaled m1 m2 e1 e2 H1 H2) as Hc.
      rewrite Heq, Z.compare_refl in Hc. cbn [SFcompare] in Hc.
      injection Hc as Hc.
      destruct (Z.compare_spec e1 e2) as [He | He | He]; try discriminate.
      subst e2. apply Pos.compare_eq in Hc. subst m2. reflexivity.
Qed.

(** The order of floats, read on the scaled values. *)
Lemma leb_nonneg (x y : F32.float) :
  valid_binary 24 128 x = true ->
  F32.leb (S754_zero false) x = true ->
  nonneg_valid y -> F32.leb x y = true ->
  nonneg_valid x /\ F32_scaled x <= F32_scaled y.
Proof.
  intros Hv H0 Hy Hle.
  pose proof (nonneg_valid_scaled y Hy) as [Hy0 _].
  unfold F32.leb, SFleb in *.
  destruct x as [s | s | | s m e]; cbn [SFcompare] in H0.
  - split; [left; exists s; reflexivity | exact Hy0].
  - destruct s; [discriminate|].
    destruct Hy as [[s ->] | (m2 & e2 & -> & _)]; discriminate Hle.
  - discriminate.
  - destruct s; [discriminate|]. cbn [valid_binary] in Hv.
    split; [right; exists m, e; split; [reflexivity | exact Hv]|].
    destruct Hy as [[s ->] | (m2 & e2 & -> & H2)]; [discriminate Hle|].
    rewrite (SFcompare_scaled m m2 e e2 Hv H2) in Hle.
    destruct (Z.compare_spec (F32_scaled (S754_finite false m e))
                (F32_scaled (S754_finite false m2 e2))); [lia | lia | discriminate].
Qed.

(** The cast cuts the scaled value to its integer part. *)
Lemma to_uint16_scaled (g : F32.float) :
  nonneg_valid g -> F32_scaled g <= 65535 * 2 ^ 149 ->
  F32.to_uint16 g = F32_scaled g / 2 ^ 149.
Proof.
  intros [[s ->] | (m & e & -> & Hb)] Hle; [reflexivity|].
  apply bounded_elim in Hb. destruct Hb as (_ & He & _).
  cbn [F32_scaled] in *. rewrite Z.shiftl_mul_pow2 in * by lia.
  assert (HP : 0 < 2 ^ 149) by (apply Z.pow_pos_nonneg; lia).
  set (a := if 0 <=? e then Z.shiftl (Z.pos m) e else Z.shiftr (Z.pos m) (- e)).
  assert (Ha : a = Z.pos m * 2 ^ (e + 149) / 2 ^ 149).
  { unfold a. destruct (Z.leb_spec 0 e) as [Hpos | Hneg].
    - rewrite Z.shiftl_mul_pow2, Z.pow_add_r by lia.
      rewrite Z.mul_assoc, Z.div_mul by lia. reflexivity.
    - rewrite Z.shiftr_div_pow2 by lia.
      replace 149 with ((e + 149) + - e) at 2 by lia.
      rewrite (Z.pow_add_r 2 (e + 149) (- e)) by lia.
      rewrite (Z.mul_comm (Z.pos m)).
      rewrite Z.div_mul_cancel_l; [reflexivity | |];
        apply Z.pow_nonzero; lia. }
  assert (Hrange : 0 <= a <= 65535).
  { rewrite Ha. split.
    - apply Z.div_pos; [|lia]. apply Z.mul_nonneg_nonneg; [lia|].
      apply Z.pow_nonneg. lia.
    - apply Z.div_le_upper_bound; [lia|]. lia. }
  unfold F32.to_uint16, F32.trunc. fold a.
  replace (0 <=? a) with true by (symmetry; apply Z.leb_le; lia).
  replace (a <=? 65535) with true by (symmetry; apply Z.leb_le; lia).
  exact Ha.
Qed.

(** The two roundings of the conversion, and the cast, on an angle of
    [[0, 180]]. *)
Lemma pulse_length_steps (a : F32.float) :
  nonneg_valid a -> F32_scaled a <= 180 * 2 ^ 149 ->
  let f := F32.div a (F32.of_Z 180) in
  let g := F32.mul f (F32.of_Z pca9685_max_pwm_value) in
  nonneg_valid f /\ F32_scaled f <= 2 ^ 149 /\
  nearest_to (F32_scaled a) 180 (F32_scaled f) /\
  nonneg_valid g /\ F32_scaled g <= 4095 * 2 ^ 149 /\
  nearest_to (4095 * F32_scaled f) 1 (F32_scaled g) /\
  pulse_length a = F32_scaled g / 2 ^ 149.
Proof.
  intros Ha Hle f g.
  destruct (div_180_nearest a Ha) as [Hf Hnf]. fold f in Hf, Hnf.
  assert (HF : F32_scaled f <= 2 ^ 149).
  { apply (nearest_upper (F32_scaled a) 180); [lia | | lia | exact Hnf].
    apply (representable_int 1). cbn. lia. }
  destruct (mul_4095_nearest f Hf HF) as [Hg Hng]. fold g in Hg, Hng.
  assert (HG : F32_scaled g <= 4095 * 2 ^ 149).
  { apply (nearest_upper (4095 * F32_scaled f) 1); [lia | | lia | exact Hng].
    apply (representable_int 4095). cbn. lia. }
  repeat (split; [assumption|]).
  unfold pulse_length. fold f g.
  apply to_uint16_scaled; [exact Hg | lia].
Qed.

(** The conversion keeps the order of the angles of [[0, 180]]. *)
Lemma pulse_length_mono (a1 a2 : F32.float) :
  nonneg_valid a1 -> nonneg_valid a2 ->
  F32_scaled a1 <= F32_scaled a2 -> F32_scaled a2 <= 180 * 2 ^ 149 ->
  0 <= pulse_length a1 <= pulse_length a2 /\
  pulse_length a2 <= pca9685_max_pwm_value.
Proof.
  intros H1 H2 Hle Hup.
  destruct (pulse_length_steps a1 H1 ltac:(lia))
    as (Hf1 & _ & Hnf1 & Hg1 & _ & Hng1 & Hp1).
  destruct (pulse_length_steps a2 H2 Hup)
    as (Hf2 & HF2 & Hnf2 & Hg2 & HG2 & Hng2 & Hp2).
  cbv zeta in *.
  set (f1 := F32.div a1 (F32.of_Z 180)) in *.
  set (f2 := F32.div a2 (F32.of_Z 180)) in *.
  set (g1 := F32.mul f1 (F32.of_Z pca9685_max_pwm_value)) in *.
  set (g2 := F32.mul f2 (F32.of_Z pca9685_max_pwm_value)) in *.
  assert (HP : 0 < 2 ^ 149) by (apply Z.pow_pos_nonneg; lia).
  pose proof (nonneg_valid_scaled g1 Hg1) as [Hg10 _].
  assert (Hzero : forall s, F32_scaled
            (F32.mul (F32.div (S754_zero s) (F32.of_Z 180))
               (F32.of_Z pca9685_max_pwm_value)) = 0)
    by (intros []; reflexivity).
  assert (HF : F32_scaled f1 <= F32_scaled f2).
  { destruct (Z.eq_dec (F32_scaled a1) (F32_scaled a2)) as [Heq | Hne].
    - destruct (nonneg_valid_same_scaled a1 a2 H1 H2 Heq)
        as [E | [[s1 E1] [s2 E2]]].
      + unfold f1, f2. rewrite E. lia.
      + unfold f1, f2. rewrite E1, E2. destruct s1, s2; cbn; lia.
    - apply (nearest_mono (F32_scaled a1) (F32_scaled a2) 180);
        [lia | lia | assumption | assumption]. }
  assert (HG : F32_scaled g1 <= F32_scaled g2).
  { destruct (Z.eq_dec (F32_scaled f1) (F32_scaled f2)) as [Heq | Hne].
    - destruct (nonneg_valid_same_scaled f1 f2 Hf1 Hf2 Heq)
        as [E | [[s1 E1] [s2 E2]]].
      + unfold g1, g2. rewrite E. lia.
      + unfold g1, g2. rewrite E1, E2. destruct s1, s2; cbn; lia.
    - apply (nearest_mono (4095 * F32_scaled f1) (4095 * F32_scaled f2) 1);
        [lia | lia | assumption | assumption]. }
  rewrite Hp1, Hp2. unfold pca9685_max_pwm_value. split; [split|].
  - apply Z.div_pos; lia.
  - apply Z.div_le_mono; lia.
  - apply Z.div_le_upper_bound; lia.
Qed.

Lemma nonneg_validb_sound (f : F32.float) :
  nonneg_validb f = true -> nonneg_valid f.
Proof.
  destruct f as [s | s | | s m e]; cbn [nonneg_validb]; try discriminate.
  - intros _. left. exists s. reflexivity.
  - destruct s; [discriminate|]. intro H. right. exists m, e.
    split; [reflexivity | exact H].
Qed.

Lemma angle_in_range_sound (f : F32.float) :
  angle_in_range f = true ->
  nonneg_valid f /\ F32_scaled f <= 180 * 2 ^ 149.
Proof.
  unfold angle_in_range. intro H. apply andb_prop in H. destruct H as [Hv Hle].
  split; [apply nonneg_validb_sound; exact Hv|].
  apply Z.leb_le in Hle. rewrite Z.shiftl_mul_pow2 in Hle by lia. exact Hle.
Qed.

Lemma duty_steps_check :
  forallb duty_step_ok (Z_range 0 (Z.to_nat 4096)) = true.
Proof. vm_cast_no_check (eq_refl true). Qed.

(** Angles at least 0.044 degrees apart have different duty values. *)
Lemma pulse_length_strict (a1 a2 : F32.float) :
  nonneg_valid a1 -> nonneg_valid a2 ->
  F32_scaled a2 <= 180 * 2 ^ 149 ->
  44 * 2 ^ 149 <= 1000 * (F32_scaled a2 - F32_scaled a1) ->
  pulse_length a1 < pulse_length a2.
Proof.
  intros H1 H2 Hup Hgap.
  assert (HP : 0 < 2 ^ 149) by (apply Z.pow_pos_nonneg; lia).
  pose proof (nonneg_valid_scaled a1 H1) as [Hx1 _].
  destruct (pulse_length_mono a1 a2 H1 H2 ltac:(lia) Hup) as [[Hj0 Hle] Hmax].
  unfold pca9685_max_pwm_value in Hmax.
  set (j := pulse_length a1) in *.
  pose proof (forallb_Z_range _ 0 (Z.to_nat 4096) duty_steps_check j
                ltac:(lia)) as Hck.
  unfold duty_step_ok in Hck. cbv zeta in Hck.
  rewrite !Z.shiftl_mul_pow2 in Hck by lia.
  set (below := float_of_bits (duty_threshold j - 1)) in *.
  set (lower := if j =? 0 then 0 else F32_scaled below + 1) in *.
  apply andb_prop in Hck. destruct Hck as [Hlow Hhigh].
  assert (Hlower : lower <= F32_scaled a1).
  { unfold lower. destruct (Z.eqb_spec j 0) as [Hj | Hj]; [exact Hx1|].
    apply andb_prop in Hlow. destruct Hlow as [Hb Hpb].
    apply angle_in_range_sound in Hb. destruct Hb as [Hbv Hbu].
    apply Z.ltb_lt in Hpb.
    destruct (Z_le_gt_dec (F32_scaled a1) (F32_scaled below)) as [Hc | Hc];
      [exfalso | lia].
    destruct (pulse_length_mono a1 below H1 Hbv Hc Hbu) as [[_ Hm] _].
    fold j in Hm. lia. }
  destruct (Z.eqb_spec j 4095) as [Hj | Hj].
  - apply Z.ltb_lt in Hhigh. lia.
  - apply andb_prop in Hhigh. destruct Hhigh as [Hhigh Hreach].
    apply andb_prop in Hhigh. destruct Hhigh as [Ha Hpa].
    apply angle_in_range_sound in Ha. destruct Ha as [Hav Hau].
    apply Z.ltb_lt in Hpa. apply Z.leb_le in Hreach.
    set (above := float_of_bits (duty_threshold (j + 1))) in *.
    destruct (pulse_length_mono above a2 Hav H2 ltac:(lia) Hup) as [[_ Hm] _].
    lia.
Qed.

(** What is not below zero has nothing below zero above it. *)
Lemma leb_zero_trans (a1 a2 : F32.float) :
  F32.leb (F32.of_Z 0) a1 = true -> F32.leb a1 a2 = true ->
  F32.leb (F32.of_Z 0) a2 = true.
Proof.
  change (F32.of_Z 0) with (S754_zero false).
  unfold F32.leb, SFleb.
  destruct a1 as [[|] | [|] | | [|] m1 e1];
    destruct a2 as [[|] | [|] | | [|] m2 e2];
    cbn [SFcompare]; intros H0 H12;
    first [reflexivity | discriminate H0 | discriminate H12].
Qed.

(** C7, as the code has it.  On the angles of [[0, 180]] the conversion
    is monotonic: a larger angle never has a smaller duty value, and two
    angles at least 0.044 degrees apart ([F32_scaled] is the value times
    2^149) have different duty values.  The duty value of 0 is 0 and that
    of 180 is the maximum 4095.  (The result is cut to an integer, so
    angles closer than one duty step, 180 / 4095 degrees, can share a duty
    value.) *)
Theorem pulse_length_monotonic (a1 a2 : F32.float) :
  valid_binary F32.prec F32.emax a1 = true ->
  valid_binary F32.prec F32.emax a2 = true ->
  F32.leb (F32.of_Z 0) a1 = true ->
  F32.leb a1 a2 = true ->
  F32.leb a2 (F32.of_Z 180) = true ->
  pulse_length a1 <= pulse_length a2 /\
  (44 * 2 ^ 149 <= 1000 * (F32_scaled a2 - F32_scaled a1) ->
   pulse_length a1 < pulse_length a2) /\
  0 <= pulse_length a1 /\
  pulse_length a2 <= pca9685_max_pwm_value /\
  pulse_length (F32.of_Z 0) = 0 /\
  pulse_length (F32.of_Z 180) = pca9685_max_pwm_value.
Proof.
  intros Hv1 Hv2 H0 H12 H180.
  assert (H180v : nonneg_valid (F32.of_Z 180)).
  { right. exists 11796480%positive, (-16). split; reflexivity. }
  pose proof (leb_zero_trans a1 a2 H0 H12) as H02.
  destruct (leb_nonneg a2 (F32.of_Z 180) Hv2 H02 H180v H180) as [Hn2 Hu2].
  destruct (leb_nonneg a1 a2 Hv1 H0 Hn2 H12) as [Hn1 Hu1].
  assert (Hup : F32_scaled a2 <= 180 * 2 ^ 149).
  { etransitivity; [exact Hu2|]. cbn [F32_scaled]. rewrite of_Z_180.
    cbn [F32_scaled]. rewrite Z.shiftl_mul_pow2 by lia.
    change (-16 + 149) with 133. change 149 with (16 + 133).
    rewrite Z.pow_add_r by lia. change (2 ^ 16) with 65536. lia. }
  destruct (pulse_length_mono a1 a2 Hn1 Hn2 Hu1 Hup) as [[Hj0 Hle] Hmax].
  split; [exact Hle|]. split.
  - intro Hgap. apply pulse_length_strict; assumption.
  - split; [exact Hj0|]. split; [exact Hmax|]. split; reflexivity.
Qed.

(** 90 and 90.015625 degrees, which share a duty value, and 90 and 90.5
    degrees, which do not. *)
Lemma pulse_length_monotonic_witness :
  pulse_length (F32.of_Z 90) <= pulse_length (F32.dyadic 5761 (-6)) /\
  pulse_length (F32.of_Z 90) < pulse_length (F32.dyadic 181 (-1)).
Proof.
  split.
  - apply (pulse_length_monotonic (F32.of_Z 90) (F32.dyadic 5761 (-6)));
      reflexivity.
  - apply (pulse_length_monotonic (F32.of_Z 90) (F32.dyadic 181 (-1)));
      try reflexivity.
    vm_compute. discriminate.
Defined.

(** C7 as stated fails: 90 and 90.015625 (5761 / 64) are angles of
    [[0, 180]], the first below the second, and both convert to 2047. *)
Lemma pulse_length_not_strictly_monotonic :
  let a1 := F32.of_Z 90 in
  let a2 := F32.dyadic 5761 (-6) in
  valid_binary F32.prec F32.emax a1 = true /\
  valid_binary F32.prec F32.emax a2 = true /\
  F32.leb (F32.of_Z 0) a1 = true /\
  F32.ltb a1 a2 = true /\
  F32.leb a2 (F32.of_Z 180) = true /\
  pulse_length a1 = 2047 /\
  pulse_length a2 = 2047 /\
  ~ (pulse_length a1 < pulse_length a2).
Proof. vm_compute. repeat split; discriminate. Qed.

(* ================================================================== *)
(** * dht22_hal: the documented gate of its recovery *)
(* ================================================================== *)

(** The recovery that dht22_hal.h documents, as modelled above: in an
    error state, an invocation before [retry_interval] ticks have elapsed
    changes nothing and does not initialize; an invocation at or after
    the interval initializes and stamps [last_attempt_ticks]. *)
Lemma dht22_reset_on_error_gate cfg init d now tr :
  Z.land (dht22_state d) k_dht22_error <> 0 ->
  (dht22_elapsed d now < retry_interval d ->
   dht22_reset_on_error cfg init d now tr = (d, tr)) /\
  (retry_interval d <= dht22_elapsed d now ->
   snd (dht22_reset_on_error cfg init d now tr) = snd (init d tr) /\
   last_attempt_ticks (fst (dht22_reset_on_error cfg init d now tr)) = now).
Proof.
  intro Herr. apply Z.eqb_neq in Herr.
  unfold dht22_reset_on_error. rewrite Herr. cbn [negb].
  split; intro Hgate.
  - apply Z.ltb_lt in Hgate. rewrite Hgate. reflexivity.
  - apply Z.ltb_ge in Hgate. rewrite Hgate.
    unfold bind, ret. destruct (init d tr) as [[r d'] tr']. cbn [fst snd].
    destruct (ok r); [split; reflexivity|].
    destruct (_ <=? _); split; reflexivity.
Qed.

(* ================================================================== *)
(** * Further properties: prescaler and duty value *)
(* ================================================================== *)

(** X1.  [priv_calculate_prescaler] for a frequency of 24 to 6103 Hz
    is the quotient of the oscillator frequency by 4096 times the
    frequency, less one, without wrap-around: a value of 0 to 253 such
    that [4096 * f * (p + 1) <= 25 MHz < 4096 * f * (p + 2)].  Above 6103
    Hz the quotient is 0 and the subtraction wraps: the byte is 255. *)
Theorem priv_calculate_prescaler_range (pwm_freq : Z) :
  (24 <= pwm_freq <= 6103 ->
   let p := priv_calculate_prescaler pwm_freq in
   p = pca9685_osc_freq / (pca9685_pwm_resolution * pwm_freq) - 1 /\
   0 <= p <= 253 /\
   pca9685_pwm_resolution * pwm_freq * (p + 1) <= pca9685_osc_freq
     < pca9685_pwm_resolution * pwm_freq * (p + 2)) /\
  (6104 <= pwm_freq <= 65535 -> priv_calculate_prescaler pwm_freq = 255).
Proof.
  unfold priv_calculate_prescaler, to_uint8, to_uint32,
    pca9685_osc_freq, pca9685_pwm_resolution.
  split.
  - intros Hf. cbv zeta.
    rewrite (Z.mod_small (4096 * pwm_freq)) by lia.
    set (q := 25000000 / (4096 * pwm_freq)).
    assert (Hlo : 4096 * pwm_freq * q <= 25000000)
      by (apply Z.mul_div_le; lia).
    assert (Hhi : 25000000 < 4096 * pwm_freq * Z.succ q)
      by (apply Z.mul_succ_div_gt; lia).
    assert (Hq : 1 <= q <= 254) by nia.
    rewrite (Z.mod_small (q - 1)) by lia.
    rewrite (Z.mod_small (q - 1)) by lia.
    split; [reflexivity|]. split; [lia|]. split; [|]; nia.
  - intro Hf.
    rewrite (Z.mod_small (4096 * pwm_freq)) by lia.
    rewrite (Z.div_small 25000000) by lia.
    reflexivity.
Qed.

Lemma priv_calculate_prescaler_range_witness :
  priv_calculate_prescaler 50 = 25000000 / (4096 * 50) - 1 /\
  priv_calculate_prescaler 50 = 121 /\
  priv_calculate_prescaler 7000 = 255.
Proof.
  split; [|split].
  - apply (proj1 (priv_calculate_prescaler_range 50)). lia.
  - reflexivity.
  - apply (proj2 (priv_calculate_prescaler_range 7000)). lia.
Defined.

Lemma F32_to_uint16_range (x : F32.float) : 0 <= F32.to_uint16 x <= 65535.
Proof.
  unfold F32.to_uint16. destruct (F32.trunc x) as [z|]; [|lia].
  destruct (0 <=? z) eqn:E1; destruct (z <=? 65535) eqn:E2;
    cbn [andb]; lia.
Qed.

(** X2.  For every angle, the pulse length is a 16-bit value and the two
    bytes that [pca9685_set_angle] writes for it, [pulse & 0xFF] and
    [(pulse >> 8) & 0xFF], are bytes that recombine to it. *)
Theorem pulse_length_bytes (angle : F32.float) :
  let p := pulse_length angle in
  0 <= p <= 65535 /\
  0 <= Z.land p 0xFF <= 255 /\
  0 <= Z.land (Z.shiftr p 8) 0xFF <= 255 /\
  Z.land p 0xFF + 256 * Z.land (Z.shiftr p 8) 0xFF = p.
Proof.
  intro p.
  assert (Hp : 0 <= p <= 65535) by apply F32_to_uint16_range.
  change 0xFF with (Z.ones 8).
  rewrite !Z.land_ones by lia. rewrite Z.shiftr_div_pow2 by lia.
  change (2 ^ 8) with 256.
  assert (0 <= p / 256 < 256)
    by (split; [apply Z.div_pos; lia | apply Z.div_lt_upper_bound; lia]).
  rewrite (Z.mod_small (p / 256)) by lia.
  pose proof (Z.mod_pos_bound p 256 ltac:(lia)).
  pose proof (Z.div_mod p 256 ltac:(lia)).
  change (Z.ones 8) with 255.
  repeat split; lia.
Qed.

Lemma pulse_length_formula_check :
  forallb (fun a => pulse_length (F32.of_Z a)
                    =? a * pca9685_max_pwm_value / 180)
    (Z_range 0 (Z.to_nat 2881)) = true.
Proof. vm_cast_no_check (eq_refl true). Qed.

(** X3.  On whole degrees from 0 to 2880 the single-precision
    computation of the pulse length agrees with integer arithmetic: it is
    the integer part of [a * 4095 / 180].  The function does not clamp:
    the value stays within the maximum 4095 exactly when [a <= 180]. *)
Theorem pulse_length_whole_degree_formula (a : Z) :
  0 <= a <= 2880 ->
  pulse_length (F32.of_Z a) = a * pca9685_max_pwm_value / 180 /\
  (pulse_length (F32.of_Z a) <= pca9685_max_pwm_value <-> a <= 180).
Proof.
  intro Ha.
  pose proof (forallb_Z_range _ 0 (Z.to_nat 2881) pulse_length_formula_check
                a ltac:(lia)) as H.
  cbv beta in H. apply Z.eqb_eq in H.
  split; [exact H|]. rewrite H. unfold pca9685_max_pwm_value.
  split; intro Hle.
  - destruct (Z_le_gt_dec a 180) as [Hok | Hgt]; [exact Hok|].
    exfalso.
    assert (4096 <= a * 4095 / 180)
      by (apply Z.div_le_lower_bound; lia).
    lia.
  - apply Z.div_le_upper_bound; lia.
Qed.

Lemma pulse_length_whole_degree_formula_witness :
  pulse_length (F32.of_Z 181) = 4117 /\
  ~ pulse_length (F32.of_Z 181) <= pca9685_max_pwm_value.
Proof.
  destruct (pulse_length_whole_degree_formula 181 ltac:(lia)) as [Heq Hiff].
  split; [exact Heq|]. intro H. apply Hiff in H. lia.
Defined.

(* ================================================================== *)
(** * Further properties: the conversions of mpu6050_read *)
(* ================================================================== *)

Lemma strictly_increasing_by_steps (f : Z -> Z) (lo hi : Z) :
  (forall z, lo <= z < hi -> f z < f (z + 1)) ->
  forall z1 z2, lo <= z1 -> z1 < z2 -> z2 <= hi -> f z1 < f z2.
Proof.
  intros Hstep z1 z2 H1 Hlt H2.
  assert (Hgen : forall k : nat, z1 + 1 + Z.of_nat k <= hi ->
            f z1 < f (z1 + 1 + Z.of_nat k)).
  { induction k as [|k IH]; intro Hb.
    - rewrite Z.add_0_r. apply Hstep. lia.
    - apply Z.lt_trans with (f (z1 + 1 + Z.of_nat k)); [apply IH; lia|].
      replace (z1 + 1 + Z.of_nat (S k)) with (z1 + 1 + Z.of_nat k + 1) by lia.
      apply Hstep. lia. }
  replace z2 with (z1 + 1 + Z.of_nat (Z.to_nat (z2 - z1 - 1))) by lia.
  apply Hgen. lia.
Qed.

(** X4.  The raw value that [mpu6050_read] forms from two bytes of a
    buffer is the big-endian two's complement reading of them:
    [256 * hi + lo], less 65536 when [hi >= 128]; it lies in
    [-32768, 32767]. *)
Theorem raw16_big_endian (bs : list Z) (i : nat) :
  let buf := map to_uint8 bs in
  let hi := nth i buf 0 in
  let lo := nth (S i) buf 0 in
  raw16 buf i
    = (if hi <? 128 then 256 * hi + lo else 256 * hi + lo - 65536) /\
  -32768 <= raw16 buf i <= 32767.
Proof.
  intros buf hi lo. split; [|apply to_int16_range].
  pose proof (buffer_byte_range bs i) as Hhi.
  pose proof (buffer_byte_range bs (S i)) as Hlo.
  fold buf in Hhi, Hlo. fold hi in Hhi. fold lo in Hlo.
  pose proof (forallb_Z_range _ 0 (Z.to_nat 256) raw16_check hi ltac:(lia)) as H.
  cbv beta in H.
  pose proof (forallb_Z_range _ 0 (Z.to_nat 256) H lo ltac:(lia)) as H'.
  cbv beta in H'. apply Z.eqb_eq in H'.
  rewrite <- H'. reflexivity.
Qed.

Lemma table_ok_sound P g : forall n lo prev,
  table_ok P g lo n prev = true ->
  (forall z, lo <= z < lo + Z.of_nat n -> P z (g z) = true) /\
  (forall z, lo <= z -> z + 1 < lo + Z.of_nat n ->
     F32_scaled (g z) < F32_scaled (g (z + 1))) /\
  (forall p, prev = Some p -> (0 < n)%nat -> p < F32_scaled (g lo)).
Proof.
  induction n as [|n IH]; intros lo prev H.
  - repeat split; intros; lia.
  - cbn [table_ok] in H. cbv zeta in H.
    apply andb_prop in H. destruct H as [H Hrest].
    apply andb_prop in H. destruct H as [HP Hprev].
    destruct (IH _ _ Hrest) as (IHP & IHstep & IHprev).
    split; [|split].
    + intros z Hz. destruct (Z.eq_dec z lo) as [-> | Hne]; [exact HP|].
      apply IHP. lia.
    + intros z Hz1 Hz2. destruct (Z.eq_dec z lo) as [-> | Hne].
      * apply (IHprev _ eq_refl). lia.
      * apply IHstep; lia.
    + intros p -> _. apply Z.ltb_lt. exact Hprev.
Qed.

Lemma accel_table :
  table_ok (fun raw x =>
              F32_is_finite x && (Z.shiftl (F32_scaled x) 11 =? Z.shiftl raw 149))
    accel_of_raw (-32768) (Z.to_nat 65536) None = true.
Proof. vm_cast_no_check (eq_refl true). Qed.

Lemma gyro_table :
  table_ok (fun raw x =>
              let s := F32_scaled x in
              F32_is_finite x
              && (Z.shiftl (Z.abs (164 * s - Z.shiftl (10 * raw) 149)) 23
                    <=? Z.shiftl (Z.abs (10 * raw)) 149)
              && (Z.abs s <? Z.shiftl 2000 149))
    gyro_of_raw (-32768) (Z.to_nat 65536) None = true.
Proof. vm_cast_no_check (eq_refl true). Qed.

Lemma raw16_range (buf : list Z) (i : nat) : -32768 <= raw16 buf i <= 32767.
Proof. unfold raw16. apply to_int16_range. Qed.

Lemma accel_table_facts (raw : Z) :
  -32768 <= raw <= 32767 ->
  F32_is_finite (accel_of_raw raw) = true /\
  F32_scaled (accel_of_raw raw) * 2048 = raw * 2 ^ 149.
Proof.
  intro Hraw.
  destruct (table_ok_sound _ _ _ _ _ accel_table) as (HP & _ & _).
  specialize (HP raw ltac:(lia)). cbv beta in HP.
  apply andb_prop in HP. destruct HP as [Hfin Heq].
  apply Z.eqb_eq in Heq.
  rewrite !Z.shiftl_mul_pow2 in Heq by lia.
  split; [exact Hfin | exact Heq].
Qed.

Lemma gyro_table_facts (raw : Z) :
  -32768 <= raw <= 32767 ->
  let s := F32_scaled (gyro_of_raw raw) in
  F32_is_finite (gyro_of_raw raw) = true /\
  Z.abs (164 * s - 10 * raw * 2 ^ 149) * 2 ^ 23 <= Z.abs (10 * raw) * 2 ^ 149 /\
  Z.abs s < 2000 * 2 ^ 149.
Proof.
  intros Hraw s.
  destruct (table_ok_sound _ _ _ _ _ gyro_table) as (HP & _ & _).
  specialize (HP raw ltac:(lia)). cbv beta zeta in HP.
  apply andb_prop in HP. destruct HP as [HP Hbound].
  apply andb_prop in HP. destruct HP as [Hfin Hacc].
  apply Z.leb_le in Hacc. apply Z.ltb_lt in Hbound.
  rewrite !Z.shiftl_mul_pow2 in Hacc by lia.
  rewrite !Z.shiftl_mul_pow2 in Hbound by lia.
  split; [exact Hfin|]. split; [exact Hacc | exact Hbound].
Qed.

Lemma accel_of_raw_increasing (r1 r2 : Z) :
  -32768 <= r1 -> r1 < r2 -> r2 <= 32767 ->
  F32_scaled (accel_of_raw r1) < F32_scaled (accel_of_raw r2).
Proof.
  destruct (table_ok_sound _ _ _ _ _ accel_table) as (_ & Hstep & _).
  apply (strictly_increasing_by_steps
           (fun r => F32_scaled (accel_of_raw r)) (-32768) 32767).
  intros z Hz. apply Hstep; lia.
Qed.

Lemma gyro_of_raw_increasing (r1 r2 : Z) :
  -32768 <= r1 -> r1 < r2 -> r2 <= 32767 ->
  F32_scaled (gyro_of_raw r1) < F32_scaled (gyro_of_raw r2).
Proof.
  destruct (table_ok_sound _ _ _ _ _ gyro_table) as (_ & Hstep & _).
  apply (strictly_increasing_by_steps
           (fun r => F32_scaled (gyro_of_raw r)) (-32768) 32767).
  intros z Hz. apply Hstep; lia.
Qed.

(** X5.  The acceleration that [mpu6050_read] stores is exact: the
    division by the sensitivity 2048 does not round, so the stored value
    times 2048 is the raw value, and it lies in [-16, 16) g. *)
Theorem mpu6050_accel_exact (buf : list Z) (i : nat) :
  let x := axis buf i (F32.of_Z 2048) in
  F32_is_finite x = true /\
  F32_scaled x * 2048 = raw16 buf i * 2 ^ 149 /\
  -16 * 2 ^ 149 <= F32_scaled x < 16 * 2 ^ 149.
Proof.
  intro x.
  pose proof (raw16_range buf i) as Hraw.
  destruct (accel_table_facts (raw16 buf i) Hraw) as [Hfin Heq].
  change (accel_of_raw (raw16 buf i)) with x in Hfin, Heq.
  split; [exact Hfin|]. split; [exact Heq|].
  assert (0 < 2 ^ 149) by (apply Z.pow_pos_nonneg; lia).
  nia.
Qed.

(** X6.  The angular rate that [mpu6050_read] stores is the raw value
    divided by 16.4 to within a relative error of 2^-23, and lies strictly
    between -2000 and 2000 degrees per second. *)
Theorem mpu6050_gyro_accuracy (buf : list Z) (i : nat) :
  let raw := raw16 buf i in
  let x := axis buf i (F32.lit 164 10) in
  let s := F32_scaled x in
  F32_is_finite x = true /\
  Z.abs (164 * s - 10 * raw * 2 ^ 149) * 2 ^ 23 <= Z.abs (10 * raw) * 2 ^ 149 /\
  - (2000 * 2 ^ 149) < s < 2000 * 2 ^ 149.
Proof.
  intros raw x s.
  destruct (gyro_table_facts raw (raw16_range buf i)) as (Hfin & Hacc & Hb).
  change (gyro_of_raw raw) with x in Hfin, Hacc, Hb. fold s in Hacc, Hb.
  split; [exact Hfin|]. split; [exact Hacc|]. lia.
Qed.

(** X7.  Both conversions of [mpu6050_read] keep the order of the raw
    values: a smaller raw value gives a smaller acceleration and a smaller
    angular rate. *)
Theorem mpu6050_conversion_keeps_order (buf1 buf2 : list Z) (i1 i2 : nat) :
  raw16 buf1 i1 < raw16 buf2 i2 ->
  F32_scaled (axis buf1 i1 (F32.of_Z 2048))
    < F32_scaled (axis buf2 i2 (F32.of_Z 2048)) /\
  F32_scaled (axis buf1 i1 (F32.lit 164 10))
    < F32_scaled (axis buf2 i2 (F32.lit 164 10)).
Proof.
  intro Hlt.
  pose proof (raw16_range buf1 i1). pose proof (raw16_range buf2 i2).
  split.
  - apply (accel_of_raw_increasing (raw16 buf1 i1) (raw16 buf2 i2)); lia.
  - apply (gyro_of_raw_increasing (raw16 buf1 i1) (raw16 buf2 i2)); lia.
Qed.

Lemma mpu6050_conversion_keeps_order_witness :
  F32_scaled (axis [0xFF; 0xFF] 0 (F32.of_Z 2048))
    < F32_scaled (axis [0x00; 0x01] 0 (F32.of_Z 2048)) /\
  F32_scaled (axis [0xFF; 0xFF] 0 (F32.lit 164 10))
    < F32_scaled (axis [0x00; 0x01] 0 (F32.lit 164 10)).
Proof.
  apply (mpu6050_conversion_keeps_order [0xFF; 0xFF] [0x00; 0x01] 0 0).
  vm_compute. reflexivity.
Defined.

(* ================================================================== *)
(** * Further properties: mpu6050_init and the task loop *)
(* ================================================================== *)

Lemma answered_firstn env cs : forall k tr,
  firstn k (answered env tr cs) = answered env tr (firstn k cs).
Proof.
  induction cs as [|c cs IH]; intros k tr.
  - destruct k; reflexivity.
  - destruct k as [|k]; [reflexivity|].
    cbn [firstn answered]. rewrite IH. reflexivity.
Qed.

Lemma answered_length env cs : forall tr,
  length (answered env tr cs) = length cs.
Proof.
  induction cs as [|c cs IH]; intro tr; cbn [answered length];
    [|rewrite IH]; reflexivity.
Qed.

Lemma nth_firstn_below {A} (d : A) : forall (l : list A) (k : nat),
  nth k (firstn (S k) l) d = nth k l d.
Proof.
  induction l as [|a l IH]; intro k.
  - destruct k; reflexivity.
  - destruct k as [|k]; [reflexivity|]. cbn [firstn nth]. apply IH.
Qed.

Lemma firstn_nth_split {A} (d : A) : forall (l : list A) (k : nat),
  length l = S k -> l = firstn k l ++ [nth k l d].
Proof.
  induction l as [|a l IH]; intros k Hlen; [discriminate|].
  destruct k as [|k].
  - destruct l; [reflexivity | discriminate].
  - cbn [firstn nth app]. f_equal. apply IH.
    cbn [length] in Hlen. lia.
Qed.

(** A call of the sequence that fails keeps the whole from succeeding. *)
Lemma answered_failure_not_all env cs tr (k : nat) :
  (k < length cs)%nat ->
  ~ succeeded (nth k (answered env tr (firstn (S k) cs)) no_event) ->
  ~ Forall succeeded (answered env tr cs).
Proof.
  intros Hk Hfail Hall. apply Hfail.
  rewrite <- answered_firstn, nth_firstn_below.
  rewrite Forall_forall in Hall. apply Hall. apply nth_In.
  rewrite answered_length. exact Hk.
Qed.

(** X8.  [mpu6050_init] leaves the state [ready] exactly when its nine
    bus calls succeed and the byte read from the identity register is the
    expected one. *)
Theorem mpu6050_init_ready_iff hdr env d tr :
  let evs := answered env tr (mpu6050_init_calls hdr) in
  state (snd (fst (mpu6050_init hdr env d tr))) = k_mpu6050_ready <->
  Forall succeeded evs /\
  first_byte (last evs no_event) = k_mpu6050_who_am_i_response hdr.
Proof.
  intro evs.
  destruct (answered_first_failure env (mpu6050_init_calls hdr) tr)
    as [Hall | (k & Hk & Hpre & Hfail)].
  - rewrite (mpu6050_init_all_succeed hdr env d tr Hall). cbn [fst snd].
    fold evs.
    destruct (first_byte (last evs no_event)
              =? k_mpu6050_who_am_i_response hdr) eqn:E.
    + apply Z.eqb_eq in E. cbn. tauto.
    + apply Z.eqb_neq in E. cbn. split; [discriminate | tauto].
  - rewrite (mpu6050_init_fails_at hdr env d tr k Hk Hpre Hfail).
    cbn [fst snd set_state state].
    pose proof (answered_failure_not_all env _ tr k Hk Hfail) as Hnot.
    split; [|intros [Hall _]; contradiction].
    cbn [length mpu6050_init_calls] in Hk.
    do 9 (destruct k as [|k]; [cbn; discriminate|]). lia.
Qed.

(** X9.  Every run of [mpu6050_init] makes between one and nine bus
    calls, an initial part of its fixed sequence in which every call but
    the last succeeded (and the last failed when the run stopped short of
    nine); whatever the structure held, its address and bus are the
    constants afterwards. *)
Theorem mpu6050_init_bus_traffic hdr env d tr :
  exists n,
    (1 <= n <= 9)%nat /\
    let evs := answered env tr (firstn n (mpu6050_init_calls hdr)) in
    snd (mpu6050_init hdr env d tr) = tr ++ evs /\
    Forall succeeded (removelast evs) /\
    ((n < 9)%nat -> ~ succeeded (last evs no_event)) /\
    i2c_address (snd (fst (mpu6050_init hdr env d tr))) = mpu6050_i2c_address /\
    i2c_bus (snd (fst (mpu6050_init hdr env d tr))) = mpu6050_i2c_bus.
Proof.
  destruct (mpu6050_init_device hdr env d tr) as [s Hs].
  destruct (answered_first_failure env (mpu6050_init_calls hdr) tr)
    as [Hall | (k & Hk & Hpre & Hfail)].
  - exists 9%nat. split; [lia|]. cbv zeta.
    change (firstn 9 (mpu6050_init_calls hdr)) with (mpu6050_init_calls hdr).
    rewrite Hs. rewrite (mpu6050_init_all_succeed hdr env d tr Hall).
    cbn [fst snd]. split; [reflexivity|]. split.
    + remember (answered env tr (mpu6050_init_calls hdr)) as evs.
      clear - Hall. induction Hall as [|e l He Hl IH]; [constructor|].
      destruct l; [constructor|]. cbn [removelast] in *.
      constructor; [exact He | exact IH].
    + split; [lia | split; reflexivity].
  - cbn [length mpu6050_init_calls] in Hk.
    exists (S k). split; [lia|]. cbv zeta.
    rewrite Hs. rewrite (mpu6050_init_fails_at hdr env d tr k Hk Hpre Hfail).
    cbn [fst snd].
    set (evs := answered env tr (firstn (S k) (mpu6050_init_calls hdr))) in *.
    assert (Hlen : length evs = S k).
    { unfold evs. rewrite answered_length, length_firstn.
      cbn [length mpu6050_init_calls]. lia. }
    pose proof (firstn_nth_split no_event evs k Hlen) as Hsplit.
    split; [reflexivity|]. split; [|split; [|split; reflexivity]].
    + rewrite Hsplit, removelast_last. exact Hpre.
    + intros _. rewrite Hsplit, last_last. exact Hfail.
Qed.

Lemma mpu6050_init_trace hdr env d tr :
  exists new,
    snd (mpu6050_init hdr env d tr) = tr ++ new /\ (length new <= 9)%nat.
Proof.
  destruct (answered_first_failure env (mpu6050_init_calls hdr) tr)
    as [Hall | (k & Hk & Hpre & Hfail)].
  - rewrite (mpu6050_init_all_succeed hdr env d tr Hall). cbn [snd].
    eexists. split; [reflexivity|]. rewrite answered_length. cbn. lia.
  - rewrite (mpu6050_init_fails_at hdr env d tr k Hk Hpre Hfail). cbn [snd].
    eexists. split; [reflexivity|].
    rewrite answered_length, length_firstn.
    cbn [length mpu6050_init_calls]. lia.
Qed.

Lemma mpu6050_read_outcome hdr env d tr :
  exists d1 new,
    mpu6050_read hdr env (Some d) tr = (Some d1, tr ++ new) /\
    (length new <= 2)%nat /\
    (state d1 = k_mpu6050_data_updated \/ state d1 = k_mpu6050_error).
Proof.
  unfold mpu6050_read. unfold_port. cbn [fst snd].
  match goal with
  | |- context [if negb (ok (status ?ra)) then _ else _] =>
      destruct (ok (status ra)); cbn [negb]
  end.
  - match goal with
    | |- context [if negb (ok (status ?rg)) then _ else _] =>
        destruct (ok (status rg)); cbn [negb]
    end.
    + do 2 eexists. rewrite <- app_assoc.
      split; [reflexivity|]. split; [cbn; lia | left; reflexivity].
    + do 2 eexists. rewrite <- app_assoc.
      split; [reflexivity|]. split; [cbn; lia | right; reflexivity].
  - do 2 eexists. split; [reflexivity|].
    split; [cbn; lia | right; reflexivity].
Qed.

Lemma mpu6050_reset_on_error_outcome hdr env d tr :
  exists new,
    snd (mpu6050_reset_on_error hdr env d tr) = tr ++ new /\
    (length new <= 9)%nat /\
    ((mpu6050_error_bits hdr (state d) = 0 /\
      fst (mpu6050_reset_on_error hdr env d tr) = d) \/
     (mpu6050_error_bits hdr (state d) <> 0 /\
      (state (fst (mpu6050_reset_on_error hdr env d tr)) = k_mpu6050_ready \/
       state (fst (mpu6050_reset_on_error hdr env d tr))
         = k_mpu6050_reset_error))).
Proof.
  unfold mpu6050_reset_on_error.
  destruct (mpu6050_error_bits hdr (state d) =? 0) eqn:Hbits; cbn [negb].
  - apply Z.eqb_eq in Hbits. exists []. rewrite app_nil_r.
    split; [reflexivity|]. split; [cbn; lia|]. left. split; [exact Hbits | reflexivity].
  - apply Z.eqb_neq in Hbits. unfold bind, ret.
    destruct (mpu6050_init_trace hdr env d tr) as (new & Htr & Hlen).
    destruct (mpu6050_init hdr env d tr) as [[r d'] tr']. cbn [fst snd] in *.
    exists new. subst tr'.
    destruct (ok r); cbn [fst snd];
      (split; [reflexivity|]; split; [exact Hlen|]; right;
       split; [exact Hbits|]); [left | right]; reflexivity.
Qed.

(** One turn of the task loop. *)
Lemma mpu6050_tasks_turn_outcome hdr env d tr :
  mpu6050_state_code hdr k_mpu6050_error <> 0 ->
  exists new,
    snd (mpu6050_tasks_turn hdr env d tr) = tr ++ new /\
    (length new <= 11)%nat /\
    (state (fst (mpu6050_tasks_turn hdr env d tr)) = k_mpu6050_data_updated \/
     state (fst (mpu6050_tasks_turn hdr env d tr)) = k_mpu6050_ready \/
     state (fst (mpu6050_tasks_turn hdr env d tr)) = k_mpu6050_reset_error).
Proof.
  intro Hcode. unfold mpu6050_tasks_turn, bind.
  destruct (mpu6050_read_outcome hdr env d tr) as (d1 & new1 & -> & Hlen1 & Hst).
  destruct (mpu6050_reset_on_error_outcome hdr env d1 (tr ++ new1))
    as (new2 & Htr & Hlen2 & Hcases).
  exists (new1 ++ new2). rewrite app_assoc.
  split; [exact Htr|]. split; [rewrite length_app; lia|].
  destruct Hcases as [[Hbits Hsame] | [_ Hnew]].
  - rewrite Hsame. destruct Hst as [Hst | Hst]; [left; exact Hst|].
    exfalso. rewrite Hst in Hbits. unfold mpu6050_error_bits in Hbits.
    rewrite Z.land_diag in Hbits. contradiction.
  - right. exact Hnew.
Qed.

Lemma mpu6050_tasks_turns_succ hdr env (n : nat) d tr :
  mpu6050_tasks_turns hdr env (S n) d tr =
    mpu6050_tasks_turns hdr env n
      (fst (mpu6050_tasks_turn hdr env d tr))
      (snd (mpu6050_tasks_turn hdr env d tr)).
Proof.
  cbn [mpu6050_tasks_turns]. unfold bind.
  destruct (mpu6050_tasks_turn hdr env d tr). reflexivity.
Qed.

(** X10.  When the code of [k_mpu6050_error] is not 0, the state after
    any positive number of turns of the loop of [mpu6050_tasks] is
    [data_updated], [ready] or [reset_error]: a failed read never leaves
    [error] behind, it is followed by a recovery in the same turn.  A
    turn makes at most eleven bus calls. *)
Theorem mpu6050_tasks_states hdr env (n : nat) d tr :
  mpu6050_state_code hdr k_mpu6050_error <> 0 ->
  let run := mpu6050_tasks_turns hdr env (S n) d tr in
  (state (fst run) = k_mpu6050_data_updated \/
   state (fst run) = k_mpu6050_ready \/
   state (fst run) = k_mpu6050_reset_error) /\
  exists new, snd run = tr ++ new /\ (length new <= 11 * S n)%nat.
Proof.
  intro Hcode. revert d tr.
  induction n as [|n IH]; intros d tr run; subst run;
    rewrite mpu6050_tasks_turns_succ;
    destruct (mpu6050_tasks_turn_outcome hdr env d tr Hcode)
      as (new1 & Htr & Hlen & Hst).
  - cbn [mpu6050_tasks_turns ret fst snd]. split; [exact Hst|].
    exists new1. split; [exact Htr | lia].
  - rewrite Htr.
    destruct (IH (fst (mpu6050_tasks_turn hdr env d tr)) (tr ++ new1))
      as (Hst2 & new2 & Htr2 & Hlen2).
    split; [exact Hst2|].
    exists (new1 ++ new2). rewrite app_assoc.
    split; [exact Htr2 | rewrite length_app; lia].
Qed.

Lemma mpu6050_tasks_states_witness :
  let run := mpu6050_tasks_turns mpu6050_example_h env_all_fail 3
               mpu6050_ready_device [] in
  (state (fst run) = k_mpu6050_data_updated \/
   state (fst run) = k_mpu6050_ready \/
   state (fst run) = k_mpu6050_reset_error) /\
  exists new, snd run = [] ++ new /\ (length new <= 11 * 3)%nat.
Proof.
  apply (mpu6050_tasks_states mpu6050_example_h env_all_fail 2
           mpu6050_ready_device []).
  vm_compute. discriminate.
Defined.

(* ================================================================== *)
(** * Further properties: the angle command *)
(* ================================================================== *)

(** ** Sequences of calls that stop at the first failure *)

Lemma run_calls_app env cs1 cs2 : forall tr,
  run_calls env tr (cs1 ++ cs2) =
    if ok (fst (run_calls env tr cs1))
    then run_calls env (snd (run_calls env tr cs1)) cs2
    else run_calls env tr cs1.
Proof.
  induction cs1 as [|c cs1 IH]; intro tr; cbn [run_calls app fst snd].
  - reflexivity.
  - destruct (ok (status (env tr c))) eqn:E.
    + apply IH.
    + cbn [fst]. rewrite E. reflexivity.
Qed.

Lemma run_calls_all_ok env cs : forall tr,
  Forall succeeded (answered env tr cs) ->
  run_calls env tr cs = (ESP_OK, tr ++ answered env tr cs).
Proof.
  induction cs as [|c cs IH]; intros tr Hall; cbn [run_calls answered] in *.
  - rewrite app_nil_r. reflexivity.
  - apply Forall_cons_iff in Hall. destruct Hall as [Hc Hrest].
    apply succeeded_ok in Hc. cbn [snd] in Hc. rewrite Hc.
    rewrite (IH _ Hrest). rewrite <- app_assoc. reflexivity.
Qed.

Lemma run_calls_fails_at env cs : forall tr (k : nat),
  (k < length cs)%nat ->
  let evs := answered env tr (firstn (S k) cs) in
  Forall succeeded (firstn k evs) ->
  ~ succeeded (nth k evs no_event) ->
  run_calls env tr cs = (status (snd (nth k evs no_event)), tr ++ evs).
Proof.
  induction cs as [|c cs IH]; intros tr k Hk evs Hpre Hfail;
    [cbn in Hk; lia|].
  subst evs. cbn [firstn answered run_calls] in *.
  destruct k as [|k].
  - cbn [nth] in *. apply not_succeeded_ok in Hfail. cbn [snd] in Hfail.
    rewrite Hfail. destruct cs; reflexivity.
  - cbn [firstn nth] in *.
    apply Forall_cons_iff in Hpre. destruct Hpre as [Hc Hrest].
    apply succeeded_ok in Hc. cbn [snd] in Hc. rewrite Hc.
    rewrite (IH _ k ltac:(cbn [length] in Hk; lia) Hrest Hfail).
    rewrite <- app_assoc. reflexivity.
Qed.

(** ** The angle command as a sequence of writes *)

Lemma pca9685_write_channel_run hdr env bus pulse channel tr :
  pca9685_write_channel hdr env bus pulse channel tr =
    run_calls env tr (pca9685_channel_calls hdr bus pulse channel).
Proof.
  unfold pca9685_write_channel. unfold_port.
  cbn [run_calls pca9685_channel_calls fst snd].
  repeat match goal with
  | |- context [if negb (ok ?x) then _ else _] =>
      destruct (ok x); cbn [negb]; [|reflexivity]
  end.
  reflexivity.
Qed.

Lemma land_bit (mask channel : Z) :
  0 <= channel ->
  negb (Z.land mask (Z.shiftl 1 channel) =? 0) = Z.testbit mask channel.
Proof.
  intro Hc. rewrite Z.shiftl_1_l.
  destruct (Z.testbit mask channel) eqn:Hbit.
  - apply negb_true_iff, Z.eqb_neq. intro H0.
    assert (Ht : Z.testbit (Z.land mask (2 ^ channel)) channel = true)
      by (rewrite Z.land_spec, Hbit, Z.pow2_bits_true by lia; reflexivity).
    rewrite H0, Z.bits_0 in Ht. discriminate.
  - apply negb_false_iff, Z.eqb_eq. apply Z.bits_inj'. intros n Hn.
    rewrite Z.land_spec, Z.bits_0, Z.pow2_bits_eqb by lia.
    destruct (Z.eqb_spec channel n) as [<- | _].
    + rewrite Hbit. reflexivity.
    + apply andb_false_r.
Qed.

Lemma selected_channels_filter mask : forall todo channel,
  0 <= channel ->
  selected_channels todo channel mask
    = filter (Z.testbit mask) (Z_range channel todo).
Proof.
  induction todo as [|todo IH]; intros channel Hc;
    cbn [selected_channels Z_range filter]; [reflexivity|].
  rewrite land_bit by exact Hc. rewrite IH by lia. reflexivity.
Qed.

Lemma pca9685_channel_loop_run hdr env mask bus pulse :
  forall todo channel tr,
  pca9685_channel_loop hdr env todo channel mask bus pulse tr =
    run_calls env tr
      (flat_map (pca9685_channel_calls hdr bus pulse)
         (selected_channels todo channel mask)).
Proof.
  induction todo as [|todo IH]; intros channel tr;
    cbn [pca9685_channel_loop selected_channels].
  - reflexivity.
  - destruct (negb (Z.land mask (Z.shiftl 1 channel) =? 0)).
    + cbn [flat_map]. rewrite run_calls_app. unfold bind.
      rewrite pca9685_write_channel_run.
      destruct (run_calls env tr (pca9685_channel_calls hdr bus pulse channel))
        as [r tr'] eqn:Hrun.
      cbn [fst snd]. destruct (ok r); cbn [negb]; [apply IH | reflexivity].
    + apply IH.
Qed.

(** On a registry built by [pca9685_init], a command for a registered
    board is the writes of the masked channels, up to the first failure. *)
Lemma pca9685_set_angle_run hdr env reg mask id angle tr b :
  reachable hdr reg ->
  find_board reg id = Some b ->
  pca9685_set_angle hdr env reg mask id angle tr =
    run_calls env tr
      (flat_map (pca9685_channel_calls hdr (board_i2c_bus b)
                   (pulse_length angle))
         (masked_channels mask)).
Proof.
  intros Hreach Hfind.
  destruct (find_board_some _ _ _ Hfind) as [Hin Hid].
  pose proof (reachable_invariant hdr reg Hreach) as [_ Hboards].
  rewrite Forall_forall in Hboards.
  destruct (Hboards b Hin) as (Hready & _ & _).
  unfold pca9685_set_angle.
  destruct reg as [|head rest]; [contradiction|].
  pose proof (reachable_head_bound hdr head rest b Hreach Hin) as Hbound.
  rewrite Hid in Hbound.
  replace (num_boards head <=? id) with false
    by (symmetry; apply Z.leb_gt; lia).
  rewrite (pca9685_set_angle_scan_found _ _ _ _ _ _ _ _ Hfind).
  rewrite Hready, Z.eqb_refl. cbn [negb].
  rewrite pca9685_channel_loop_run.
  rewrite selected_channels_filter by lia. reflexivity.
Qed.

(** X11.  On a registry built by [pca9685_init], a command for a
    registered board whose writes succeed returns [ESP_OK] after writing,
    in ascending order, the three bytes of each channel 0 to 15 whose bit
    is set in the mask, and nothing else. *)
Theorem pca9685_set_angle_masked_channels hdr env reg mask id angle tr b :
  reachable hdr reg ->
  find_board reg id = Some b ->
  let calls :=
    flat_map (pca9685_channel_calls hdr (board_i2c_bus b) (pulse_length angle))
      (masked_channels mask) in
  Forall succeeded (answered env tr calls) ->
  pca9685_set_angle hdr env reg mask id angle tr
    = (ESP_OK, tr ++ answered env tr calls) /\
  length calls = (3 * length (masked_channels mask))%nat /\
  (forall c, In c (masked_channels mask) <->
             0 <= c < 16 /\ Z.testbit mask c = true).
Proof.
  intros Hreach Hfind calls Hall. split; [|split].
  - rewrite (pca9685_set_angle_run hdr env reg mask id angle tr b Hreach Hfind).
    apply run_calls_all_ok. exact Hall.
  - subst calls. clear Hall. induction (masked_channels mask) as [|c l IH];
      [reflexivity|].
    cbn [flat_map]. rewrite length_app, IH.
    unfold pca9685_channel_calls. cbn [length]. lia.
  - intro c. unfold masked_channels. rewrite filter_In, in_Z_range.
    change (Z.of_nat 16) with 16. intuition lia.
Qed.

Lemma pca9685_set_angle_masked_channels_witness :
  pca9685_set_angle pca9685_example_h env_all_ok three_boards 0x8002 2
    (F32.of_Z 180) []
  = (ESP_OK,
     [ (I2cWriteByte 0x0A 0x42, mkReply ESP_OK []);
       (I2cWriteByte 0xFF 0x42, mkReply ESP_OK []);
       (I2cWriteByte 0x0F 0x42, mkReply ESP_OK []);
       (I2cWriteByte 0x42 0x42, mkReply ESP_OK []);
       (I2cWriteByte 0xFF 0x42, mkReply ESP_OK []);
       (I2cWriteByte 0x0F 0x42, mkReply ESP_OK []) ]).
Proof.
  apply (pca9685_set_angle_masked_channels pca9685_example_h env_all_ok
           three_boards 0x8002 2 (F32.of_Z 180) [] (mkBoard 0x42 0 2 3)
           three_boards_reachable eq_refl).
  vm_compute. repeat constructor.
Defined.

(** X12.  On a registry built by [pca9685_init], when write number [k]
    of a command is the first to fail, the command returns the status of
    that write, which is not [ESP_OK]; the [k] writes before it were made
    and stay made, and no write follows. *)
Theorem pca9685_set_angle_first_failure hdr env reg mask id angle tr b
    (k : nat) :
  reachable hdr reg ->
  find_board reg id = Some b ->
  let calls :=
    flat_map (pca9685_channel_calls hdr (board_i2c_bus b) (pulse_length angle))
      (masked_channels mask) in
  (k < length calls)%nat ->
  let evs := answered env tr (firstn (S k) calls) in
  Forall succeeded (firstn k evs) ->
  ~ succeeded (nth k evs no_event) ->
  pca9685_set_angle hdr env reg mask id angle tr
    = (status (snd (nth k evs no_event)), tr ++ evs) /\
  fst (pca9685_set_angle hdr env reg mask id angle tr) <> ESP_OK /\
  length evs = S k.
Proof.
  intros Hreach Hfind calls Hk evs Hpre Hfail.
  rewrite (pca9685_set_angle_run hdr env reg mask id angle tr b Hreach Hfind).
  fold calls.
  rewrite (run_calls_fails_at env calls tr k Hk Hpre Hfail). fold evs.
  split; [reflexivity|]. split; [exact Hfail|].
  unfold evs. rewrite answered_length, length_firstn. lia.
Qed.

(** The fifth write fails: channel 0 is written, of channel 3 the
    address and the low byte only. *)
Lemma pca9685_set_angle_first_failure_witness :
  pca9685_set_angle pca9685_example_h (env_fail_after 4 0) three_boards 9 1
    (F32.of_Z 90) []
  = (ESP_FAIL,
     [ (I2cWriteByte 0x06 0x41, mkReply ESP_OK []);
       (I2cWriteByte 0xFF 0x41, mkReply ESP_OK []);
       (I2cWriteByte 0x07 0x41, mkReply ESP_OK []);
       (I2cWriteByte 0x12 0x41, mkReply ESP_OK []);
       (I2cWriteByte 0xFF 0x41, mkReply ESP_FAIL []) ]).
Proof.
  apply (pca9685_set_angle_first_failure pca9685_example_h (env_fail_after 4 0)
           three_boards 9 1 (F32.of_Z 90) [] (mkBoard 0x41 0 1 3) 4
           three_boards_reachable eq_refl).
  - vm_compute. lia.
  - vm_compute. repeat constructor.
  - vm_compute. discriminate.
Defined.

(** X13.  A command for a registered board whose state is not ready
    makes no bus call; it returns [ESP_FAIL], or the invalid-argument
    error when already the bound on the id rejects it. *)
Theorem pca9685_set_angle_not_ready hdr env reg mask id angle tr b :
  find_board reg id = Some b ->
  board_state b <> k_pca9685_ready hdr ->
  pca9685_set_angle hdr env reg mask id angle tr =
    (match reg with
     | [] => ESP_ERR_INVALID_ARG
     | head :: _ =>
         if num_boards head <=? id then ESP_ERR_INVALID_ARG else ESP_FAIL
     end, tr).
Proof.
  intros Hfind Hstate. unfold pca9685_set_angle.
  destruct reg as [|head rest]; [reflexivity|].
  destruct (num_boards head <=? id); [reflexivity|].
  rewrite (pca9685_set_angle_scan_found _ _ _ _ _ _ _ _ Hfind).
  apply Z.eqb_neq in Hstate. rewrite Hstate. reflexivity.
Qed.

Lemma pca9685_set_angle_not_ready_witness :
  pca9685_set_angle pca9685_example_h env_all_ok [mkBoard 0x40 1 0 1]
    0xFFFF 0 (F32.of_Z 90) [] = (ESP_FAIL, []).
Proof.
  apply (pca9685_set_angle_not_ready pca9685_example_h env_all_ok
           [mkBoard 0x40 1 0 1] 0xFFFF 0 (F32.of_Z 90) []
           (mkBoard 0x40 1 0 1) eq_refl).
  vm_compute. discriminate.
Defined.

(* ================================================================== *)
(** * Further properties: registration *)
(* ================================================================== *)

(** X14.  In a registry built by [pca9685_init] the ids are exactly
    0 to length - 1: the scan finds a board for each of them, with that
    id, ready, with the bus value of 0x40 + id and a unit count above the
    id; it finds none for any other id. *)
Theorem pca9685_registry_lookup hdr reg (i : Z) :
  reachable hdr reg ->
  (0 <= i < Z.of_nat (length reg) ->
   exists b,
     find_board reg i = Some b /\
     board_id b = i /\
     board_state b = k_pca9685_ready hdr /\
     board_i2c_bus b = to_i2c_bus_t hdr (pca9685_i2c_address + i) /\
     i < num_boards b) /\
  (~ 0 <= i < Z.of_nat (length reg) -> find_board reg i = None).
Proof.
  intro Hreach.
  pose proof (reachable_invariant hdr reg Hreach) as Hinv.
  split; intro Hi.
  - destruct (find_board reg i) as [b|] eqn:Hfind.
    + exists b. split; [reflexivity|].
      destruct (find_board_some _ _ _ Hfind) as [Hin Hid].
      destruct Hinv as [_ Hall]. rewrite Forall_forall in Hall.
      destruct (Hall b Hin) as (Hst & Hbus & Hnum).
      rewrite Hid in Hbus, Hnum. tauto.
    + apply find_board_none in Hfind.
      rewrite (registry_invariant_ids hdr reg i Hinv) in Hfind. contradiction.
  - apply find_board_none.
    rewrite (registry_invariant_ids hdr reg i Hinv). exact Hi.
Qed.

Lemma pca9685_registry_lookup_witness :
  (exists b,
     find_board three_boards 2 = Some b /\
     board_id b = 2 /\
     board_state b = k_pca9685_ready pca9685_example_h /\
     board_i2c_bus b
       = to_i2c_bus_t pca9685_example_h (pca9685_i2c_address + 2) /\
     2 < num_boards b) /\
  find_board three_boards 3 = None.
Proof.
  split.
  - apply (proj1 (pca9685_registry_lookup pca9685_example_h three_boards 2
                    three_boards_reachable)).
    vm_compute. split; [discriminate | reflexivity].
  - apply (proj2 (pca9685_registry_lookup pca9685_example_h three_boards 3
                    three_boards_reachable)).
    vm_compute. intros [_ H]. discriminate H.
Defined.

(** A board that is not initialized comes with a status other than
    [ESP_OK]. *)
Lemma pca9685_init_board_error hdr env reg num i tr e :
  fst (pca9685_init_board hdr env reg num i tr) = inl e -> e <> ESP_OK.
Proof.
  unfold pca9685_init_board. unfold_port. cbn [fst snd].
  repeat (branch env;
          [| intro H; injection H as <-;
             first [ discriminate | apply ok_false; assumption ] ]).
  discriminate.
Qed.

(** The loop from turn [i] on returns [ESP_OK] exactly when it leaves
    every id below [i + todo] registered. *)
Lemma pca9685_init_loop_status hdr env num : forall todo i reg tr,
  0 <= i <= Z.of_nat (length reg) ->
  i + Z.of_nat todo <= num ->
  registry_invariant hdr reg ->
  let run := pca9685_init_loop hdr env todo num i reg tr in
  registry_invariant hdr (snd (fst run)) /\
  ((fst (fst run) = ESP_OK /\
    i + Z.of_nat todo <= Z.of_nat (length (snd (fst run)))) \/
   (fst (fst run) <> ESP_OK /\
    Z.of_nat (length (snd (fst run))) < i + Z.of_nat todo)).
Proof.
  induction todo as [|todo IH]; intros i reg tr Hi Hnum Hinv run; subst run.
  - cbn [pca9685_init_loop ret fst snd]. split; [exact Hinv|].
    left. split; [reflexivity | lia].
  - cbn [pca9685_init_loop].
    destruct (find_board reg i) as [b|] eqn:Hfind.
    + assert (Hlt : i < Z.of_nat (length reg)).
      { apply find_board_some in Hfind. destruct Hfind as [Hin Hid].
        assert (In i (board_ids reg))
          by (rewrite <- Hid; apply in_map; exact Hin).
        apply (registry_invariant_ids hdr reg i Hinv). assumption. }
      destruct (IH (i + 1) reg tr ltac:(lia) ltac:(lia) Hinv) as [Hinv' Hc].
      split; [exact Hinv'|].
      destruct Hc as [[Hok Hlen] | [Hko Hlen]]; [left | right];
        (split; [assumption | lia]).
    + assert (Heq : i = Z.of_nat (length reg)).
      { apply find_board_none in Hfind.
        rewrite (registry_invariant_ids hdr reg i Hinv) in Hfind. lia. }
      unfold bind.
      pose proof (pca9685_init_board_error hdr env reg num i tr) as Herr.
      destruct (pca9685_init_board_cases hdr env reg num i tr)
        as [[e He] | Hnew];
        destruct (pca9685_init_board hdr env reg num i tr) as [res tr'];
        cbn [fst] in *; subst res.
      * cbn [ret fst snd]. split; [exact Hinv|]. right.
        split; [apply Herr; reflexivity | lia].
      * set (b := mkBoard _ _ i num).
        assert (Hinv' : registry_invariant hdr (b :: reg)).
        { apply registry_invariant_cons; auto. lia. }
        destruct (IH (i + 1) (b :: reg) tr'
                    ltac:(cbn [length]; lia) ltac:(lia) Hinv')
          as [Hinv'' Hc].
        split; [exact Hinv''|].
        destruct Hc as [[Hok Hlen] | [Hko Hlen]]; [left | right];
          (split; [assumption | lia]).
Qed.

(** X15.  On a registry built by earlier registrations,
    [pca9685_init] returns [ESP_OK] exactly when every id below the count
    is registered afterwards.  When it returns an error, the registry
    holds the boards below the one that failed, and that one is not
    registered. *)
Theorem pca9685_init_ok_iff_complete hdr env reg num tr :
  reachable hdr reg ->
  0 <= num < 256 ->
  let run := pca9685_init hdr env reg num tr in
  (fst (fst run) = ESP_OK <->
   forall i, 0 <= i < num -> In i (board_ids (snd (fst run)))) /\
  (fst (fst run) <> ESP_OK ->
   ~ In (Z.of_nat (length (snd (fst run)))) (board_ids (snd (fst run))) /\
   Z.of_nat (length (snd (fst run))) < num).
Proof.
  intros Hreach Hnum run. subst run.
  pose proof (reachable_invariant hdr reg Hreach) as Hinv.
  unfold pca9685_init.
  destruct (pca9685_init_loop_status hdr env num (Z.to_nat num) 0 reg tr
              ltac:(lia) ltac:(lia) Hinv) as [Hinv' Hc].
  set (run := pca9685_init_loop hdr env (Z.to_nat num) num 0 reg tr) in *.
  assert (Hids : forall i, In i (board_ids (snd (fst run)))
                           <-> 0 <= i < Z.of_nat (length (snd (fst run))))
    by (intro i; apply (registry_invariant_ids hdr _ i Hinv')).
  split.
  - destruct Hc as [[Hok Hlen] | [Hko Hlen]].
    + split; [|intros _; exact Hok].
      intros _ i Hi. apply Hids. lia.
    + split; [intro; contradiction|].
      intro Hall. exfalso.
      specialize (Hall (Z.of_nat (length (snd (fst run)))) ltac:(lia)).
      apply Hids in Hall. lia.
  - intro Hko. destruct Hc as [[Hok _] | [_ Hlen]]; [contradiction|].
    split; [rewrite Hids; lia | lia].
Qed.

Lemma pca9685_init_ok_iff_complete_witness :
  let run := pca9685_init pca9685_example_h (env_fail_after 8 0) [] 3 [] in
  (fst (fst run) = ESP_OK <->
   forall i, 0 <= i < 3 -> In i (board_ids (snd (fst run)))) /\
  (fst (fst run) <> ESP_OK ->
   ~ In (Z.of_nat (length (snd (fst run)))) (board_ids (snd (fst run))) /\
   Z.of_nat (length (snd (fst run))) < 3).
Proof.
  apply (pca9685_init_ok_iff_complete pca9685_example_h (env_fail_after 8 0)
           [] 3 []).
  - constructor.
  - lia.
Defined.

(** ** Allocation *)

Lemma count_app p (l1 l2 : list event) :
  count p (l1 ++ l2) = (count p l1 + count p l2)%nat.
Proof. unfold count. rewrite filter_app, length_app. reflexivity. Qed.

Ltac count_events :=
  unfold count;
  cbn [filter is_allocation is_release fst snd length];
  repeat match goal with
  | H : ok ?x = _ |- context [ok ?x] => rewrite H
  end;
  cbn [filter length].

(** One board: the events it adds hold as many releases as allocations
    when it is not initialized, and one allocation without a release when
    it is. *)
Lemma pca9685_init_board_allocation hdr env reg num i tr :
  exists new,
    snd (pca9685_init_board hdr env reg num i tr) = tr ++ new /\
    (length new <= 7)%nat /\
    ((exists e, fst (pca9685_init_board hdr env reg num i tr) = inl e /\
                count is_allocation new = count is_release new) \/
     (exists b, fst (pca9685_init_board hdr env reg num i tr)
                  = inr (b :: reg) /\
                count is_allocation new = 1%nat /\
                count is_release new = 0%nat)).
Proof.
  unfold pca9685_init_board. unfold_port. cbn [fst snd].
  repeat (branch env;
    [| eexists; rewrite <- ?app_assoc; cbn [app];
       split; [reflexivity|]; split; [cbn [length]; lia|];
       left; eexists; split; [reflexivity|]; count_events; reflexivity ]).
  eexists. rewrite <- ?app_assoc. cbn [app].
  split; [reflexivity|]. split; [cbn [length]; lia|].
  right. eexists. split; [reflexivity|]. split; count_events; reflexivity.
Qed.

Lemma pca9685_init_loop_allocation hdr env num : forall todo i reg tr,
  exists added new,
    snd (fst (pca9685_init_loop hdr env todo num i reg tr)) = added ++ reg /\
    snd (pca9685_init_loop hdr env todo num i reg tr) = tr ++ new /\
    count is_allocation new
      = (length added + count is_release new)%nat.
Proof.
  induction todo as [|todo IH]; intros i reg tr.
  - exists [], []. cbn [pca9685_init_loop ret fst snd app].
    rewrite app_nil_r. repeat split.
  - cbn [pca9685_init_loop].
    destruct (find_board reg i) as [b|]; [apply IH|].
    unfold bind.
    destruct (pca9685_init_board_allocation hdr env reg num i tr)
      as (new1 & Htr & _ & Hcases).
    destruct (pca9685_init_board hdr env reg num i tr) as [res tr'].
    cbn [fst snd] in *. subst tr'.
    destruct Hcases as [(e & -> & Hcount) | (b & -> & Halloc & Hrel)].
    + exists [], new1. cbn [ret fst snd app length].
      split; [reflexivity|]. split; [reflexivity|]. lia.
    + destruct (IH (i + 1) (b :: reg) (tr ++ new1))
        as (added & new2 & Hreg & Htr2 & Hcount).
      exists (added ++ [b]), (new1 ++ new2).
      split; [rewrite <- app_assoc; exact Hreg|].
      split; [rewrite app_assoc; exact Htr2|].
      rewrite !count_app, length_app. cbn [length]. lia.
Qed.

(** X16.  [pca9685_init] releases every board that it allocated and did
    not put into the registry: among the events of a run, the allocations
    that returned a board are as many as the boards added plus the
    releases.  This holds for every registry and every environment. *)
Theorem pca9685_init_no_leak hdr env reg num tr :
  exists added new,
    snd (fst (pca9685_init hdr env reg num tr)) = added ++ reg /\
    snd (pca9685_init hdr env reg num tr) = tr ++ new /\
    count is_allocation new = (length added + count is_release new)%nat.
Proof. unfold pca9685_init. apply pca9685_init_loop_allocation. Qed.

(** ** The bus traffic of a registration that succeeds *)

Lemma pca9685_init_board_ok hdr env reg num i tr :
  Forall succeeded (answered env tr (pca9685_board_calls hdr i)) ->
  pca9685_init_board hdr env reg num i tr =
    (inr (mkBoard (to_i2c_bus_t hdr (pca9685_i2c_address + i))
            (k_pca9685_ready hdr) i num :: reg),
     tr ++ answered env tr (pca9685_board_calls hdr i)).
Proof.
  intro Hall. cbn [answered pca9685_board_calls] in *. cbv zeta in Hall.
  status_facts.
  unfold pca9685_init_board. unfold_port. cbn [fst snd].
  use_status. rewrite <- ?app_assoc. reflexivity.
Qed.

Lemma Z_range_succ lo n : Z_range lo (S n) = lo :: Z_range (lo + 1) n.
Proof. reflexivity. Qed.

Lemma pca9685_init_loop_ok hdr env num : forall todo i reg tr,
  0 <= i <= Z.of_nat (length reg) ->
  i + Z.of_nat todo <= num ->
  registry_invariant hdr reg ->
  let missing :=
    Z_range (Z.of_nat (length reg))
      (Z.to_nat (i + Z.of_nat todo) - length reg) in
  let calls := flat_map (pca9685_board_calls hdr) missing in
  Forall succeeded (answered env tr calls) ->
  exists added,
    pca9685_init_loop hdr env todo num i reg tr
      = (ESP_OK, added ++ reg, tr ++ answered env tr calls) /\
    registry_invariant hdr (added ++ reg) /\
    length added = length missing.
Proof.
  induction todo as [|todo IH]; intros i reg tr Hi Hnum Hinv missing calls Hall;
    subst calls missing.
  - replace (Z.to_nat (i + Z.of_nat 0) - length reg)%nat with 0%nat by lia.
    exists []. cbn [pca9685_init_loop ret Z_range flat_map answered app length].
    rewrite app_nil_r. split; [reflexivity|]. split; [exact Hinv | reflexivity].
  - cbn [pca9685_init_loop].
    destruct (find_board reg i) as [b|] eqn:Hfind.
    + assert (Hlt : i < Z.of_nat (length reg)).
      { apply find_board_some in Hfind. destruct Hfind as [Hin Hid].
        assert (In i (board_ids reg))
          by (rewrite <- Hid; apply in_map; exact Hin).
        apply (registry_invariant_ids hdr reg i Hinv). assumption. }
      replace (i + Z.of_nat (S todo)) with (i + 1 + Z.of_nat todo) in * by lia.
      apply (IH (i + 1) reg tr ltac:(lia) ltac:(lia) Hinv Hall).
    + assert (Heq : i = Z.of_nat (length reg)).
      { apply find_board_none in Hfind.
        rewrite (registry_invariant_ids hdr reg i Hinv) in Hfind. lia. }
      replace (Z.to_nat (i + Z.of_nat (S todo)) - length reg)%nat
        with (S todo) in * by lia.
      rewrite Z_range_succ in *. cbn [flat_map] in *.
      rewrite answered_app in Hall. apply Forall_app in Hall.
      destruct Hall as [Hboard Hrest]. rewrite <- Heq in *.
      unfold bind. rewrite (pca9685_init_board_ok hdr env reg num i tr Hboard).
      set (b := mkBoard _ _ i num).
      assert (Hinv' : registry_invariant hdr (b :: reg)).
      { apply registry_invariant_cons; auto. lia. }
      destruct (IH (i + 1) (b :: reg)
                  (tr ++ answered env tr (pca9685_board_calls hdr i))
                  ltac:(cbn [length]; lia) ltac:(lia) Hinv')
        as (added & Hrun & Hinv'' & Hlen).
      { replace (Z.of_nat (length (b :: reg))) with (i + 1)
          by (cbn [length]; lia).
        replace (Z.to_nat (i + 1 + Z.of_nat todo) - length (b :: reg))%nat
          with todo by (cbn [length]; lia).
        exact Hrest. }
      replace (Z.of_nat (length (b :: reg))) with (i + 1) in *
        by (cbn [length]; lia).
      replace (Z.to_nat (i + 1 + Z.of_nat todo) - length (b :: reg))%nat
        with todo in * by (cbn [length]; lia).
      exists (added ++ [b]). rewrite <- !app_assoc. cbn [app].
      rewrite Hrun. rewrite answered_app, <- app_assoc.
      split; [reflexivity|]. split; [exact Hinv''|].
      rewrite length_app. cbn [length]. lia.
Qed.

Lemma Z_range_length n : forall lo, length (Z_range lo n) = n.
Proof.
  induction n as [|n IHn]; intro lo; cbn [Z_range length];
    [|rewrite IHn]; reflexivity.
Qed.

Lemma pca9685_board_calls_length hdr n : forall lo,
  length (flat_map (pca9685_board_calls hdr) (Z_range lo n)) = (6 * n)%nat.
Proof.
  induction n as [|n IHn]; intro lo; [reflexivity|].
  cbn [Z_range flat_map]. rewrite length_app, IHn.
  unfold pca9685_board_calls. cbn [length]. lia.
Qed.

(** X17.  On a registry of [k] boards built by earlier registrations,
    a registration with count [num] whose calls succeed returns [ESP_OK]
    after six calls for each id from [k] to [num - 1], in ascending
    order: allocation, driver install on the bus value 0x40 + id, sleep
    mode, prescale register, prescaler value, restart.  The registry then
    holds [max num k] boards. *)
Theorem pca9685_init_success_traffic hdr env reg num tr :
  reachable hdr reg ->
  0 <= num < 256 ->
  let missing :=
    Z_range (Z.of_nat (length reg)) (Z.to_nat num - length reg) in
  let calls := flat_map (pca9685_board_calls hdr) missing in
  Forall succeeded (answered env tr calls) ->
  fst (fst (pca9685_init hdr env reg num tr)) = ESP_OK /\
  snd (pca9685_init hdr env reg num tr) = tr ++ answered env tr calls /\
  length calls = (6 * (Z.to_nat num - length reg))%nat /\
  Z.of_nat (length (snd (fst (pca9685_init hdr env reg num tr))))
    = Z.max num (Z.of_nat (length reg)).
Proof.
  intros Hreach Hnum missing calls Hall.
  pose proof (reachable_invariant hdr reg Hreach) as Hinv.
  unfold pca9685_init.
  destruct (pca9685_init_loop_ok hdr env num (Z.to_nat num) 0 reg tr
              ltac:(lia) ltac:(lia) Hinv) as (added & Hrun & _ & Hlen).
  { replace (0 + Z.of_nat (Z.to_nat num)) with num by lia. exact Hall. }
  replace (0 + Z.of_nat (Z.to_nat num)) with num in * by lia.
  rewrite Hrun. cbn [fst snd].
  split; [reflexivity|]. split; [reflexivity|].
  split; [apply pca9685_board_calls_length|].
  rewrite length_app, Hlen. unfold missing. rewrite Z_range_length. lia.
Qed.

Lemma pca9685_init_success_traffic_witness :
  fst (fst (pca9685_init pca9685_example_h env_all_ok three_boards 5 []))
    = ESP_OK /\
  map fst (snd (pca9685_init pca9685_example_h env_all_ok three_boards 5 []))
    = pca9685_board_calls pca9685_example_h 3
      ++ pca9685_board_calls pca9685_example_h 4.
Proof.
  destruct (pca9685_init_success_traffic pca9685_example_h env_all_ok
              three_boards 5 [] three_boards_reachable ltac:(lia))
    as (Hok & Htr & _).
  - vm_compute. repeat constructor.
  - split; [exact Hok|]. rewrite Htr. reflexivity.
Defined.
